(** * ForkBlockchain: the forking block store of the Buidler EVM provider

    A shallow embedding of
    [packages/buidler-core/src/internal/buidler-evm/provider/fork/ForkBlockchain.ts]
    and the properties of its operations.

    The class keeps five [Map]s and a latest block number, and reaches an
    upstream JSON-RPC node through [_jsonRpcClient].  Every method is an
    [async] function that mutates the object and may [throw]; it is modelled
    as a computation in a state-and-exception monad over the record
    [ForkBlockchain].  A [throw] keeps the mutations made before it, as in
    JavaScript.  Awaited calls are run one after the other.

    Numbers ([BN] values and the [number] keys of [_blocksByNumber]) are
    integers of [Z]; the conversion [toNumber]/[bufferToInt] is the identity
    on the safe integers the block heights live in.  The number of a block is
    read from a [Buffer] and is never negative.  [BN.gten] takes a JavaScript
    number and compares it with the lowest 26-bit word of the [BN] only; it is
    modelled as [bn.js] has it, see [cmpn].  A [Buffer] holding a 32-byte
    digest and the hex string [bufferToHex] makes of it are one value of type
    [Hash]. *)

From Stdlib Require Import ZArith NArith List Lia.
From Stdlib Require Strings.String Strings.Ascii.
From stdpp Require Import base option list gmap.
From Equations Require Import Equations.

Local Open Scope Z_scope.

(** ** Data *)

Abbreviation Hash := N.

(** [ethereumjs-tx]'s [Transaction]: opaque to the store but for [hash()]. *)
Record Transaction := {
  tx_hash : Hash;          (* transaction.hash() *)
  tx_nonce : Z
}.

(** [header.number] is a [Buffer], the big-endian bytes of an unsigned
    integer, kept here as that integer. *)
Record BlockHeader := {
  numberBuffer : N;
  parentHash : Hash;
  difficulty : Z
}.

(** [bufferToInt(header.number)], and the value of [new BN(header.number)]. *)
Definition number (h : BlockHeader) : Z := Z.of_N (numberBuffer h).

(** A [Block] is immutable once built; [hash] is the value of [block.hash()]. *)
Record Block := {
  header : BlockHeader;
  transactions : list Transaction;
  hash : Hash
}.

(** The records of [jsonrpc/types] as the store reads them. *)
Record RpcTransaction := {
  rtx_hash : Hash;
  rtx_blockHash : option Hash;      (* null for a pending transaction *)
  rtx_blockNumber : option Z;       (* null for a pending transaction *)
  rtx_nonce : Z
}.

Record RpcBlockWithTransactions := {
  rpc_number : option Z;            (* BN | null *)
  rpc_hash : option Hash;           (* Buffer | null *)
  rpc_parentHash : Hash;
  rpc_difficulty : Z;
  rpc_totalDifficulty : Z;
  rpc_transactions : list RpcTransaction
}.

(** The thrown [Error]s, one constructor per message up to the case of
    letters. *)
Inductive Error :=
| InvalidBlockNumber        (* "Invalid block number" *)
| InvalidParentHash         (* "Invalid parent hash" *)
| InvalidBlock              (* "Invalid block" *)
| CannotDeleteRemote        (* "Cannot delete remote block" *)
| BlockNotFound             (* "Block not found" *)
| TransactionNotFound       (* "Transaction not found" *)
| ThisShouldNeverHappen     (* "This should never happen", "this should never happen" *)
| UpstreamError             (* a rejected JSON-RPC request *)
| NotSupported              (* NotSupportedError *)
| NumberIsTooBig.           (* "Number is too big", an assertion of bn.js *)

Inductive Result (A : Type) :=
| Ok (a : A)
| Err (e : Error).
Arguments Ok {A} a.
Arguments Err {A} e.

(** The call [r] returns normally. *)
Definition returns {A} (r : Result A) : Prop := exists a, r = Ok a.
(** The call [r] throws [e]. *)
Definition raises {A} (r : Result A) (e : Error) : Prop := r = Err e.

(** ** Comparing a [BN] with a JavaScript number

    [BN.prototype.cmpn(num)] of [bn.js], with [this] and [num] as integers.
    A [BN] is a sign and an array of 26-bit words; [this.length > 1] says that
    its absolute value is at least [2^26].  In that case [cmpn] answers
    without looking at [num]; otherwise it asserts that [num] fits one word. *)
Definition cmpn (this num : Z) : Result Z :=
  let negative := num <? 0 in
  if (this <? 0) && negb negative then Ok (-1)
  else if (0 <=? this) && negative then Ok 1
  else
    let res :=
      if 2 ^ 26 <=? Z.abs this then Ok 1
      else
        let num := if negative then - num else num in
        if 0x3ffffff <? num then Err NumberIsTooBig
        else
          let w := Z.abs this in
          Ok (if w =? num then 0 else if w <? num then -1 else 1) in
    match res with
    | Ok res => Ok (if this <? 0 then - res else res)
    | Err e => Err e
    end.

(** [this.gten(num)] is [this.cmpn(num) >= 0]. *)
Definition gten (this num : Z) : Result bool :=
  match cmpn this num with
  | Ok c => Ok (0 <=? c)
  | Err e => Err e
  end.

(** ** The upstream node *)

(** A request either resolves or is rejected. *)
Inductive Remote (A : Type) :=
| Resolved (a : A)
| Rejected.
Arguments Resolved {A} a.
Arguments Rejected {A}.

(** [JsonRpcClient], with [includeTransactions = true] as the store calls it. *)
Record JsonRpcClient := {
  getBlockByHash : Hash -> Remote (option RpcBlockWithTransactions);
  getBlockByNumber : Z -> Remote (option RpcBlockWithTransactions);
  getTransactionByHash : Hash -> Remote (option RpcTransaction)
}.

(** The requests sent upstream, recorded in the order they are made. *)
Inductive RpcCall :=
| CallGetBlockByHash (h : Hash)
| CallGetBlockByNumber (n : Z)
| CallGetTransactionByHash (h : Hash).

(** The constructor arguments, and the two conversions of files that are
    not part of the sources at hand:
    [newBlock r] is [new Block(rpcToBlockData(r), { common })] and
    [newTransaction t] is [new Transaction(rpcToTxData(t), { common })]. *)
Record Env := {
  _jsonRpcClient : JsonRpcClient;
  _forkBlockNumber : Z;
  newBlock : RpcBlockWithTransactions -> Block;
  newTransaction : RpcTransaction -> Transaction
}.

(** ** The store *)

Record ForkBlockchain := {
  _blocksByNumber : gmap Z Block;
  _blocksByHash : gmap N Block;
  _totalDifficultyByBlockHash : gmap N Z;
  _transactions : gmap N Transaction;
  _transactionToBlock : gmap N Block;
  _latestBlockNumber : Z;
  rpcLog : list RpcCall               (* ghost: requests sent so far *)
}.

Definition set_blocksByNumber (f : gmap Z Block -> gmap Z Block) (s : ForkBlockchain) :=
  {| _blocksByNumber := f (_blocksByNumber s);
     _blocksByHash := _blocksByHash s;
     _totalDifficultyByBlockHash := _totalDifficultyByBlockHash s;
     _transactions := _transactions s;
     _transactionToBlock := _transactionToBlock s;
     _latestBlockNumber := _latestBlockNumber s;
     rpcLog := rpcLog s |}.

Definition set_blocksByHash (f : gmap N Block -> gmap N Block) (s : ForkBlockchain) :=
  {| _blocksByNumber := _blocksByNumber s;
     _blocksByHash := f (_blocksByHash s);
     _totalDifficultyByBlockHash := _totalDifficultyByBlockHash s;
     _transactions := _transactions s;
     _transactionToBlock := _transactionToBlock s;
     _latestBlockNumber := _latestBlockNumber s;
     rpcLog := rpcLog s |}.

Definition set_totalDifficultyByBlockHash (f : gmap N Z -> gmap N Z) (s : ForkBlockchain) :=
  {| _blocksByNumber := _blocksByNumber s;
     _blocksByHash := _blocksByHash s;
     _totalDifficultyByBlockHash := f (_totalDifficultyByBlockHash s);
     _transactions := _transactions s;
     _transactionToBlock := _transactionToBlock s;
     _latestBlockNumber := _latestBlockNumber s;
     rpcLog := rpcLog s |}.

Definition set_transactions (f : gmap N Transaction -> gmap N Transaction) (s : ForkBlockchain) :=
  {| _blocksByNumber := _blocksByNumber s;
     _blocksByHash := _blocksByHash s;
     _totalDifficultyByBlockHash := _totalDifficultyByBlockHash s;
     _transactions := f (_transactions s);
     _transactionToBlock := _transactionToBlock s;
     _latestBlockNumber := _latestBlockNumber s;
     rpcLog := rpcLog s |}.

Definition set_transactionToBlock (f : gmap N Block -> gmap N Block) (s : ForkBlockchain) :=
  {| _blocksByNumber := _blocksByNumber s;
     _blocksByHash := _blocksByHash s;
     _totalDifficultyByBlockHash := _totalDifficultyByBlockHash s;
     _transactions := _transactions s;
     _transactionToBlock := f (_transactionToBlock s);
     _latestBlockNumber := _latestBlockNumber s;
     rpcLog := rpcLog s |}.

Definition set_latestBlockNumber (n : Z) (s : ForkBlockchain) :=
  {| _blocksByNumber := _blocksByNumber s;
     _blocksByHash := _blocksByHash s;
     _totalDifficultyByBlockHash := _totalDifficultyByBlockHash s;
     _transactions := _transactions s;
     _transactionToBlock := _transactionToBlock s;
     _latestBlockNumber := n;
     rpcLog := rpcLog s |}.

Definition log_call (c : RpcCall) (s : ForkBlockchain) :=
  {| _blocksByNumber := _blocksByNumber s;
     _blocksByHash := _blocksByHash s;
     _totalDifficultyByBlockHash := _totalDifficultyByBlockHash s;
     _transactions := _transactions s;
     _transactionToBlock := _transactionToBlock s;
     _latestBlockNumber := _latestBlockNumber s;
     rpcLog := rpcLog s ++ [c] |}.

(** The five indexes of two stores agree (the latest number and the log of
    requests are left out). *)
Definition same_indexes (s s' : ForkBlockchain) : Prop :=
  _blocksByNumber s' = _blocksByNumber s /\
  _blocksByHash s' = _blocksByHash s /\
  _totalDifficultyByBlockHash s' = _totalDifficultyByBlockHash s /\
  _transactions s' = _transactions s /\
  _transactionToBlock s' = _transactionToBlock s.

(** ** The monad of the methods *)

Definition M (A : Type) : Type := ForkBlockchain -> Result A * ForkBlockchain.

Definition ret {A} (a : A) : M A := fun s => (Ok a, s).
Definition throw {A} (e : Error) : M A := fun s => (Err e, s).
Definition bind {A B} (m : M A) (k : A -> M B) : M B :=
  fun s => match m s with
           | (Ok a, s') => k a s'
           | (Err e, s') => (Err e, s')
           end.
Definition gets {A} (f : ForkBlockchain -> A) : M A := fun s => (Ok (f s), s).
(** A call that does not touch the store. *)
Definition lift {A} (r : Result A) : M A := fun s => (r, s).
Definition modify (f : ForkBlockchain -> ForkBlockchain) : M unit := fun s => (Ok tt, f s).

Notation "x <- c1 ;; c2" := (bind c1 (fun x => c2))
  (at level 100, c1 at next level, right associativity).
Notation "c1 ;; c2" := (bind c1 (fun _ => c2))
  (at level 100, right associativity).

(** [for (const x of l) body(x)] *)
Fixpoint forEach {A} (l : list A) (body : A -> M unit) : M unit :=
  match l with
  | [] => ret tt
  | x :: l' => body x ;; forEach l' body
  end.

(** [await] of a request: it is logged, and a rejection is rethrown. *)
Definition await {A} (c : RpcCall) (r : Remote A) : M A :=
  modify (log_call c) ;;
  match r with
  | Resolved a => ret a
  | Rejected => throw UpstreamError
  end.

(** The argument of [getBlock]: [Buffer | number | BN]. *)
Inductive BlockHashOrNumber :=
| OfHash (blockHash : Hash)
| OfNumber (blockNumber : Z).

(** A value with the equation that names it, for a [with] clause. *)
Definition inspect {A} (a : A) : {b | a = b} := exist _ a eq_refl.

Section Methods.

Variable env : Env.

Definition initial : ForkBlockchain :=
  {| _blocksByNumber := ∅;
     _blocksByHash := ∅;
     _totalDifficultyByBlockHash := ∅;
     _transactions := ∅;
     _transactionToBlock := ∅;
     _latestBlockNumber := _forkBlockNumber env;
     rpcLog := [] |}.

Definition _processTransactions (block : Block) : M unit :=
  forEach (transactions block) (fun transaction =>
    let transactionHash := tx_hash transaction in
    modify (set_transactions <[transactionHash := transaction]>) ;;
    modify (set_transactionToBlock <[transactionHash := block]>)).

Definition _processRemoteBlock (rpcBlock : option RpcBlockWithTransactions) : M Block :=
  match rpcBlock with
  | None => throw BlockNotFound
  | Some r =>
    match rpc_hash r, rpc_number r with
    | Some rhash, Some rnumber =>
      if rnumber >? _forkBlockNumber env then throw BlockNotFound
      else
        let block := newBlock env r in
        modify (set_blocksByNumber <[rnumber := block]>) ;;
        modify (set_blocksByHash <[rhash := block]>) ;;
        modify (set_totalDifficultyByBlockHash <[rhash := rpc_totalDifficulty r]>) ;;
        _processTransactions block ;;
        ret block
    | _, _ => throw BlockNotFound
    end
  end.

Definition _getBlockByHash (blockHash : Hash) : M Block :=
  cached <- gets (fun s => _blocksByHash s !! blockHash) ;;
  match cached with
  | Some block => ret block
  | None =>
    rpcBlock <- await (CallGetBlockByHash blockHash)
                      (getBlockByHash (_jsonRpcClient env) blockHash) ;;
    _processRemoteBlock rpcBlock
  end.

Definition _getBlockByNumber (blockNumber : Z) : M Block :=
  latest <- gets _latestBlockNumber ;;
  if blockNumber >? latest then throw BlockNotFound
  else
    cached <- gets (fun s => _blocksByNumber s !! blockNumber) ;;
    match cached with
    | Some block => ret block
    | None =>
      rpcBlock <- await (CallGetBlockByNumber blockNumber)
                        (getBlockByNumber (_jsonRpcClient env) blockNumber) ;;
      _processRemoteBlock rpcBlock
    end.

Definition getBlock (blockHashOrNumber : BlockHashOrNumber) : M Block :=
  match blockHashOrNumber with
  | OfHash h => _getBlockByHash h
  | OfNumber n => _getBlockByNumber n
  end.

Definition getLatestBlock : M Block :=
  latest <- gets _latestBlockNumber ;;
  getBlock (OfNumber latest).

Definition _computeTotalDifficulty (block : Block) : M Z :=
  let difficulty := difficulty (header block) in
  let blockNumber := number (header block) in
  if blockNumber =? 0 then ret difficulty
  else
    cached <- gets (fun s => _blocksByNumber s !! (blockNumber - 1)) ;;
    parentBlock <- match cached with
                   | Some p => ret p
                   | None => getBlock (OfNumber (blockNumber - 1))
                   end ;;
    let parentHash := hash parentBlock in
    parentTD <- gets (fun s => _totalDifficultyByBlockHash s !! parentHash) ;;
    match parentTD with
    | None => throw ThisShouldNeverHappen
    | Some td => ret (td + difficulty)
    end.

Definition putBlock (block : Block) : M Block :=
  let blockNumber := number (header block) in
  latest <- gets _latestBlockNumber ;;
  if negb (blockNumber =? latest + 1) then throw InvalidBlockNumber
  else
    parent <- getLatestBlock ;;
    if negb (parentHash (header block) =? hash parent)%N then throw InvalidParentHash
    else
      modify (fun s => set_latestBlockNumber (_latestBlockNumber s + 1) s) ;;
      let blockHash := hash block in
      modify (set_blocksByNumber <[blockNumber := block]>) ;;
      modify (set_blocksByHash <[blockHash := block]>) ;;
      td <- _computeTotalDifficulty block ;;
      modify (set_totalDifficultyByBlockHash <[blockHash := td]>) ;;
      _processTransactions block ;;
      ret block.

(** One turn of the loop of [_delBlock]. *)
Definition _delBlock_body (i : Z) : M unit :=
  cached <- gets (fun s => _blocksByNumber s !! i) ;;
  match cached with
  | None => throw ThisShouldNeverHappen
  | Some currentBlock =>
    let currentBlockHash := hash currentBlock in
    modify (set_blocksByHash (delete currentBlockHash)) ;;
    modify (set_blocksByNumber (delete i)) ;;
    modify (set_totalDifficultyByBlockHash (delete currentBlockHash)) ;;
    forEach (transactions currentBlock) (fun transaction =>
      let transactionHash := tx_hash transaction in
      modify (set_transactions (delete transactionHash)) ;;
      modify (set_transactionToBlock (delete transactionHash)))
  end.

(** [for (let i = ...; this._latestBlockNumber.gten(i); i++) { ... }] from
    [i] on.  The test is made anew before every turn, and a turn that does not
    throw takes the key [i] out of [_blocksByNumber]: the loop ends because
    the map gets smaller. *)
Equations? _delBlock_loop (i : Z) (s : ForkBlockchain) : Result unit * ForkBlockchain
  by wf (size (_blocksByNumber s)) lt :=
  _delBlock_loop i s with gten (_latestBlockNumber s) i => {
    | Err e => (Err e, s)
    | Ok false => (Ok tt, s)
    | Ok true with inspect (_delBlock_body i s) => {
      | exist _ (Err e, s') _ => (Err e, s')
      | exist _ (Ok _, s') Hbody => _delBlock_loop (i + 1) s' } }.
Proof.
  assert (Hkeep : forall (body : Transaction -> M unit),
    (forall t s1 r s2, body t s1 = (r, s2) -> _blocksByNumber s2 = _blocksByNumber s1) ->
    forall l s1 r s2, forEach l body s1 = (r, s2) ->
                      _blocksByNumber s2 = _blocksByNumber s1).
  { intros body Hb. induction l as [|t l IH]; intros s1 r s2 H; cbn in H.
    - now injection H as _ <-.
    - unfold bind in H. destruct (body t s1) as [[u|e] s1'] eqn:E.
      + apply IH in H. rewrite H. eapply Hb, E.
      + injection H as _ <-. eapply Hb, E. }
  unfold _delBlock_body, bind, gets, modify in Hbody.
  destruct (_blocksByNumber s !! i) as [currentBlock|] eqn:Hi; [|discriminate].
  apply Hkeep in Hbody; [|intros t s1 r s2 H; now injection H as _ <-].
  rewrite Hbody. cbn.
  rewrite map_size_delete, Hi.
  assert (size (_blocksByNumber s) <> 0)%nat; [|lia].
  intros H0. apply map_size_empty_inv in H0.
  rewrite H0 in Hi. now rewrite lookup_empty in Hi.
Qed.

Definition _delBlock (blockHash : Hash) : M unit :=
  found <- gets (fun s => _blocksByHash s !! blockHash) ;;
  match found with
  | None => throw BlockNotFound
  | Some block =>
    if number (header block) <=? _forkBlockNumber env then throw CannotDeleteRemote
    else
      let blockNumber := number (header block) in
      _delBlock_loop blockNumber ;;
      modify (set_latestBlockNumber (blockNumber - 1))
  end.

Definition delBlock (blockHash : Hash) : M unit := _delBlock blockHash.

Definition deleteAllFollowingBlocks (block : Block) : M unit :=
  let blockNumber := number (header block) in
  savedBlock <- gets (fun s => _blocksByNumber s !! blockNumber) ;;
  match savedBlock with
  | None => throw InvalidBlock
  | Some saved =>
    if negb (hash saved =? hash block)%N then throw InvalidBlock
    else
      let nextBlockNumber := blockNumber + 1 in
      remote <- lift (gten (_forkBlockNumber env) nextBlockNumber) ;;
      if remote then throw CannotDeleteRemote
      else
        nextBlock <- gets (fun s => _blocksByNumber s !! nextBlockNumber) ;;
        match nextBlock with
        | Some next => _delBlock (hash next)
        | None => ret tt
        end
  end.

Definition _processRemoteTransaction (rpcTransaction : option RpcTransaction) : M Transaction :=
  match rpcTransaction with
  | None => throw TransactionNotFound
  | Some r =>
    match rtx_blockNumber r with
    | None => throw TransactionNotFound
    | Some n =>
      if n >? _forkBlockNumber env then throw TransactionNotFound
      else
        let transaction := newTransaction env r in
        modify (set_transactions <[rtx_hash r := transaction]>) ;;
        ret transaction
    end
  end.

Definition getTransaction (transactionHash : Hash) : M Transaction :=
  tx <- gets (fun s => _transactions s !! transactionHash) ;;
  match tx with
  | None =>
    remote <- await (CallGetTransactionByHash transactionHash)
                    (getTransactionByHash (_jsonRpcClient env) transactionHash) ;;
    _processRemoteTransaction remote
  | Some t => ret t
  end.

Definition getBlockTotalDifficulty (blockHash : Hash) : M Z :=
  td <- gets (fun s => _totalDifficultyByBlockHash s !! blockHash) ;;
  match td with
  | Some t => ret t
  | None =>
    getBlock (OfHash blockHash) ;;
    td' <- gets (fun s => _totalDifficultyByBlockHash s !! blockHash) ;;
    match td' with
    | None => throw ThisShouldNeverHappen
    | Some t => ret t
    end
  end.

Definition getBlockByTransactionHash (transactionHash : Hash) : M Block :=
  block <- gets (fun s => _transactionToBlock s !! transactionHash) ;;
  match block with
  | Some b => ret b
  | None =>
    remote <- await (CallGetTransactionByHash transactionHash)
                    (getTransactionByHash (_jsonRpcClient env) transactionHash) ;;
    _processRemoteTransaction remote ;;
    block' <- match remote with
              | Some r =>
                match rtx_blockHash r with
                | Some bh =>
                  getBlock (OfHash bh) ;;
                  gets (fun s => _transactionToBlock s !! transactionHash)
                | None => ret None
                end
              | None => ret None
              end ;;
    match block' with
    | None => throw TransactionNotFound
    | Some b => ret b
    end
  end.

Definition iterator : M unit := throw NotSupported.

End Methods.

(** ** Pure readings of the loops and of the guards *)

(** [_transactions] after the transactions of a block have been indexed. *)
Definition insert_txs (txs : list Transaction) (m : gmap N Transaction) : gmap N Transaction :=
  foldl (fun m t => <[tx_hash t := t]> m) m txs.

(** [_transactionToBlock] after the transactions of [block] have been indexed. *)
Definition bind_txs (block : Block) (txs : list Transaction) (m : gmap N Block) : gmap N Block :=
  foldl (fun m t => <[tx_hash t := block]> m) m txs.

(** A map after the keys [ks] have been deleted one by one. *)
Definition delete_all {K V} `{Countable K} (ks : list K) (m : gmap K V) : gmap K V :=
  foldl (fun m k => delete k m) m ks.

Definition tx_hashes (b : Block) : list N := map tx_hash (transactions b).

(** The store after [_processTransactions block]. *)
Definition index_transactions (block : Block) (s : ForkBlockchain) : ForkBlockchain :=
  set_transactions (insert_txs (transactions block))
    (set_transactionToBlock (bind_txs block (transactions block)) s).

(** The store after [block] has been put under number [n] and hash [h] with
    total difficulty [td], and its transactions indexed. *)
Definition install_block (n : Z) (h : N) (td : Z) (block : Block) (s : ForkBlockchain) :=
  index_transactions block
    (set_totalDifficultyByBlockHash <[h := td]>
      (set_blocksByHash <[h := block]>
        (set_blocksByNumber <[n := block]> s))).

(** The store after the transactions of [block] have been dropped. *)
Definition drop_transactions (block : Block) (s : ForkBlockchain) : ForkBlockchain :=
  set_transactions (delete_all (tx_hashes block))
    (set_transactionToBlock (delete_all (tx_hashes block)) s).

(** The store after one turn of the loop of [_delBlock] at height [i], where
    [block] is stored. *)
Definition drop_block (i : Z) (block : Block) (s : ForkBlockchain) : ForkBlockchain :=
  drop_transactions block
    (set_totalDifficultyByBlockHash (delete (hash block))
      (set_blocksByNumber (delete i)
        (set_blocksByHash (delete (hash block)) s))).

(** The answer of the guard of [_processRemoteBlock]: the number and hash
    under which the block is accepted. *)
Definition accepted (env : Env) (rpcBlock : option RpcBlockWithTransactions)
  : option (Z * N * RpcBlockWithTransactions) :=
  match rpcBlock with
  | None => None
  | Some r =>
    match rpc_hash r, rpc_number r with
    | Some h, Some n => if n >? _forkBlockNumber env then None else Some (n, h, r)
    | _, _ => None
    end
  end.

(** The request [getBlock] sends for a key, and the answer to it. *)
Definition request (key : BlockHashOrNumber) : RpcCall :=
  match key with
  | OfHash h => CallGetBlockByHash h
  | OfNumber n => CallGetBlockByNumber n
  end.

Definition answer (env : Env) (key : BlockHashOrNumber)
  : Remote (option RpcBlockWithTransactions) :=
  match key with
  | OfHash h => getBlockByHash (_jsonRpcClient env) h
  | OfNumber n => getBlockByNumber (_jsonRpcClient env) n
  end.

(** The block the store holds for a key. *)
Definition cached (key : BlockHashOrNumber) (s : ForkBlockchain) : option Block :=
  match key with
  | OfHash h => _blocksByHash s !! h
  | OfNumber n => _blocksByNumber s !! n
  end.

(** The key is a number beyond the latest one. *)
Definition beyond_latest (key : BlockHashOrNumber) (s : ForkBlockchain) : bool :=
  match key with
  | OfHash _ => false
  | OfNumber n => n >? _latestBlockNumber s
  end.

(** ** A small upstream chain, used to run the methods

    Blocks 9 and 10 of the upstream chain, a mined transaction and a pending
    one; the fork is taken at block 10. *)

Definition demoTransaction (r : RpcTransaction) : Transaction :=
  {| tx_hash := rtx_hash r; tx_nonce := rtx_nonce r |}.

Definition demoBlock (r : RpcBlockWithTransactions) : Block :=
  {| header := {| numberBuffer := Z.to_N (default 0 (rpc_number r));
                  parentHash := rpc_parentHash r;
                  difficulty := rpc_difficulty r |};
     transactions := map demoTransaction (rpc_transactions r);
     hash := default 0%N (rpc_hash r) |}.

Definition rtx7 : RpcTransaction :=
  {| rtx_hash := 7%N; rtx_blockHash := Some 1010%N; rtx_blockNumber := Some 10;
     rtx_nonce := 0 |}.

Definition rtxPending : RpcTransaction :=
  {| rtx_hash := 70%N; rtx_blockHash := None; rtx_blockNumber := None;
     rtx_nonce := 5 |}.

Definition rpc9 : RpcBlockWithTransactions :=
  {| rpc_number := Some 9; rpc_hash := Some 1009%N; rpc_parentHash := 1008%N;
     rpc_difficulty := 2; rpc_totalDifficulty := 4997; rpc_transactions := [] |}.

Definition rpc10 : RpcBlockWithTransactions :=
  {| rpc_number := Some 10; rpc_hash := Some 1010%N; rpc_parentHash := 1009%N;
     rpc_difficulty := 3; rpc_totalDifficulty := 5000; rpc_transactions := [rtx7] |}.

Definition demoClient : JsonRpcClient :=
  {| getBlockByHash := fun h =>
       if (h =? 1010)%N then Resolved (Some rpc10)
       else if (h =? 1009)%N then Resolved (Some rpc9)
       else Resolved None;
     getBlockByNumber := fun n =>
       if n =? 10 then Resolved (Some rpc10)
       else if n =? 9 then Resolved (Some rpc9)
       else Resolved None;
     getTransactionByHash := fun h =>
       if (h =? 7)%N then Resolved (Some rtx7)
       else if (h =? 70)%N then Resolved (Some rtxPending)
       else Resolved None |}.

(** The store forked at block 10. *)
Definition demoEnv : Env :=
  {| _jsonRpcClient := demoClient; _forkBlockNumber := 10;
     newBlock := demoBlock; newTransaction := demoTransaction |}.

(** The same upstream, forked one block earlier. *)
Definition demoEnv9 : Env :=
  {| _jsonRpcClient := demoClient; _forkBlockNumber := 9;
     newBlock := demoBlock; newTransaction := demoTransaction |}.

Definition tx8 : Transaction := {| tx_hash := 8%N; tx_nonce := 1 |}.

(** A local block on top of block 10. *)
Definition block11 : Block :=
  {| header := {| numberBuffer := 11; parentHash := 1010%N; difficulty := 1000 |};
     transactions := [tx8];
     hash := 1011%N |}.

(** A block numbered 11 whose parent hash is not that of block 10, and which
    carries the transaction of block 10. *)
Definition orphan11 : Block :=
  {| header := {| numberBuffer := 11; parentHash := 999%N; difficulty := 1000 |};
     transactions := [demoTransaction rtx7];
     hash := 2011%N |}.

(** The store once block 10 has been loaded. *)
Definition demoLoaded : ForkBlockchain :=
  snd (getBlock demoEnv (OfNumber 10) (initial demoEnv)).

(** The store once block 10 has been loaded and [block11] appended. *)
Definition demoAppended : ForkBlockchain :=
  snd (putBlock demoEnv block11 (initial demoEnv)).

(** ** A fork at a height of 26 bits

    Upstream has block [n] under hash 5000; the fork is taken there, and two
    blocks are built on top of it. *)

Definition rpcAt (n : Z) : RpcBlockWithTransactions :=
  {| rpc_number := Some n; rpc_hash := Some 5000%N; rpc_parentHash := 4999%N;
     rpc_difficulty := 2; rpc_totalDifficulty := 9000; rpc_transactions := [] |}.

Definition clientAt (n : Z) : JsonRpcClient :=
  {| getBlockByHash := fun h =>
       if (h =? 5000)%N then Resolved (Some (rpcAt n)) else Resolved None;
     getBlockByNumber := fun i =>
       if i =? n then Resolved (Some (rpcAt n)) else Resolved None;
     getTransactionByHash := fun _ => Resolved None |}.

Definition forkAt (n : Z) : Env :=
  {| _jsonRpcClient := clientAt n; _forkBlockNumber := n;
     newBlock := demoBlock; newTransaction := demoTransaction |}.

(** The block on top of block [n], and the one on top of that. *)
Definition blockOn (n : Z) : Block :=
  {| header := {| numberBuffer := Z.to_N (n + 1); parentHash := 5000%N;
                  difficulty := 1000 |};
     transactions := [];
     hash := 5001%N |}.

Definition blockOver (n : Z) : Block :=
  {| header := {| numberBuffer := Z.to_N (n + 2); parentHash := 5001%N;
                  difficulty := 1000 |};
     transactions := [];
     hash := 5002%N |}.

(** The store forked at [n] once [blockOn n] has been appended, and once
    [blockOver n] has been appended as well. *)
Definition appendedAt (n : Z) : ForkBlockchain :=
  snd (putBlock (forkAt n) (blockOn n) (initial (forkAt n))).

Definition appendedTwiceAt (n : Z) : ForkBlockchain :=
  snd (putBlock (forkAt n) (blockOver n) (appendedAt n)).

(** ** Statements that the code is checked against *)

(** A rejected [putBlock] leaves the latest number alone and installs neither
    [block] nor any of its transactions: the entries under the block's number
    and hash and under the hashes of its transactions are as before. *)
Definition rejected_installs_nothing (env : Env) (block : Block) (s : ForkBlockchain) : Prop :=
  forall e s',
    putBlock env block s = (Err e, s') ->
    e = InvalidBlockNumber \/ e = InvalidParentHash ->
    _latestBlockNumber s' = _latestBlockNumber s /\
    _blocksByNumber s' !! number (header block) = _blocksByNumber s !! number (header block) /\
    _blocksByHash s' !! hash block = _blocksByHash s !! hash block /\
    _totalDifficultyByBlockHash s' !! hash block = _totalDifficultyByBlockHash s !! hash block /\
    forall t, t ∈ transactions block ->
      _transactions s' !! tx_hash t = _transactions s !! tx_hash t /\
      _transactionToBlock s' !! tx_hash t = _transactionToBlock s !! tx_hash t.

(** [putBlock] followed by [delBlock] of the same block gives back the latest
    number and the five indexes. *)
Definition append_delete_restores (env : Env) (block : Block) (s : ForkBlockchain) : Prop :=
  forall s2,
    putBlock env block s = (Ok block, s2) ->
    exists s3,
      delBlock env (hash block) s2 = (Ok tt, s3) /\
      _latestBlockNumber s3 = _latestBlockNumber s /\
      same_indexes s s3.

(** The blocks stored under the numbers [l]. *)
Definition stored_at (s : ForkBlockchain) (l : list Z) : list Block :=
  omap (fun i => _blocksByNumber s !! i) l.

(** The store after the loop of [_delBlock] has run over the numbers [l],
    where the blocks [cs] are stored. *)
Definition drop_blocks (l : list Z) (cs : list Block) (s : ForkBlockchain) : ForkBlockchain :=
  {| _blocksByNumber := delete_all l (_blocksByNumber s);
     _blocksByHash := delete_all (map hash cs) (_blocksByHash s);
     _totalDifficultyByBlockHash := delete_all (map hash cs) (_totalDifficultyByBlockHash s);
     _transactions := delete_all (concat (map tx_hashes cs)) (_transactions s);
     _transactionToBlock := delete_all (concat (map tx_hashes cs)) (_transactionToBlock s);
     _latestBlockNumber := _latestBlockNumber s;
     rpcLog := rpcLog s |}.

(** The store [_delBlock] leaves when it cuts the chain at number [n]. *)
Definition cut_at (n : Z) (s : ForkBlockchain) : ForkBlockchain :=
  let l := seqZ n (_latestBlockNumber s - n + 1) in
  set_latestBlockNumber (n - 1) (drop_blocks l (stored_at s l) s).

(** The store [_delBlock] leaves when its loop throws after it has removed
    the blocks from number [n] on: the latest number is not set back. *)
Definition trim_at (n : Z) (s : ForkBlockchain) : ForkBlockchain :=
  let l := seqZ n (_latestBlockNumber s - n + 1) in
  drop_blocks l (stored_at s l) s.

(** [s'] is [s] with the blocks at the numbers [n] to the latest one
    removed from every index, nothing else removed, and [n - 1] as the latest
    number. *)
Definition removed_from (n : Z) (s s' : ForkBlockchain) : Prop :=
  _latestBlockNumber s' = n - 1 /\
  rpcLog s' = rpcLog s /\
  (forall i c,
     n <= i <= _latestBlockNumber s ->
     _blocksByNumber s !! i = Some c ->
     _blocksByNumber s' !! i = None /\
     _blocksByHash s' !! hash c = None /\
     _totalDifficultyByBlockHash s' !! hash c = None /\
     forall t, t ∈ transactions c ->
       _transactions s' !! tx_hash t = None /\
       _transactionToBlock s' !! tx_hash t = None) /\
  (forall i, ~ n <= i <= _latestBlockNumber s ->
     _blocksByNumber s' !! i = _blocksByNumber s !! i) /\
  (forall h,
     (forall i c, n <= i <= _latestBlockNumber s ->
                  _blocksByNumber s !! i = Some c -> hash c <> h) ->
     _blocksByHash s' !! h = _blocksByHash s !! h /\
     _totalDifficultyByBlockHash s' !! h = _totalDifficultyByBlockHash s !! h) /\
  (forall h,
     (forall i c t, n <= i <= _latestBlockNumber s ->
                    _blocksByNumber s !! i = Some c ->
                    t ∈ transactions c -> tx_hash t <> h) ->
     _transactions s' !! h = _transactions s !! h /\
     _transactionToBlock s' !! h = _transactionToBlock s !! h).

(** ** Runs of the store *)

(** The calls of the public interface. *)
Inductive Operation :=
| DoGetBlock (key : BlockHashOrNumber)
| DoGetLatestBlock
| DoPutBlock (block : Block)
| DoDelBlock (blockHash : Hash)
| DoDeleteAllFollowingBlocks (block : Block)
| DoGetBlockTotalDifficulty (blockHash : Hash)
| DoGetTransaction (transactionHash : Hash)
| DoGetBlockByTransactionHash (transactionHash : Hash).

(** The store a call leaves, whether it returns or throws. *)
Definition perform (env : Env) (op : Operation) (s : ForkBlockchain) : ForkBlockchain :=
  match op with
  | DoGetBlock key => snd (getBlock env key s)
  | DoGetLatestBlock => snd (getLatestBlock env s)
  | DoPutBlock block => snd (putBlock env block s)
  | DoDelBlock h => snd (delBlock env h s)
  | DoDeleteAllFollowingBlocks block => snd (deleteAllFollowingBlocks env block s)
  | DoGetBlockTotalDifficulty h => snd (getBlockTotalDifficulty env h s)
  | DoGetTransaction h => snd (getTransaction env h s)
  | DoGetBlockByTransactionHash h => snd (getBlockByTransactionHash env h s)
  end.

(** [minted] is the set of blocks the caller hands to [putBlock] in a run;
    the other calls take any argument. *)
Definition allowed (minted : Block -> Prop) (op : Operation) : Prop :=
  match op with
  | DoPutBlock block => minted block
  | _ => True
  end.

(** The stores a freshly constructed [ForkBlockchain] can be brought to. *)
Inductive reachable (env : Env) (minted : Block -> Prop) : ForkBlockchain -> Prop :=
| reachable_initial : reachable env minted (initial env)
| reachable_perform op s :
    reachable env minted s -> allowed minted op ->
    reachable env minted (perform env op s).

(** The record [r] comes back for [key] and passes the guard of
    [_processRemoteBlock] under number [n] and hash [h]. *)
Definition served (env : Env) (key : BlockHashOrNumber)
           (r : RpcBlockWithTransactions) (n : Z) (h : N) : Prop :=
  answer env key = Resolved (Some r) /\ accepted env (Some r) = Some (n, h, r).

(** The blocks of a run: those minted and those built from upstream records. *)
Definition known (env : Env) (minted : Block -> Prop) (b : Block) : Prop :=
  minted b \/ exists key r n h, served env key r n h /\ b = newBlock env r.

(** What the store takes for granted about upstream and about hashes:
    the block built from a record has the record's hash and number; a record
    has the hash or number it was asked by; and no two blocks of the run
    share a hash. *)
Record sound (env : Env) (minted : Block -> Prop) : Prop := {
  sound_block : forall key r n h,
    served env key r n h ->
    hash (newBlock env r) = h /\ number (header (newBlock env r)) = n;
  sound_key : forall key r n h,
    served env key r n h ->
    match key with
    | OfHash h0 => h = h0
    | OfNumber n0 => n = n0
    end;
  sound_hash : forall b b',
    known env minted b -> known env minted b' -> hash b = hash b' -> b = b'
}.

(** Upstream serves one chain: a record served for any key is the one served
    for its number, the block built from it keeps its difficulty, and the
    total difficulties of the chain add up. *)
Record canonical (env : Env) (minted : Block -> Prop) : Prop := {
  canonical_sound : sound env minted;
  canonical_number : forall key r n h,
    served env key r n h ->
    getBlockByNumber (_jsonRpcClient env) n = Resolved (Some r);
  canonical_difficulty : forall key r n h,
    served env key r n h ->
    difficulty (header (newBlock env r)) = rpc_difficulty r;
  canonical_total : forall r r' n h h',
    0 < n ->
    served env (OfNumber n) r n h ->
    served env (OfNumber (n - 1)) r' (n - 1) h' ->
    rpc_totalDifficulty r = rpc_totalDifficulty r' + rpc_difficulty r;
  canonical_genesis : forall r h,
    served env (OfNumber 0) r 0 h ->
    rpc_totalDifficulty r = rpc_difficulty r
}.

(** The elementary changes the calls are made of. *)
Inductive change (env : Env) (minted : Block -> Prop) : ForkBlockchain -> ForkBlockchain -> Prop :=
| change_log c s :
    change env minted s (log_call c s)
| change_load key r n h s :
    served env key r n h ->
    change env minted s
      (install_block n h (rpc_totalDifficulty r) (newBlock env r) s)
| change_put block td s :
    minted block ->
    number (header block) = _latestBlockNumber s + 1 ->
    (number (header block) = 0 /\ td = difficulty (header block) \/
     number (header block) <> 0 /\
     exists p tp, _blocksByNumber s !! _latestBlockNumber s = Some p /\
                  _totalDifficultyByBlockHash s !! hash p = Some tp /\
                  td = tp + difficulty (header block)) ->
    change env minted s
      (install_block (_latestBlockNumber s + 1) (hash block) td block
         (set_latestBlockNumber (_latestBlockNumber s + 1) s))
| change_cut h block s :
    _blocksByHash s !! h = Some block ->
    _forkBlockNumber env < number (header block) ->
    change env minted s (cut_at (number (header block)) s)
| change_trim h block s :
    _blocksByHash s !! h = Some block ->
    _forkBlockNumber env < number (header block) ->
    2 ^ 26 - 1 <= _latestBlockNumber s ->
    change env minted s (trim_at (number (header block)) s)
| change_tx r s :
    change env minted s
      (set_transactions <[rtx_hash r := newTransaction env r]> s).

(** Several changes in a row. *)
Inductive changes (env : Env) (minted : Block -> Prop) : ForkBlockchain -> ForkBlockchain -> Prop :=
| changes_refl s : changes env minted s s
| changes_step s s' s'' :
    changes env minted s s' -> change env minted s' s'' -> changes env minted s s''.

(** The first group of invariants: the block indexes agree with each other,
    every stored block has its total difficulty, the numbers stored above the
    fork block number have no gap below them, and the latest number is stored
    as long as it is below [2^26 - 1] (from there on the loop of [_delBlock]
    throws and leaves the latest number where it was). *)
Record consistent (env : Env) (minted : Block -> Prop) (s : ForkBlockchain) : Prop := {
  consistent_latest : _forkBlockNumber env <= _latestBlockNumber s;
  consistent_byHash : forall h b,
    _blocksByHash s !! h = Some b ->
    hash b = h /\ known env minted b /\
    is_Some (_totalDifficultyByBlockHash s !! h);
  consistent_byNumber : forall n b,
    _blocksByNumber s !! n = Some b ->
    number (header b) = n /\ known env minted b /\
    n <= _latestBlockNumber s /\
    is_Some (_totalDifficultyByBlockHash s !! hash b);
  consistent_indexed : forall n b,
    _blocksByNumber s !! n = Some b ->
    _blocksByHash s !! hash b = Some b;
  consistent_total : forall h,
    is_Some (_totalDifficultyByBlockHash s !! h) ->
    is_Some (_blocksByHash s !! h);
  consistent_local : forall h b,
    _blocksByHash s !! h = Some b ->
    _forkBlockNumber env < number (header b) ->
    _blocksByNumber s !! number (header b) = Some b;
  consistent_closed : forall i j,
    _forkBlockNumber env < j <= i ->
    is_Some (_blocksByNumber s !! i) ->
    is_Some (_blocksByNumber s !! j);
  consistent_tip :
    _forkBlockNumber env < _latestBlockNumber s ->
    _latestBlockNumber s < 2 ^ 26 - 1 ->
    is_Some (_blocksByNumber s !! _latestBlockNumber s)
}.

(** The second group: a block stored at or below the fork block number is
    the upstream one with the upstream total difficulty, and the total
    difficulty of a block stored above it is that of the block stored one
    number below plus its own difficulty. *)
Record accumulated (env : Env) (s : ForkBlockchain) : Prop := {
  accumulated_remote : forall n b,
    n <= _forkBlockNumber env ->
    _blocksByNumber s !! n = Some b ->
    exists r, served env (OfNumber n) r n (hash b) /\
              newBlock env r = b /\
              _totalDifficultyByBlockHash s !! hash b = Some (rpc_totalDifficulty r);
  accumulated_local : forall n b,
    _forkBlockNumber env < n ->
    _blocksByNumber s !! n = Some b ->
    n = 0 /\ _totalDifficultyByBlockHash s !! hash b = Some (difficulty (header b)) \/
    n <> 0 /\
    exists p tp, _blocksByNumber s !! (n - 1) = Some p /\
                 _totalDifficultyByBlockHash s !! hash p = Some tp /\
                 _totalDifficultyByBlockHash s !! hash b = Some (tp + difficulty (header b))
}.

(** The one block minted in the runs of the small chain. *)
Definition demoMinted (b : Block) : Prop := b = block11.

(** The store once block 9 has been loaded as well. *)
Definition demoFull : ForkBlockchain :=
  snd (getBlock demoEnv (OfNumber 9) demoAppended).

(** [s'] is a store in which [block] has been appended to [s] with total
    difficulty [td]: the latest number has moved up by one, the block is under
    that number and under its hash, with [td], and each of its transactions
    is indexed. *)
Definition appended (block : Block) (td : Z) (s s' : ForkBlockchain) : Prop :=
  _latestBlockNumber s' = _latestBlockNumber s + 1 /\
  _blocksByNumber s' !! (_latestBlockNumber s + 1) = Some block /\
  _blocksByHash s' !! hash block = Some block /\
  _totalDifficultyByBlockHash s' !! hash block = Some td /\
  forall t, t ∈ transactions block ->
    _transactionToBlock s' !! tx_hash t = Some block /\
    exists t', t' ∈ transactions block /\ tx_hash t' = tx_hash t /\
               _transactions s' !! tx_hash t = Some t'.

(** A block on top of block 10 that carries the transaction of block 10. *)
Definition replay11 : Block :=
  {| header := {| numberBuffer := 11; parentHash := 1010%N; difficulty := 1000 |};
     transactions := [demoTransaction rtx7];
     hash := 3011%N |}.

(** The fresh store once transaction 7 has been fetched by [getTransaction]. *)
Definition demoFetched : ForkBlockchain :=
  snd (getTransaction demoEnv 7%N (initial demoEnv)).

(** ** Further statements about the store *)

(** Every hash bound in [_transactionToBlock] is the hash of a transaction of
    the block it is bound to, and that block is stored under its hash. *)
Definition bound (s : ForkBlockchain) : Prop :=
  forall h b,
    _transactionToBlock s !! h = Some b ->
    h ∈ tx_hashes b /\ _blocksByHash s !! hash b = Some b.

(** The elementary changes the lookups are made of: a request is logged, a
    block from upstream is installed, a transaction from upstream is put into
    [_transactions]. *)
Inductive quiet (env : Env) : ForkBlockchain -> ForkBlockchain -> Prop :=
| quiet_log c s :
    quiet env s (log_call c s)
| quiet_load key r n h s :
    served env key r n h ->
    quiet env s (install_block n h (rpc_totalDifficulty r) (newBlock env r) s)
| quiet_tx r s :
    quiet env s (set_transactions <[rtx_hash r := newTransaction env r]> s).

Inductive quiets (env : Env) : ForkBlockchain -> ForkBlockchain -> Prop :=
| quiets_refl s : quiets env s s
| quiets_step s s' s'' :
    quiets env s s' -> quiet env s' s'' -> quiets env s s''.

(** [s'] has the latest number of [s] and every key that [s] has, in each of
    the five indexes. *)
Definition grows (s s' : ForkBlockchain) : Prop :=
  _latestBlockNumber s' = _latestBlockNumber s /\
  (forall n, is_Some (_blocksByNumber s !! n) -> is_Some (_blocksByNumber s' !! n)) /\
  (forall h, is_Some (_blocksByHash s !! h) -> is_Some (_blocksByHash s' !! h)) /\
  (forall h, is_Some (_totalDifficultyByBlockHash s !! h) ->
             is_Some (_totalDifficultyByBlockHash s' !! h)) /\
  (forall h, is_Some (_transactions s !! h) -> is_Some (_transactions s' !! h)) /\
  (forall h, is_Some (_transactionToBlock s !! h) -> is_Some (_transactionToBlock s' !! h)).

(** Above the fork block number every stored block but one of number 0 has
    its parent stored one number below: the block there has the hash the
    header names as parent hash. *)
Definition linked (env : Env) (s : ForkBlockchain) : Prop :=
  forall n b,
    _forkBlockNumber env < n ->
    _blocksByNumber s !! n = Some b ->
    n = 0 \/
    exists p, _blocksByNumber s !! (n - 1) = Some p /\
              parentHash (header b) = hash p.

(** * ModulesLogger: the log buffer of the provider's modules

    The class collects plain lines and titled lines and renders the titled
    ones in two columns.  A JavaScript string is a [String.string], its
    [length] is [String.length].  [debug] formats its arguments with
    [util.format] and hands the string to [log]; it is a [log] call here. *)
Module Logger.
Import Stdlib.Strings.Ascii Stdlib.Strings.String.
Local Open Scope nat_scope.

(** An element of [_logs]: a string, or a pair of a title and a message. *)
Inductive Entry :=
| Plain (message : string)
| Titled (title message : string).

Record ModulesLogger := {
  _enabled : bool;
  _logs : list Entry;
  _titleLength : nat;
  _indentEnabled : bool;
  _indent : nat
}.

Definition create : ModulesLogger :=
  {| _enabled := false; _logs := []; _titleLength := 0;
     _indentEnabled := false; _indent := 4 |}.

Definition colon : string := ":"%string.
Definition space : string := " "%string.

(** [" ".repeat(n)] *)
Fixpoint spaces (n : nat) : string :=
  match n with
  | O => EmptyString
  | S n => String " "%char (spaces n)
  end.

(** [s.padEnd(targetLength)]: [s] itself when it is long enough. *)
Definition padEnd (s : string) (targetLength : nat) : string :=
  append s (spaces (targetLength - String.length s)).

Definition enabled (l : ModulesLogger) : bool := _enabled l.

Definition setEnabled (e : bool) (l : ModulesLogger) : ModulesLogger :=
  {| _enabled := e; _logs := _logs l; _titleLength := _titleLength l;
     _indentEnabled := _indentEnabled l; _indent := _indent l |}.

Definition push (e : Entry) (l : ModulesLogger) : ModulesLogger :=
  {| _enabled := _enabled l; _logs := _logs l ++ [e]; _titleLength := _titleLength l;
     _indentEnabled := _indentEnabled l; _indent := _indent l |}.

Definition set_titleLength (n : nat) (l : ModulesLogger) : ModulesLogger :=
  {| _enabled := _enabled l; _logs := _logs l; _titleLength := n;
     _indentEnabled := _indentEnabled l; _indent := _indent l |}.

Definition log (message : string) (l : ModulesLogger) : ModulesLogger :=
  if negb (enabled l) then l
  else
    let message :=
      if _indentEnabled l then append (spaces (_indent l)) message else message in
    push (Plain message) l.

Definition setIndent (flag : bool) (l : ModulesLogger) : ModulesLogger :=
  {| _enabled := _enabled l; _logs := _logs l; _titleLength := _titleLength l;
     _indentEnabled := flag; _indent := _indent l |}.

Definition logWithTitle (title message : string) (l : ModulesLogger) : ModulesLogger :=
  if negb (enabled l) then l
  else
    let title :=
      if _indentEnabled l then append (spaces (_indent l)) title else title in
    let l :=
      if _titleLength l <? String.length title
      then set_titleLength (String.length title) l else l in
    push (Titled title message) l.

Definition clearLogs (l : ModulesLogger) : ModulesLogger :=
  {| _enabled := _enabled l; _logs := []; _titleLength := _titleLength l;
     _indentEnabled := _indentEnabled l; _indent := _indent l |}.

Definition hasLogs (l : ModulesLogger) : bool := 0 <? List.length (_logs l).

(** One line of [getLogs]. *)
Definition line (l : ModulesLogger) (e : Entry) : string :=
  match e with
  | Plain message => message
  | Titled t message =>
    let title := append t colon in
    append (padEnd title (_titleLength l + 1)) (append space message)
  end.

Definition getLogs (l : ModulesLogger) : list string := map (line l) (_logs l).

(** The calls on a logger, and a run of them. *)
Inductive Call :=
| SetEnabled (e : bool)
| Log (message : string)
| SetIndent (flag : bool)
| LogWithTitle (title message : string)
| ClearLogs.

Definition call (c : Call) (l : ModulesLogger) : ModulesLogger :=
  match c with
  | SetEnabled e => setEnabled e l
  | Log message => log message l
  | SetIndent flag => setIndent flag l
  | LogWithTitle title message => logWithTitle title message l
  | ClearLogs => clearLogs l
  end.

Definition run (calls : list Call) (l : ModulesLogger) : ModulesLogger :=
  foldl (fun l c => call c l) l calls.

(** Every title in [_logs] is at most [_titleLength] long. *)
Definition fits (l : ModulesLogger) : Prop :=
  forall i t m, _logs l !! i = Some (Titled t m) -> String.length t <= _titleLength l.

Definition never_enabled (calls : list Call) : Prop :=
  forall c, c ∈ calls -> c <> SetEnabled true.

Definition demoTitle : string := "From"%string.
Definition demoMessage : string := "0xc0ffee"%string.

Definition demoCalls : list Call :=
  [SetEnabled true; LogWithTitle demoTitle demoMessage; SetIndent true;
   LogWithTitle "Gas used"%string "21000"%string; Log "done"%string].

Definition quietCalls : list Call :=
  [Log "lost"%string; SetIndent true; LogWithTitle demoTitle demoMessage; ClearLogs].

End Logger.

(** * The first revision of ForkBlockchain

    The class as it was before total difficulties, transactions and deletion
    were added: two [Map]s and the latest number.  [putBlock] checks the
    number only.  [delBlock], [iterator] and [deleteAllFollowingBlocks] throw
    "not implemented" and are left out. *)
Module Legacy.

Record ForkBlockchain := {
  _blocksByNumber : gmap Z Block;
  _blocksByHash : gmap N Block;
  _latestBlockNumber : Z;
  rpcLog : list RpcCall
}.

Definition initial (env : Env) : ForkBlockchain :=
  {| _blocksByNumber := ∅; _blocksByHash := ∅;
     _latestBlockNumber := _forkBlockNumber env; rpcLog := [] |}.

Definition log_call (c : RpcCall) (s : ForkBlockchain) : ForkBlockchain :=
  {| _blocksByNumber := _blocksByNumber s; _blocksByHash := _blocksByHash s;
     _latestBlockNumber := _latestBlockNumber s; rpcLog := rpcLog s ++ [c] |}.

Definition _processRemoteBlock (env : Env) (rpcBlock : option RpcBlockWithTransactions)
           (s : ForkBlockchain) : Result Block * ForkBlockchain :=
  match rpcBlock with
  | None => (Err BlockNotFound, s)
  | Some r =>
    match rpc_hash r, rpc_number r with
    | Some rhash, Some rnumber =>
      if rnumber >? _forkBlockNumber env then (Err BlockNotFound, s)
      else
        let block := newBlock env r in
        (Ok block,
         {| _blocksByNumber := <[rnumber := block]> (_blocksByNumber s);
            _blocksByHash := <[rhash := block]> (_blocksByHash s);
            _latestBlockNumber := _latestBlockNumber s;
            rpcLog := rpcLog s |})
    | _, _ => (Err BlockNotFound, s)
    end
  end.

Definition _getBlockByHash (env : Env) (blockHash : Hash) (s : ForkBlockchain)
  : Result Block * ForkBlockchain :=
  match _blocksByHash s !! blockHash with
  | Some block => (Ok block, s)
  | None =>
    match getBlockByHash (_jsonRpcClient env) blockHash with
    | Rejected => (Err UpstreamError, log_call (CallGetBlockByHash blockHash) s)
    | Resolved rpcBlock =>
      _processRemoteBlock env rpcBlock (log_call (CallGetBlockByHash blockHash) s)
    end
  end.

Definition _getBlockByNumber (env : Env) (blockNumber : Z) (s : ForkBlockchain)
  : Result Block * ForkBlockchain :=
  if blockNumber >? _latestBlockNumber s then (Err BlockNotFound, s)
  else
    match _blocksByNumber s !! blockNumber with
    | Some block => (Ok block, s)
    | None =>
      match getBlockByNumber (_jsonRpcClient env) blockNumber with
      | Rejected => (Err UpstreamError, log_call (CallGetBlockByNumber blockNumber) s)
      | Resolved rpcBlock =>
        _processRemoteBlock env rpcBlock (log_call (CallGetBlockByNumber blockNumber) s)
      end
    end.

Definition getBlock (env : Env) (blockHashOrNumber : BlockHashOrNumber) (s : ForkBlockchain)
  : Result Block * ForkBlockchain :=
  match blockHashOrNumber with
  | OfHash h => _getBlockByHash env h s
  | OfNumber n => _getBlockByNumber env n s
  end.

Definition getLatestBlock (env : Env) (s : ForkBlockchain) : Result Block * ForkBlockchain :=
  getBlock env (OfNumber (_latestBlockNumber s)) s.

Definition putBlock (block : Block) (s : ForkBlockchain) : Result Block * ForkBlockchain :=
  if negb (number (header block) =? _latestBlockNumber s + 1)
  then (Err InvalidBlockNumber, s)
  else
    (Ok block,
     {| _blocksByNumber := <[number (header block) := block]> (_blocksByNumber s);
        _blocksByHash := <[hash block := block]> (_blocksByHash s);
        _latestBlockNumber := _latestBlockNumber s + 1;
        rpcLog := rpcLog s |}).

End Legacy.

(** What the first revision would keep of a store of the present one. *)
Definition forget (s : ForkBlockchain) : Legacy.ForkBlockchain :=
  {| Legacy._blocksByNumber := _blocksByNumber s;
     Legacy._blocksByHash := _blocksByHash s;
     Legacy._latestBlockNumber := _latestBlockNumber s;
     Legacy.rpcLog := rpcLog s |}.

(** * Properties *)

(** ** Elementary facts *)

Arguments delete_all : simpl never.
Arguments insert_txs : simpl never.
Arguments bind_txs : simpl never.

Section MapFacts.
Context {K V : Type} `{Countable K}.

Lemma lookup_delete_all (ks : list K) (m : gmap K V) (k : K) :
  delete_all ks m !! k = if decide (k ∈ ks) then None else m !! k.
Proof.
  unfold delete_all. revert m. induction ks as [|a ks IH]; intros m; cbn [foldl].
  - rewrite decide_False; [reflexivity | apply not_elem_of_nil].
  - rewrite IH. destruct (decide (k ∈ ks)) as [Hin|Hnin].
    + rewrite decide_True; [reflexivity | now right].
    + destruct (decide (a = k)) as [->|Hne].
      * rewrite decide_True; [apply lookup_delete_eq | left].
      * rewrite lookup_delete_ne by assumption.
        rewrite decide_False; [reflexivity|].
        intros Hc. apply elem_of_cons in Hc as [->|]; tauto.
Qed.

Lemma lookup_delete_all_in (ks : list K) (m : gmap K V) (k : K) :
  k ∈ ks -> delete_all ks m !! k = None.
Proof. intros Hin. rewrite lookup_delete_all. now rewrite decide_True. Qed.

Lemma lookup_delete_all_notin (ks : list K) (m : gmap K V) (k : K) :
  k ∉ ks -> delete_all ks m !! k = m !! k.
Proof. intros Hin. rewrite lookup_delete_all. now rewrite decide_False. Qed.

End MapFacts.

Lemma lookup_insert_txs_notin txs m h :
  h ∉ map tx_hash txs -> insert_txs txs m !! h = m !! h.
Proof.
  unfold insert_txs. revert m.
  induction txs as [|t txs IH]; intros m Hn; cbn [foldl map] in *; [reflexivity|].
  apply not_elem_of_cons in Hn as [Hne Hn].
  rewrite IH by assumption.
  now rewrite lookup_insert_ne by congruence.
Qed.

Lemma lookup_insert_txs_in txs m h :
  h ∈ map tx_hash txs ->
  exists t, t ∈ txs /\ tx_hash t = h /\ insert_txs txs m !! h = Some t.
Proof.
  revert m. induction txs as [|t txs IH]; intros m Hin; cbn [map] in *.
  - inversion Hin.
  - destruct (decide (h ∈ map tx_hash txs)) as [Hl|Hl].
    + destruct (IH (<[tx_hash t := t]> m) Hl) as (t' & Ht' & Hh & Hlk).
      exists t'. split; [now right|]. split; [assumption|]. exact Hlk.
    + apply elem_of_cons in Hin as [->|]; [|tauto].
      exists t. split; [left|]. split; [reflexivity|].
      change (insert_txs (t :: txs) m) with (insert_txs txs (<[tx_hash t := t]> m)).
      rewrite lookup_insert_txs_notin by assumption. apply lookup_insert_eq.
Qed.

Lemma lookup_bind_txs block txs m h :
  bind_txs block txs m !! h =
  if decide (h ∈ map tx_hash txs) then Some block else m !! h.
Proof.
  unfold bind_txs. revert m. induction txs as [|t txs IH]; intros m; cbn [foldl map].
  - rewrite decide_False; [reflexivity | apply not_elem_of_nil].
  - rewrite IH. destruct (decide (h ∈ map tx_hash txs)) as [Hin|Hnin].
    + rewrite decide_True; [reflexivity | now right].
    + destruct (decide (tx_hash t = h)) as [E|Hne].
      * rewrite decide_True; [|rewrite E; left]. rewrite E. apply lookup_insert_eq.
      * rewrite lookup_insert_ne by assumption.
        rewrite decide_False; [reflexivity|].
        intros Hc. apply elem_of_cons in Hc as [->|]; tauto.
Qed.

(** Deleting the keys just inserted gives the map back when they were fresh. *)
Lemma delete_all_insert_txs txs (m : gmap N Transaction) :
  (forall t, t ∈ txs -> m !! tx_hash t = None) ->
  delete_all (map tx_hash txs) (insert_txs txs m) = m.
Proof.
  intros Hfresh. apply map_eq. intros h. rewrite lookup_delete_all.
  case_decide as Hin.
  - apply list_elem_of_fmap in Hin as (t & -> & Ht). symmetry. now apply Hfresh.
  - now apply lookup_insert_txs_notin.
Qed.

Lemma delete_all_bind_txs block txs (m : gmap N Block) :
  (forall t, t ∈ txs -> m !! tx_hash t = None) ->
  delete_all (map tx_hash txs) (bind_txs block txs m) = m.
Proof.
  intros Hfresh. apply map_eq. intros h. rewrite lookup_delete_all, lookup_bind_txs.
  case_decide as Hin; [|reflexivity].
  apply list_elem_of_fmap in Hin as (t & -> & Ht). symmetry. now apply Hfresh.
Qed.

Lemma forEach_index block txs s :
  forEach txs (fun transaction =>
    modify (set_transactions <[tx_hash transaction := transaction]>) ;;
    modify (set_transactionToBlock <[tx_hash transaction := block]>)) s =
  (Ok tt, set_transactions (insert_txs txs) (set_transactionToBlock (bind_txs block txs) s)).
Proof.
  revert s. induction txs as [|t txs IH]; intros s.
  - destruct s; reflexivity.
  - cbn [forEach]. unfold bind at 1. unfold bind at 1. unfold modify at 1 2.
    rewrite IH. destruct s; reflexivity.
Qed.

Lemma forEach_drop txs s :
  forEach txs (fun transaction =>
    modify (set_transactions (delete (tx_hash transaction))) ;;
    modify (set_transactionToBlock (delete (tx_hash transaction)))) s =
  (Ok tt, set_transactions (delete_all (map tx_hash txs))
            (set_transactionToBlock (delete_all (map tx_hash txs)) s)).
Proof.
  revert s. induction txs as [|t txs IH]; intros s.
  - destruct s; reflexivity.
  - cbn [forEach]. unfold bind at 1. unfold bind at 1. unfold modify at 1 2.
    rewrite IH. destruct s; reflexivity.
Qed.

Lemma processTransactions_run block s :
  _processTransactions block s = (Ok tt, index_transactions block s).
Proof. apply forEach_index. Qed.

Lemma processRemoteBlock_run env rpcBlock s :
  _processRemoteBlock env rpcBlock s =
  match accepted env rpcBlock with
  | Some (n, h, r) =>
    (Ok (newBlock env r), install_block n h (rpc_totalDifficulty r) (newBlock env r) s)
  | None => (Err BlockNotFound, s)
  end.
Proof.
  unfold _processRemoteBlock, accepted.
  destruct rpcBlock as [r|]; [|reflexivity].
  destruct (rpc_hash r) as [h|]; [|reflexivity].
  destruct (rpc_number r) as [n|]; [|reflexivity].
  destruct (n >? _forkBlockNumber env); [reflexivity|].
  unfold bind at 1 2 3 4. unfold modify at 1 2 3.
  rewrite processTransactions_run. reflexivity.
Qed.

(** [getBlock], case by case. *)
Lemma getBlock_run env key s :
  getBlock env key s =
  if beyond_latest key s then (Err BlockNotFound, s)
  else match cached key s with
       | Some block => (Ok block, s)
       | None =>
         match answer env key with
         | Rejected => (Err UpstreamError, log_call (request key) s)
         | Resolved rpcBlock =>
           match accepted env rpcBlock with
           | Some (n, h, r) =>
             (Ok (newBlock env r),
              install_block n h (rpc_totalDifficulty r) (newBlock env r)
                            (log_call (request key) s))
           | None => (Err BlockNotFound, log_call (request key) s)
           end
         end
       end.
Proof.
  destruct key as [h|n]; cbn [getBlock beyond_latest cached answer request].
  - unfold _getBlockByHash. unfold bind at 1, gets at 1.
    destruct (_blocksByHash s !! h) as [b|]; [reflexivity|].
    unfold bind at 1, await, bind at 1, modify at 1.
    destruct (getBlockByHash (_jsonRpcClient env) h) as [o|]; [|reflexivity].
    cbn [ret]. apply processRemoteBlock_run.
  - unfold _getBlockByNumber. unfold bind at 1, gets at 1.
    destruct (n >? _latestBlockNumber s); [reflexivity|].
    unfold bind at 1, gets at 1.
    destruct (_blocksByNumber s !! n) as [b|]; [reflexivity|].
    unfold bind at 1, await, bind at 1, modify at 1.
    destruct (getBlockByNumber (_jsonRpcClient env) n) as [o|]; [|reflexivity].
    cbn [ret]. apply processRemoteBlock_run.
Qed.

Lemma getLatestBlock_run env s :
  getLatestBlock env s = getBlock env (OfNumber (_latestBlockNumber s)) s.
Proof. reflexivity. Qed.

Lemma install_block_latest n h td b s :
  _latestBlockNumber (install_block n h td b s) = _latestBlockNumber s.
Proof. reflexivity. Qed.

(** [getBlock] never moves the latest block number. *)
Lemma getBlock_latest env key s :
  _latestBlockNumber (snd (getBlock env key s)) = _latestBlockNumber s.
Proof.
  rewrite getBlock_run.
  destruct (beyond_latest key s); [reflexivity|].
  destruct (cached key s); [reflexivity|].
  destruct (answer env key) as [o|]; [|reflexivity].
  destruct (accepted env o) as [[[n h] r]|]; reflexivity.
Qed.

(** A cached key is answered from the store, which stays as it is. *)
Lemma getBlock_cached env key s b :
  beyond_latest key s = false -> cached key s = Some b ->
  getBlock env key s = (Ok b, s).
Proof. intros Hb Hc. rewrite getBlock_run, Hb, Hc. reflexivity. Qed.

(** ** [putBlock] *)

Lemma computeTotalDifficulty_genesis env block s :
  number (header block) = 0 ->
  _computeTotalDifficulty env block s = (Ok (difficulty (header block)), s).
Proof. intros E. unfold _computeTotalDifficulty. rewrite E. reflexivity. Qed.

Lemma computeTotalDifficulty_cached env block s p td :
  number (header block) <> 0 ->
  _blocksByNumber s !! (number (header block) - 1) = Some p ->
  _totalDifficultyByBlockHash s !! hash p = Some td ->
  _computeTotalDifficulty env block s = (Ok (td + difficulty (header block)), s).
Proof.
  intros Hn Hp Htd. unfold _computeTotalDifficulty.
  apply Z.eqb_neq in Hn. rewrite Hn.
  unfold bind at 1, gets at 1. rewrite Hp.
  unfold bind at 1, ret at 1. unfold bind, gets. rewrite Htd. reflexivity.
Qed.

(** The store of [putBlock] once both checks have passed, before the total
    difficulty is computed. *)
Lemma putBlock_run env block s :
  putBlock env block s =
  if negb (number (header block) =? _latestBlockNumber s + 1)
  then (Err InvalidBlockNumber, s)
  else match getLatestBlock env s with
       | (Err e, s1) => (Err e, s1)
       | (Ok parent, s1) =>
         if negb (parentHash (header block) =? hash parent)%N
         then (Err InvalidParentHash, s1)
         else
           match _computeTotalDifficulty env block
                   (set_blocksByHash <[hash block := block]>
                     (set_blocksByNumber <[number (header block) := block]>
                       (set_latestBlockNumber (_latestBlockNumber s1 + 1) s1))) with
           | (Err e, s3) => (Err e, s3)
           | (Ok td, s3) =>
             (Ok block,
              index_transactions block
                (set_totalDifficultyByBlockHash <[hash block := td]> s3))
           end
       end.
Proof.
  unfold putBlock. unfold bind at 1, gets at 1.
  destruct (negb (number (header block) =? _latestBlockNumber s + 1)); [reflexivity|].
  unfold bind at 1. destruct (getLatestBlock env s) as [[parent|e] s1]; [|reflexivity].
  destruct (negb (parentHash (header block) =? hash parent)%N); [reflexivity|].
  unfold bind at 1 2 3, modify at 1 2 3. unfold bind at 1.
  destruct (_computeTotalDifficulty _ _ _) as [[td|e] s3]; [|reflexivity].
  unfold bind at 1, modify at 1. unfold bind at 1.
  rewrite processTransactions_run. reflexivity.
Qed.

Lemma putBlock_ok env block s parent s1 parentTD :
  number (header block) = _latestBlockNumber s + 1 ->
  getLatestBlock env s = (Ok parent, s1) ->
  parentHash (header block) = hash parent ->
  _blocksByNumber s1 !! _latestBlockNumber s = Some parent ->
  _totalDifficultyByBlockHash s1 !! hash parent = Some parentTD ->
  putBlock env block s =
  (Ok block,
   install_block (_latestBlockNumber s + 1) (hash block)
     (if number (header block) =? 0 then difficulty (header block)
      else parentTD + difficulty (header block))
     block (set_latestBlockNumber (_latestBlockNumber s + 1) s1)).
Proof.
  intros Hn Hl Hp Hc Htd.
  assert (HL : _latestBlockNumber s1 = _latestBlockNumber s).
  { rewrite getLatestBlock_run in Hl.
    pose proof (getBlock_latest env (OfNumber (_latestBlockNumber s)) s) as H.
    now rewrite Hl in H. }
  rewrite putBlock_run.
  rewrite (proj2 (Z.eqb_eq _ _) Hn), Hl, (proj2 (N.eqb_eq _ _) Hp). cbn [negb].
  rewrite HL, <- Hn.
  destruct (number (header block) =? 0) eqn:E0.
  - apply Z.eqb_eq in E0.
    rewrite computeTotalDifficulty_genesis by exact E0.
    destruct s1; reflexivity.
  - apply Z.eqb_neq in E0.
    rewrite (computeTotalDifficulty_cached env block _ parent parentTD).
    + destruct s1; reflexivity.
    + exact E0.
    + cbn. rewrite lookup_insert_ne by lia.
      replace (number (header block) - 1) with (_latestBlockNumber s) by lia.
      exact Hc.
    + exact Htd.
Qed.

Lemma getBlock_errors env key s e s' :
  getBlock env key s = (Err e, s') -> e = BlockNotFound \/ e = UpstreamError.
Proof.
  rewrite getBlock_run.
  destruct (beyond_latest key s); [intros [= <- _]; now left|].
  destruct (cached key s); [discriminate|].
  destruct (answer env key) as [o|]; [|intros [= <- _]; now right].
  destruct (accepted env o) as [[[n h] r]|]; [discriminate|].
  intros [= <- _]; now left.
Qed.

Lemma computeTotalDifficulty_errors env block s e s' :
  _computeTotalDifficulty env block s = (Err e, s') ->
  e = BlockNotFound \/ e = UpstreamError \/ e = ThisShouldNeverHappen.
Proof.
  unfold _computeTotalDifficulty.
  destruct (number (header block) =? 0); [discriminate|].
  unfold bind at 1, gets at 1.
  destruct (_blocksByNumber s !! (number (header block) - 1)) as [p|].
  - unfold bind at 1, ret at 1. unfold bind, gets.
    destruct (_totalDifficultyByBlockHash s !! hash p); [discriminate|].
    intros [= <- _]. tauto.
  - unfold bind at 1.
    destruct (getBlock env _ s) as [[p|e1] s1] eqn:Eg.
    + unfold bind, gets.
      destruct (_totalDifficultyByBlockHash s1 !! hash p); [discriminate|].
      intros [= <- _]. tauto.
    + intros [= <- _]. apply getBlock_errors in Eg. tauto.
Qed.

Lemma lookup_install_transactions n h td block s t :
  t ∈ transactions block ->
  _transactionToBlock (install_block n h td block s) !! tx_hash t = Some block /\
  exists t', t' ∈ transactions block /\ tx_hash t' = tx_hash t /\
             _transactions (install_block n h td block s) !! tx_hash t = Some t'.
Proof.
  intros Ht.
  assert (Hin : tx_hash t ∈ map tx_hash (transactions block)).
  { apply list_elem_of_fmap. eauto. }
  split.
  - cbn. rewrite lookup_bind_txs. now rewrite decide_True.
  - cbn. apply lookup_insert_txs_in. exact Hin.
Qed.

(** ** Throwing and returning *)

Lemma raises_not_returns {A} (r : Result A) e : raises r e -> ~ returns r.
Proof. intros -> [a Ha]. discriminate. Qed.

(** ** Numbers *)

Lemma number_nonneg h : 0 <= number h.
Proof. unfold number. apply N2Z.is_nonneg. Qed.

(** [gten] where it is the comparison of the two numbers. *)
Lemma gten_exact this num :
  0 <= this < 2 ^ 26 -> 0 <= num <= 0x3ffffff ->
  gten this num = Ok (num <=? this).
Proof.
  intros Ht Hn. change (2 ^ 26) with 67108864 in Ht.
  unfold gten, cmpn. change (2 ^ 26) with 67108864.
  rewrite (proj2 (Z.ltb_ge this 0)) by lia.
  rewrite (proj2 (Z.ltb_ge num 0)) by lia.
  rewrite (proj2 (Z.leb_le 0 this)) by lia. cbn [andb negb].
  rewrite (proj2 (Z.leb_gt 67108864 (Z.abs this))) by lia.
  rewrite (proj2 (Z.ltb_ge 0x3ffffff num)) by lia.
  rewrite Z.abs_eq by lia. f_equal.
  destruct (Z.eqb_spec this num) as [->|Hne].
  - cbn. symmetry. apply Z.leb_le. lia.
  - destruct (Z.ltb_spec this num); cbn; symmetry;
      [apply Z.leb_gt | apply Z.leb_le]; lia.
Qed.

(** A [BN] of more than one word is at least any number. *)
Lemma gten_words this num :
  2 ^ 26 <= this -> 0 <= num -> gten this num = Ok true.
Proof.
  intros Ht Hn. change (2 ^ 26) with 67108864 in Ht.
  unfold gten, cmpn. change (2 ^ 26) with 67108864.
  rewrite (proj2 (Z.ltb_ge this 0)) by lia.
  rewrite (proj2 (Z.ltb_ge num 0)) by lia.
  rewrite (proj2 (Z.leb_le 0 this)) by lia. cbn [andb negb].
  rewrite (proj2 (Z.leb_le 67108864 (Z.abs this))) by lia.
  reflexivity.
Qed.

(** A [BN] of one word and a number of more than 26 bits: the assertion fails. *)
Lemma gten_assert this num :
  0 <= this < 2 ^ 26 -> 0x3ffffff < num -> gten this num = Err NumberIsTooBig.
Proof.
  intros Ht Hn. change (2 ^ 26) with 67108864 in Ht.
  unfold gten, cmpn. change (2 ^ 26) with 67108864.
  rewrite (proj2 (Z.ltb_ge this 0)) by lia.
  rewrite (proj2 (Z.ltb_ge num 0)) by lia.
  rewrite (proj2 (Z.leb_le 0 this)) by lia. cbn [andb negb].
  rewrite (proj2 (Z.leb_gt 67108864 (Z.abs this))) by lia.
  rewrite (proj2 (Z.ltb_lt 0x3ffffff num)) by lia.
  reflexivity.
Qed.

Lemma gten_negative this num :
  this < 0 -> 0 <= num -> gten this num = Ok false.
Proof.
  intros Ht Hn. unfold gten, cmpn.
  rewrite (proj2 (Z.ltb_lt this 0)) by lia.
  rewrite (proj2 (Z.ltb_ge num 0)) by lia.
  reflexivity.
Qed.

(** What an answer of [gten] to a number that is not negative says. *)
Lemma gten_inv this num b :
  0 <= num -> gten this num = Ok b ->
  if b then num <= this \/ 2 ^ 26 <= this else this < num.
Proof.
  intros Hn H.
  destruct (Z_lt_ge_dec this 0) as [Hneg|Hpos].
  { rewrite gten_negative in H by lia. injection H as <-. lia. }
  destruct (Z_lt_ge_dec this (2 ^ 26)) as [Hone|Hmany].
  2:{ rewrite gten_words in H by lia. injection H as <-. lia. }
  destruct (Z_le_gt_dec num 0x3ffffff) as [Hfit|Hbig].
  2:{ rewrite gten_assert in H by lia. discriminate. }
  rewrite gten_exact in H by lia. injection H as <-.
  destruct (Z.leb_spec num this); lia.
Qed.

(** The guard of [deleteAllFollowingBlocks]: a number the [BN] has reached
    is always found reached, a number it has not reached is found so as long
    as it fits one word. *)
Lemma gten_from this num :
  0 <= num <= this -> gten this num = Ok true.
Proof.
  intros H. destruct (Z_lt_ge_dec this (2 ^ 26)) as [Hone|Hmany].
  - change (2 ^ 26) with 67108864 in Hone.
    rewrite gten_exact by (change (2 ^ 26) with 67108864; lia).
    f_equal. apply Z.leb_le. lia.
  - apply gten_words; lia.
Qed.

Lemma gten_before this num :
  0 <= num <= 0x3ffffff -> this < num -> gten this num = Ok false.
Proof.
  intros H Hlt. destruct (Z_lt_ge_dec this 0) as [Hneg|Hpos].
  - apply gten_negative; lia.
  - rewrite gten_exact by (change (2 ^ 26) with 67108864; lia).
    f_equal. apply Z.leb_gt. lia.
Qed.

(** ** [_delBlock] *)

(** One turn of the loop, or its end. *)
Lemma delBlock_loop_eq i s :
  _delBlock_loop i s =
  match gten (_latestBlockNumber s) i with
  | Err e => (Err e, s)
  | Ok false => (Ok tt, s)
  | Ok true =>
    match _delBlock_body i s with
    | (Err e, s') => (Err e, s')
    | (Ok _, s') => _delBlock_loop (i + 1) s'
    end
  end.
Proof.
  rewrite _delBlock_loop_equation_1. unfold _delBlock_loop_unfold_clause_1.
  destruct (gten (_latestBlockNumber s) i) as [[|]|e]; try reflexivity.
  unfold _delBlock_loop_unfold_clause_1_clause_3, inspect.
  destruct (_delBlock_body i s) as [[u|e] s']; reflexivity.
Qed.

Lemma delBlock_body_run i c s :
  _blocksByNumber s !! i = Some c ->
  _delBlock_body i s = (Ok tt, drop_block i c s).
Proof.
  intros Hc. unfold _delBlock_body.
  unfold bind at 1, gets at 1. rewrite Hc.
  unfold bind at 1 2 3, modify at 1 2 3.
  rewrite forEach_drop. reflexivity.
Qed.

Lemma delBlock_body_missing i s :
  _blocksByNumber s !! i = None ->
  _delBlock_body i s = (Err ThisShouldNeverHappen, s).
Proof.
  intros Hc. unfold _delBlock_body.
  unfold bind at 1, gets at 1. now rewrite Hc.
Qed.

Lemma stored_at_drop_block i c s l :
  i ∉ l -> stored_at (drop_block i c s) l = stored_at s l.
Proof.
  intros Hi. unfold stored_at. induction l as [|j l IH]; [reflexivity|].
  apply not_elem_of_cons in Hi as [Hne Hi]. cbn [omap list_omap].
  change (_blocksByNumber (drop_block i c s)) with (delete i (_blocksByNumber s)).
  rewrite lookup_delete_ne by congruence.
  destruct (_blocksByNumber s !! j); [f_equal|]; now apply IH.
Qed.

(** The loop of [_delBlock] over numbers that are all in [_blocksByNumber]. *)
Lemma delBlock_loop l s :
  NoDup l ->
  (forall i, i ∈ l -> is_Some (_blocksByNumber s !! i)) ->
  forEach l _delBlock_body s = (Ok tt, drop_blocks l (stored_at s l) s).
Proof.
  revert s. induction l as [|i l IH]; intros s Hnd Hall.
  - destruct s; reflexivity.
  - apply NoDup_cons in Hnd as [Hi Hnd].
    destruct (Hall i) as [c Hc]; [left|].
    cbn [forEach]. unfold bind at 1. rewrite (delBlock_body_run i c s Hc).
    rewrite IH; [|exact Hnd|].
    + rewrite stored_at_drop_block by exact Hi.
      unfold stored_at at 2. cbn [omap list_omap]. rewrite Hc.
      fold (stored_at s l). f_equal.
      unfold drop_blocks, drop_block, drop_transactions. cbn.
      unfold delete_all. rewrite !foldl_app. reflexivity.
    + intros j Hj.
      change (_blocksByNumber (drop_block i c s)) with (delete i (_blocksByNumber s)).
      rewrite lookup_delete_ne; [apply Hall; now right|].
      intros ->. contradiction.
Qed.

Lemma drop_blocks_nil s : drop_blocks [] [] s = s.
Proof. destruct s; reflexivity. Qed.

(** The store after a turn at [i] and the turns at [l]. *)
Lemma drop_blocks_cons i c l s :
  _blocksByNumber s !! i = Some c ->
  i ∉ l ->
  drop_blocks l (stored_at (drop_block i c s) l) (drop_block i c s)
  = drop_blocks (i :: l) (stored_at s (i :: l)) s.
Proof.
  intros Hc Hi. rewrite stored_at_drop_block by exact Hi.
  unfold stored_at at 2. cbn [omap list_omap]. rewrite Hc.
  fold (stored_at s l).
  unfold drop_blocks, drop_block, drop_transactions. cbn.
  unfold delete_all. rewrite !foldl_app. reflexivity.
Qed.

(** The loop of [_delBlock] makes [k] turns when the numbers they are made
    for pass the test and are in [_blocksByNumber]. *)
Lemma delBlock_loop_turns (k : nat) n s :
  (forall j, n <= j < n + Z.of_nat k ->
     gten (_latestBlockNumber s) j = Ok true /\ is_Some (_blocksByNumber s !! j)) ->
  _delBlock_loop n s
  = _delBlock_loop (n + Z.of_nat k)
      (drop_blocks (seqZ n (Z.of_nat k)) (stored_at s (seqZ n (Z.of_nat k))) s).
Proof.
  revert n s. induction k as [|k IH]; intros n s Hall.
  - change (seqZ n (Z.of_nat 0)) with (@nil Z).
    change (stored_at s []) with (@nil Block).
    rewrite drop_blocks_nil. f_equal. lia.
  - destruct (Hall n) as [Ht [c Hc]]; [lia|].
    rewrite delBlock_loop_eq, Ht, (delBlock_body_run n c s Hc).
    rewrite IH.
    + replace (n + 1 + Z.of_nat k) with (n + Z.of_nat (S k)) by lia. f_equal.
      rewrite (seqZ_cons n (Z.of_nat (S k))) by lia.
      replace (Z.pred (Z.of_nat (S k))) with (Z.of_nat k) by lia.
      replace (Z.succ n) with (n + 1) by lia.
      apply drop_blocks_cons; [exact Hc|].
      rewrite elem_of_seqZ. lia.
    + intros j Hj.
      change (_latestBlockNumber (drop_block n c s)) with (_latestBlockNumber s).
      change (_blocksByNumber (drop_block n c s)) with (delete n (_blocksByNumber s)).
      rewrite lookup_delete_ne by lia. apply Hall. lia.
Qed.

(** The loop returns: below [2^26 - 1] the test is the comparison. *)
Lemma delBlock_loop_exact n s :
  0 <= n <= _latestBlockNumber s + 1 ->
  _latestBlockNumber s <= 2 ^ 26 - 2 ->
  (forall i, n <= i <= _latestBlockNumber s -> is_Some (_blocksByNumber s !! i)) ->
  _delBlock_loop n s = (Ok tt, trim_at n s).
Proof.
  intros Hn HL Hall. change (2 ^ 26 - 2) with 67108862 in HL.
  set (k := Z.to_nat (_latestBlockNumber s - n + 1)).
  assert (Hk : Z.of_nat k = _latestBlockNumber s - n + 1) by (unfold k; lia).
  rewrite (delBlock_loop_turns k).
  - rewrite Hk. unfold trim_at.
    set (s' := drop_blocks _ _ s).
    rewrite delBlock_loop_eq.
    change (_latestBlockNumber s') with (_latestBlockNumber s).
    replace (n + (_latestBlockNumber s - n + 1)) with (_latestBlockNumber s + 1) by lia.
    destruct (Z_lt_ge_dec (_latestBlockNumber s) 0) as [Hneg|Hpos].
    + now rewrite gten_negative by lia.
    + rewrite gten_exact by (change (2 ^ 26) with 67108864; lia).
      now rewrite (proj2 (Z.leb_gt _ _)) by lia.
  - intros j Hj. split; [|apply Hall; lia].
    rewrite gten_exact by (change (2 ^ 26) with 67108864; lia).
    f_equal. apply Z.leb_le. lia.
Qed.

(** The loop throws at [m], after the turns from [n] on: the test throws
    there, or it passes and nothing is stored there. *)
Lemma delBlock_loop_throws n m s e :
  n <= m ->
  (forall j, n <= j < m ->
     gten (_latestBlockNumber s) j = Ok true /\ is_Some (_blocksByNumber s !! j)) ->
  gten (_latestBlockNumber s) m = Err e \/
  gten (_latestBlockNumber s) m = Ok true /\ _blocksByNumber s !! m = None /\
  e = ThisShouldNeverHappen ->
  _delBlock_loop n s
  = (Err e, drop_blocks (seqZ n (m - n)) (stored_at s (seqZ n (m - n))) s).
Proof.
  intros Hnm Hall Hm.
  set (k := Z.to_nat (m - n)).
  assert (Hk : Z.of_nat k = m - n) by (unfold k; lia).
  rewrite (delBlock_loop_turns k) by (intros j Hj; apply Hall; lia).
  rewrite Hk. set (s' := drop_blocks _ _ s).
  replace (n + (m - n)) with m by lia.
  rewrite delBlock_loop_eq.
  change (_latestBlockNumber s') with (_latestBlockNumber s).
  destruct Hm as [-> | (-> & Hnone & ->)]; [reflexivity|].
  rewrite delBlock_body_missing; [reflexivity|].
  unfold s'. cbn. rewrite lookup_delete_all_notin; [exact Hnone|].
  rewrite elem_of_seqZ. lia.
Qed.

Lemma delBlock_unknown env h s :
  _blocksByHash s !! h = None -> _delBlock env h s = (Err BlockNotFound, s).
Proof. intros H. unfold _delBlock, bind at 1, gets at 1. now rewrite H. Qed.

Lemma delBlock_remote env h s b :
  _blocksByHash s !! h = Some b ->
  number (header b) <= _forkBlockNumber env ->
  _delBlock env h s = (Err CannotDeleteRemote, s).
Proof.
  intros H Hle. unfold _delBlock, bind at 1, gets at 1. rewrite H.
  now rewrite (proj2 (Z.leb_le _ _) Hle).
Qed.

(** [_delBlock] once the block is found above the fork block number. *)
Lemma delBlock_run env h s b :
  _blocksByHash s !! h = Some b ->
  _forkBlockNumber env < number (header b) ->
  _delBlock env h s =
  match _delBlock_loop (number (header b)) s with
  | (Ok _, s') => (Ok tt, set_latestBlockNumber (number (header b) - 1) s')
  | (Err e, s') => (Err e, s')
  end.
Proof.
  intros H Hlt. unfold _delBlock, bind at 1, gets at 1. rewrite H.
  replace (number (header b) <=? _forkBlockNumber env) with false
    by (symmetry; apply Z.leb_gt; lia).
  unfold bind at 1.
  destruct (_delBlock_loop (number (header b)) s) as [[u|e] s']; reflexivity.
Qed.

Lemma delBlock_ok env h s b :
  _blocksByHash s !! h = Some b ->
  _forkBlockNumber env < number (header b) ->
  number (header b) <= _latestBlockNumber s + 1 ->
  _latestBlockNumber s <= 2 ^ 26 - 2 ->
  (forall i, number (header b) <= i <= _latestBlockNumber s ->
             is_Some (_blocksByNumber s !! i)) ->
  _delBlock env h s = (Ok tt, cut_at (number (header b)) s).
Proof.
  intros H Hlt Hle HL Hall. rewrite (delBlock_run env h s b H Hlt).
  rewrite delBlock_loop_exact; [reflexivity| |exact HL|exact Hall].
  pose proof (number_nonneg (header b)). lia.
Qed.

Lemma elem_of_stored_at s l c :
  c ∈ stored_at s l <-> exists i, i ∈ l /\ _blocksByNumber s !! i = Some c.
Proof. unfold stored_at. apply list_elem_of_omap. Qed.

Lemma elem_of_concat {A} (x : A) (ls : list (list A)) :
  x ∈ concat ls <-> exists l, x ∈ l /\ l ∈ ls.
Proof.
  induction ls as [|l ls IH]; cbn [concat].
  - split; [intros H; inversion H | intros (l & _ & H); inversion H].
  - rewrite elem_of_app, IH. split.
    + intros [H|(l' & H1 & H2)]; [exists l; split; [exact H | left]|].
      exists l'. split; [exact H1 | now right].
    + intros (l' & H1 & H2). apply elem_of_cons in H2 as [->|H2]; [now left|].
      right. eauto.
Qed.

Lemma cut_at_removed n s : removed_from n s (cut_at n s).
Proof.
  set (l := seqZ n (_latestBlockNumber s - n + 1)).
  assert (Hl : forall i, i ∈ l <-> n <= i <= _latestBlockNumber s).
  { intros i. unfold l. rewrite elem_of_seqZ. lia. }
  assert (Hh : forall h, h ∈ map hash (stored_at s l) <->
             exists i c, n <= i <= _latestBlockNumber s /\
                         _blocksByNumber s !! i = Some c /\ hash c = h).
  { intros h. rewrite list_elem_of_fmap. split.
    - intros (c & -> & Hc). apply elem_of_stored_at in Hc as (i & Hi & Hc).
      exists i, c. rewrite <- Hl. auto.
    - intros (i & c & Hi & Hc & <-). exists c. split; [reflexivity|].
      apply elem_of_stored_at. exists i. rewrite Hl. auto. }
  assert (Ht : forall h, h ∈ concat (map tx_hashes (stored_at s l)) <->
             exists i c t, n <= i <= _latestBlockNumber s /\
                           _blocksByNumber s !! i = Some c /\
                           t ∈ transactions c /\ tx_hash t = h).
  { intros h. rewrite elem_of_concat. split.
    - intros (ths & Hin & Hths). apply list_elem_of_fmap in Hths as (c & -> & Hc).
      apply elem_of_stored_at in Hc as (i & Hi & Hc).
      apply list_elem_of_fmap in Hin as (t & -> & Ht).
      exists i, c, t. rewrite <- Hl. auto.
    - intros (i & c & t & Hi & Hc & Ht & <-). exists (tx_hashes c). split.
      + apply list_elem_of_fmap. eauto.
      + apply list_elem_of_fmap. exists c. split; [reflexivity|].
        apply elem_of_stored_at. exists i. rewrite Hl. auto. }
  unfold removed_from, cut_at. fold l. cbn.
  split; [reflexivity|]. split; [reflexivity|]. split; [|split; [|split]].
  - intros i c Hi Hc.
    assert (Hhc : hash c ∈ map hash (stored_at s l)) by (apply Hh; eauto).
    split; [apply lookup_delete_all_in, Hl, Hi|].
    split; [apply lookup_delete_all_in, Hhc|].
    split; [apply lookup_delete_all_in, Hhc|].
    intros t Hin.
    assert (Htc : tx_hash t ∈ concat (map tx_hashes (stored_at s l))).
    { apply Ht. exists i, c, t. auto. }
    split; apply lookup_delete_all_in, Htc.
  - intros i Hi. apply lookup_delete_all_notin. now rewrite Hl.
  - intros h Hfresh.
    assert (Hn : h ∉ map hash (stored_at s l)).
    { rewrite Hh. intros (i & c & Hi & Hc & E). exact (Hfresh i c Hi Hc E). }
    split; apply lookup_delete_all_notin, Hn.
  - intros h Hfresh.
    assert (Hn : h ∉ concat (map tx_hashes (stored_at s l))).
    { rewrite Ht. intros (i & c & t & Hi & Hc & Hin & E).
      exact (Hfresh i c t Hi Hc Hin E). }
    split; apply lookup_delete_all_notin, Hn.
Qed.

(** The numbers cut off are gone, stored or not. *)
Lemma cut_at_range n s i :
  n <= i <= _latestBlockNumber s -> _blocksByNumber (cut_at n s) !! i = None.
Proof.
  intros Hi. unfold cut_at. cbn. apply lookup_delete_all_in.
  rewrite elem_of_seqZ. lia.
Qed.

Lemma trim_at_cut n s :
  trim_at n s = set_latestBlockNumber (_latestBlockNumber s) (cut_at n s).
Proof. reflexivity. Qed.

Lemma delete_all_absent {K V} `{Countable K} (ks : list K) (m : gmap K V) :
  (forall k, k ∈ ks -> m !! k = None) -> delete_all ks m = m.
Proof.
  revert m. induction ks as [|k ks IH]; intros m Hm; [reflexivity|].
  change (delete_all (k :: ks) m) with (delete_all ks (delete k m)).
  rewrite delete_id by (apply Hm; left). apply IH. intros k' Hk'. apply Hm. now right.
Qed.

(** The turns up to a number from which on nothing is stored remove all
    there is to remove. *)
Lemma drop_blocks_gap n m s :
  n <= m <= _latestBlockNumber s + 1 ->
  (forall i, m <= i <= _latestBlockNumber s -> _blocksByNumber s !! i = None) ->
  drop_blocks (seqZ n (m - n)) (stored_at s (seqZ n (m - n))) s = trim_at n s.
Proof.
  intros Hm Hgap. unfold trim_at.
  replace (_latestBlockNumber s - n + 1) with ((m - n) + (_latestBlockNumber s - m + 1))
    by lia.
  rewrite seqZ_app by lia. replace (n + (m - n)) with m by lia.
  set (l1 := seqZ n (m - n)). set (l2 := seqZ m (_latestBlockNumber s - m + 1)).
  assert (Hl2 : forall i, i ∈ l2 -> _blocksByNumber s !! i = None).
  { intros i Hi. unfold l2 in Hi. apply elem_of_seqZ in Hi. apply Hgap. lia. }
  assert (Hst : stored_at s l2 = []).
  { apply elem_of_nil_inv. intros c Hc.
    apply elem_of_stored_at in Hc as (i & Hi & Hci).
    rewrite (Hl2 i Hi) in Hci. discriminate. }
  unfold stored_at at 2. rewrite omap_app. fold (stored_at s l1) (stored_at s l2).
  rewrite Hst, app_nil_r. unfold drop_blocks. f_equal.
  unfold delete_all at 2. rewrite foldl_app.
  fold (delete_all l1 (_blocksByNumber s)).
  fold (delete_all l2 (delete_all l1 (_blocksByNumber s))).
  symmetry. apply delete_all_absent. intros k Hk.
  rewrite lookup_delete_all. case_decide; [reflexivity | now apply Hl2].
Qed.

(** From [n] on the numbers are stored up to a first one that is not, within
    [k] numbers. *)
Lemma stored_run s n (k : nat) :
  exists m, n <= m <= n + Z.of_nat k /\
    (forall j, n <= j < m -> is_Some (_blocksByNumber s !! j)) /\
    (m < n + Z.of_nat k -> _blocksByNumber s !! m = None).
Proof.
  induction k as [|k (m & Hm & Hrun & Hgap)].
  - exists n. split; [lia|]. split; [intros j Hj; lia | lia].
  - destruct (Z_lt_ge_dec m (n + Z.of_nat k)) as [Hlt|Hge].
    + exists m. split; [lia|]. split; [exact Hrun | auto].
    + destruct (_blocksByNumber s !! m) as [c|] eqn:Hc.
      * exists (m + 1). split; [lia|]. split; [|lia].
        intros j Hj. destruct (Z.eq_dec j m) as [->|Hne]; [eauto|]. apply Hrun. lia.
      * exists m. split; [lia|]. split; [exact Hrun | auto].
Qed.

(** ** [putBlock] followed by [delBlock] *)

Lemma delete_all_singleton {K V} `{Countable K} (k : K) (m : gmap K V) :
  delete_all [k] m = delete k m.
Proof. reflexivity. Qed.

(** Cutting at [n] a store whose only block from [n] on is a freshly
    installed one gives the store before the installation. *)
Lemma cut_at_install n td block s :
  _latestBlockNumber s = n - 1 ->
  _blocksByNumber s !! n = None ->
  _blocksByHash s !! hash block = None ->
  _totalDifficultyByBlockHash s !! hash block = None ->
  (forall t, t ∈ transactions block ->
     _transactions s !! tx_hash t = None /\ _transactionToBlock s !! tx_hash t = None) ->
  cut_at n (install_block n (hash block) td block (set_latestBlockNumber n s)) = s.
Proof.
  intros HL Hn Hh Htd Htx. unfold cut_at.
  change (_latestBlockNumber (install_block n (hash block) td block
            (set_latestBlockNumber n s))) with n.
  replace (n - n + 1) with 1 by lia. change (seqZ n 1) with [n].
  assert (Hst : stored_at (install_block n (hash block) td block
                  (set_latestBlockNumber n s)) [n] = [block]).
  { unfold stored_at. cbn [omap list_omap].
    change (_blocksByNumber (install_block n (hash block) td block
              (set_latestBlockNumber n s))) with (<[n := block]> (_blocksByNumber s)).
    now rewrite lookup_insert_eq. }
  rewrite Hst. unfold drop_blocks, set_latestBlockNumber. cbn.
  rewrite app_nil_r, !delete_all_singleton.
  rewrite !delete_insert_id by assumption.
  unfold tx_hashes.
  rewrite delete_all_insert_txs by (intros t Ht; apply (Htx t Ht)).
  rewrite delete_all_bind_txs by (intros t Ht; apply (Htx t Ht)).
  rewrite <- HL. destruct s; reflexivity.
Qed.

(** [putBlock] then [delBlock] of the same block, in any store whose latest
    number is below [2^26 - 2]: when the keys of the block are absent from the
    store [getLatestBlock] leaves, that store comes back. *)
Lemma append_then_delete_fresh env (block parent : Block) (s s1 s2 : ForkBlockchain) :
  _forkBlockNumber env <= _latestBlockNumber s ->
  _latestBlockNumber s + 1 <= 2 ^ 26 - 2 ->
  getLatestBlock env s = (Ok parent, s1) ->
  _blocksByNumber s1 !! _latestBlockNumber s = Some parent ->
  putBlock env block s = (Ok block, s2) ->
  _blocksByNumber s1 !! number (header block) = None ->
  _blocksByHash s1 !! hash block = None ->
  _totalDifficultyByBlockHash s1 !! hash block = None ->
  (forall t, t ∈ transactions block ->
     _transactions s1 !! tx_hash t = None /\
     _transactionToBlock s1 !! tx_hash t = None) ->
  delBlock env (hash block) s2 = (Ok tt, s1) /\
  _latestBlockNumber s1 = _latestBlockNumber s /\
  (is_Some (_blocksByNumber s !! _latestBlockNumber s) -> s1 = s).
Proof.
  intros HF Hbound Hl Hc Hput Hn Hh Htd Htx.
  assert (HL : _latestBlockNumber s1 = _latestBlockNumber s).
  { rewrite getLatestBlock_run in Hl.
    pose proof (getBlock_latest env (OfNumber (_latestBlockNumber s)) s) as H.
    now rewrite Hl in H. }
  assert (Hs : is_Some (_blocksByNumber s !! _latestBlockNumber s) -> s1 = s).
  { intros [p Hp]. rewrite getLatestBlock_run in Hl.
    rewrite (getBlock_cached env _ s p) in Hl; [congruence| |exact Hp].
    cbn. rewrite Z.gtb_ltb. apply Z.ltb_irrefl. }
  split; [|split; assumption].
  (* the store after the append *)
  assert (Hnum : number (header block) = _latestBlockNumber s + 1).
  { rewrite putBlock_run in Hput.
    destruct (number (header block) =? _latestBlockNumber s + 1) eqn:E;
      [now apply Z.eqb_eq in E | discriminate]. }
  assert (Hs2 : exists td,
    s2 = install_block (number (header block)) (hash block) td block
           (set_latestBlockNumber (number (header block)) s1)).
  { rewrite putBlock_run in Hput.
    rewrite (proj2 (Z.eqb_eq _ _) Hnum), Hl in Hput. cbn [negb] in Hput.
    destruct (negb (parentHash (header block) =? hash parent)%N); [discriminate|].
    rewrite HL, <- Hnum in Hput.
    destruct (_computeTotalDifficulty _ _ _) as [[td|e] s3] eqn:Ec; [|discriminate].
    injection Hput as <-. exists td.
    assert (Es3 : s3 = set_blocksByHash <[hash block := block]>
                    (set_blocksByNumber <[number (header block) := block]>
                      (set_latestBlockNumber (number (header block)) s1))).
    { destruct (Z.eq_dec (number (header block)) 0) as [E0|E0].
      - rewrite computeTotalDifficulty_genesis in Ec by exact E0. congruence.
      - unfold _computeTotalDifficulty in Ec.
        rewrite (proj2 (Z.eqb_neq _ _) E0) in Ec.
        unfold bind at 1, gets at 1 in Ec. cbn [_blocksByNumber set_blocksByHash
          set_blocksByNumber set_latestBlockNumber] in Ec.
        rewrite lookup_insert_ne in Ec by lia.
        replace (number (header block) - 1) with (_latestBlockNumber s) in Ec by lia.
        rewrite Hc in Ec. unfold bind at 1, ret at 1 in Ec.
        unfold bind, gets in Ec.
        destruct (_totalDifficultyByBlockHash _ !! hash parent); [|discriminate].
        unfold ret in Ec. congruence. }
    rewrite Es3. destruct s1; reflexivity. }
  destruct Hs2 as [td ->]. unfold delBlock.
  rewrite (delBlock_ok env (hash block) _ block).
  - f_equal. apply cut_at_install; try assumption. lia.
  - cbn. apply lookup_insert_eq.
  - lia.
  - rewrite install_block_latest. cbn. lia.
  - rewrite install_block_latest. cbn. lia.
  - intros i Hi. rewrite install_block_latest in Hi. cbn in Hi.
    replace i with (number (header block)) by lia.
    cbn. rewrite lookup_insert_eq. eauto.
Qed.

(** ** The stores of a run are consistent *)

Lemma accepted_inv env o n h r :
  accepted env o = Some (n, h, r) ->
  o = Some r /\ rpc_hash r = Some h /\ rpc_number r = Some n /\
  n <= _forkBlockNumber env.
Proof.
  unfold accepted. destruct o as [r0|]; [|discriminate].
  destruct (rpc_hash r0) as [h0|] eqn:Eh; [|discriminate].
  destruct (rpc_number r0) as [n0|] eqn:En; [|discriminate].
  destruct (n0 >? _forkBlockNumber env) eqn:E; [discriminate|].
  intros [= <- <- <-]. repeat split; try assumption.
  rewrite Z.gtb_ltb in E. apply Z.ltb_ge in E. exact E.
Qed.

Lemma served_below env key r n h :
  served env key r n h -> n <= _forkBlockNumber env.
Proof. intros [_ Ha]. now apply accepted_inv in Ha. Qed.

Section Consistency.

Variable env : Env.
Variable minted : Block -> Prop.
Hypothesis Hsound : sound env minted.

Lemma served_known key r n h :
  served env key r n h -> known env minted (newBlock env r).
Proof. intros Hs. right. exists key, r, n, h. auto. Qed.

(** Two known blocks stored under different numbers have different hashes. *)
Lemma stored_hash_apart s n b n' b' :
  consistent env minted s ->
  _blocksByNumber s !! n = Some b ->
  _blocksByNumber s !! n' = Some b' ->
  n <> n' -> hash b <> hash b'.
Proof.
  intros Hc Hb Hb' Hne Hh.
  destruct (consistent_byNumber _ _ _ Hc n b Hb) as (Hn & Hk & _).
  destruct (consistent_byNumber _ _ _ Hc n' b' Hb') as (Hn' & Hk' & _).
  assert (b = b') by (eapply sound_hash; eauto). subst b'. congruence.
Qed.

(** Below [2^26 - 1] every number above the fork block number up to the
    latest one is stored. *)
Lemma consistent_suffix s :
  consistent env minted s ->
  _latestBlockNumber s < 2 ^ 26 - 1 ->
  forall i, _forkBlockNumber env < i <= _latestBlockNumber s ->
            is_Some (_blocksByNumber s !! i).
Proof.
  intros Hc HL i Hi.
  apply (consistent_closed _ _ _ Hc (_latestBlockNumber s) i); [lia|].
  apply (consistent_tip _ _ _ Hc); lia.
Qed.

(** Nothing is stored above a number that is not stored. *)
Lemma consistent_gap s m i :
  consistent env minted s ->
  _forkBlockNumber env < m <= i ->
  _blocksByNumber s !! m = None -> _blocksByNumber s !! i = None.
Proof.
  intros Hc Hm Hnone.
  destruct (_blocksByNumber s !! i) as [c|] eqn:Hi; [|reflexivity].
  destruct (consistent_closed _ _ _ Hc i m Hm) as [c' Hc']; [eauto|]. congruence.
Qed.

Lemma consistent_log c s :
  consistent env minted s -> consistent env minted (log_call c s).
Proof. intros [H1 H2 H3 H4 H5 H6 H7 H8]. split; assumption. Qed.

Lemma consistent_tx f s :
  consistent env minted s -> consistent env minted (set_transactions f s).
Proof. intros [H1 H2 H3 H4 H5 H6 H7 H8]. split; assumption. Qed.

Lemma consistent_load key r n h s :
  served env key r n h ->
  consistent env minted s ->
  consistent env minted
    (install_block n h (rpc_totalDifficulty r) (newBlock env r) s).
Proof.
  intros Hs Hc.
  pose proof (served_below _ _ _ _ _ Hs) as Hle.
  destruct (sound_block _ _ Hsound _ _ _ _ Hs) as [Hh Hn].
  pose proof (served_known _ _ _ _ Hs) as Hk.
  pose proof (consistent_latest _ _ _ Hc) as HL.
  split; cbn.
  - exact HL.
  - intros h' b Hb. destruct (decide (h = h')) as [<-|Hne].
    + rewrite lookup_insert_eq in Hb. injection Hb as <-.
      rewrite lookup_insert_eq. eauto.
    + rewrite lookup_insert_ne in Hb by assumption.
      rewrite lookup_insert_ne by assumption.
      exact (consistent_byHash _ _ _ Hc h' b Hb).
  - intros n' b Hb. destruct (decide (n = n')) as [<-|Hne].
    + rewrite lookup_insert_eq in Hb. injection Hb as <-.
      rewrite Hh, lookup_insert_eq. repeat split; eauto. lia.
    + rewrite lookup_insert_ne in Hb by assumption.
      destruct (consistent_byNumber _ _ _ Hc n' b Hb) as (H1 & H2 & H3 & H4).
      repeat split; try assumption.
      destruct (decide (h = hash b)) as [->|Hne'].
      * rewrite lookup_insert_eq. eauto.
      * now rewrite lookup_insert_ne.
  - intros n' b Hb. destruct (decide (n = n')) as [<-|Hne].
    + rewrite lookup_insert_eq in Hb. injection Hb as <-.
      rewrite Hh. apply lookup_insert_eq.
    + rewrite lookup_insert_ne in Hb by assumption.
      destruct (consistent_byNumber _ _ _ Hc n' b Hb) as (_ & Hkb & _).
      pose proof (consistent_indexed _ _ _ Hc n' b Hb) as Hix.
      destruct (decide (h = hash b)) as [E|Hne'].
      * rewrite <- E, lookup_insert_eq. f_equal.
        apply (sound_hash _ _ Hsound); [exact Hk | exact Hkb | congruence].
      * now rewrite lookup_insert_ne.
  - intros h' Htd. destruct (decide (h = h')) as [<-|Hne].
    + rewrite lookup_insert_eq. eauto.
    + rewrite lookup_insert_ne in Htd by assumption.
      rewrite lookup_insert_ne by assumption.
      exact (consistent_total _ _ _ Hc h' Htd).
  - intros h' b Hb Hlt. destruct (decide (h = h')) as [<-|Hne].
    + rewrite lookup_insert_eq in Hb. injection Hb as <-. lia.
    + rewrite lookup_insert_ne in Hb by assumption.
      rewrite lookup_insert_ne by lia.
      exact (consistent_local _ _ _ Hc h' b Hb Hlt).
  - intros i j Hj Hi. rewrite lookup_insert_ne in Hi by lia.
    rewrite lookup_insert_ne by lia.
    exact (consistent_closed _ _ _ Hc i j Hj Hi).
  - intros HFL Hb. rewrite lookup_insert_ne by lia.
    exact (consistent_tip _ _ _ Hc HFL Hb).
Qed.

Lemma consistent_put block td s :
  minted block ->
  number (header block) = _latestBlockNumber s + 1 ->
  (_forkBlockNumber env < _latestBlockNumber s ->
   is_Some (_blocksByNumber s !! _latestBlockNumber s)) ->
  consistent env minted s ->
  consistent env minted
    (install_block (_latestBlockNumber s + 1) (hash block) td block
       (set_latestBlockNumber (_latestBlockNumber s + 1) s)).
Proof.
  intros Hm Hn Htip Hc.
  assert (Hk : known env minted block) by now left.
  pose proof (consistent_latest _ _ _ Hc) as HL.
  split; cbn.
  - lia.
  - intros h' b Hb. destruct (decide (hash block = h')) as [<-|Hne].
    + rewrite lookup_insert_eq in Hb. injection Hb as <-.
      rewrite lookup_insert_eq. eauto.
    + rewrite lookup_insert_ne in Hb by assumption.
      rewrite lookup_insert_ne by assumption.
      exact (consistent_byHash _ _ _ Hc h' b Hb).
  - intros n' b Hb. destruct (decide (_latestBlockNumber s + 1 = n')) as [<-|Hne].
    + rewrite lookup_insert_eq in Hb. injection Hb as <-.
      rewrite lookup_insert_eq. repeat split; eauto. lia.
    + rewrite lookup_insert_ne in Hb by assumption.
      destruct (consistent_byNumber _ _ _ Hc n' b Hb) as (H1 & H2 & H3 & H4).
      repeat split; try assumption; [lia|].
      destruct (decide (hash block = hash b)) as [->|Hne'].
      * rewrite lookup_insert_eq. eauto.
      * now rewrite lookup_insert_ne.
  - intros n' b Hb. destruct (decide (_latestBlockNumber s + 1 = n')) as [<-|Hne].
    + rewrite lookup_insert_eq in Hb. injection Hb as <-. apply lookup_insert_eq.
    + rewrite lookup_insert_ne in Hb by assumption.
      destruct (consistent_byNumber _ _ _ Hc n' b Hb) as (_ & Hkb & _).
      pose proof (consistent_indexed _ _ _ Hc n' b Hb) as Hix.
      destruct (decide (hash block = hash b)) as [E|Hne'].
      * rewrite E, lookup_insert_eq. f_equal.
        apply (sound_hash _ _ Hsound); [exact Hk | exact Hkb | exact E].
      * now rewrite lookup_insert_ne.
  - intros h' Htd. destruct (decide (hash block = h')) as [<-|Hne].
    + rewrite lookup_insert_eq. eauto.
    + rewrite lookup_insert_ne in Htd by assumption.
      rewrite lookup_insert_ne by assumption.
      exact (consistent_total _ _ _ Hc h' Htd).
  - intros h' b Hb Hlt. destruct (decide (hash block = h')) as [<-|Hne].
    + rewrite lookup_insert_eq in Hb. injection Hb as <-.
      rewrite Hn. apply lookup_insert_eq.
    + rewrite lookup_insert_ne in Hb by assumption.
      pose proof (consistent_local _ _ _ Hc h' b Hb Hlt) as Hloc.
      destruct (consistent_byNumber _ _ _ Hc _ b Hloc) as (_ & _ & H3 & _).
      rewrite lookup_insert_ne by lia. exact Hloc.
  - intros i j Hj Hi.
    destruct (decide (_latestBlockNumber s + 1 = j)) as [<-|Hne];
      [rewrite lookup_insert_eq; eauto|].
    rewrite lookup_insert_ne by assumption.
    destruct (decide (_latestBlockNumber s + 1 = i)) as [<-|Hni].
    + apply (consistent_closed _ _ _ Hc (_latestBlockNumber s) j); [lia|].
      apply Htip. lia.
    + rewrite lookup_insert_ne in Hi by assumption.
      exact (consistent_closed _ _ _ Hc i j Hj Hi).
  - intros _ _. rewrite lookup_insert_eq. eauto.
Qed.

Lemma consistent_cut h block s :
  _blocksByHash s !! h = Some block ->
  _forkBlockNumber env < number (header block) ->
  consistent env minted s ->
  consistent env minted (cut_at (number (header block)) s).
Proof.
  intros Hb0 Hlt Hc.
  destruct (cut_at_removed (number (header block)) s)
    as (HL & _ & Hrem & Hfn & Hfh & _).
  set (n0 := number (header block)) in *.
  set (s' := cut_at n0 s) in *.
  pose proof (consistent_local _ _ _ Hc h block Hb0 Hlt) as Hloc0. fold n0 in Hloc0.
  destruct (consistent_byNumber _ _ _ Hc _ _ Hloc0) as (_ & _ & Hn0 & _).
  (* an entry that survives in [_blocksByHash] was there, with its total difficulty *)
  assert (Hkeep : forall h' b, _blocksByHash s' !! h' = Some b ->
            _blocksByHash s !! h' = Some b /\
            _totalDifficultyByBlockHash s' !! h' = _totalDifficultyByBlockHash s !! h').
  { intros h' b Hb. destruct (Hfh h') as [E1 E2].
    - intros i c Hi Hci E. destruct (Hrem i c Hi Hci) as (_ & Hgone & _).
      rewrite E in Hgone. congruence.
    - rewrite <- E1. auto. }
  (* an entry that survives in [_blocksByNumber] is below the cut *)
  assert (Hbelow : forall n b, _blocksByNumber s' !! n = Some b ->
            _blocksByNumber s !! n = Some b /\ n < n0).
  { intros n b Hb.
    destruct (decide (n0 <= n <= _latestBlockNumber s)) as [Hin|Hout].
    - unfold s' in Hb. rewrite (cut_at_range n0 s n Hin) in Hb. discriminate.
    - rewrite (Hfn n Hout) in Hb. split; [exact Hb|].
      destruct (consistent_byNumber _ _ _ Hc n b Hb) as (_ & _ & Hle & _). lia. }
  split.
  - rewrite HL. lia.
  - intros h' b Hb. destruct (Hkeep h' b Hb) as [Hold Etd]. rewrite Etd.
    exact (consistent_byHash _ _ _ Hc h' b Hold).
  - intros n b Hb. destruct (Hbelow n b Hb) as [Hold Hn].
    destruct (consistent_byNumber _ _ _ Hc n b Hold) as (H1 & H2 & H3 & H4).
    repeat split; try assumption; [rewrite HL; lia|].
    destruct (Hfh (hash b)) as [_ E]; [|now rewrite E].
    intros i c Hi Hci. apply (stored_hash_apart s i c n b Hc Hci Hold). lia.
  - intros n b Hb. destruct (Hbelow n b Hb) as [Hold Hn].
    destruct (Hfh (hash b)) as [E _].
    + intros i c Hi Hci. apply (stored_hash_apart s i c n b Hc Hci Hold). lia.
    + rewrite E. exact (consistent_indexed _ _ _ Hc n b Hold).
  - intros h' Htd. destruct (Hfh h') as [E1 E2].
    + intros i c Hi Hci E. destruct (Hrem i c Hi Hci) as (_ & _ & Hgone & _).
      rewrite E in Hgone. rewrite Hgone in Htd. now destruct Htd.
    + rewrite E1. rewrite E2 in Htd. exact (consistent_total _ _ _ Hc h' Htd).
  - intros h' b Hb Hl. destruct (Hkeep h' b Hb) as [Hold _].
    pose proof (consistent_local _ _ _ Hc h' b Hold Hl) as Hloc.
    destruct (consistent_byHash _ _ _ Hc h' b Hold) as (Hh & _).
    destruct (decide (n0 <= number (header b) <= _latestBlockNumber s)) as [Hin|Hout].
    + destruct (Hrem _ b Hin Hloc) as (_ & Hgone & _). rewrite Hh in Hgone. congruence.
    + now rewrite (Hfn _ Hout).
  - intros i j Hj Hi. destruct Hi as [b Hb]. destruct (Hbelow i b Hb) as [Hold Hi].
    rewrite Hfn by lia.
    apply (consistent_closed _ _ _ Hc i j Hj). eauto.
  - intros HFL _. rewrite HL in *. rewrite Hfn by lia.
    apply (consistent_closed _ _ _ Hc n0 (n0 - 1)); [lia | eauto].
Qed.

(** The loop of [_delBlock] has thrown: the blocks are gone and the latest
    number is where it was, at [2^26 - 1] or above. *)
Lemma consistent_trim h block s :
  _blocksByHash s !! h = Some block ->
  _forkBlockNumber env < number (header block) ->
  2 ^ 26 - 1 <= _latestBlockNumber s ->
  consistent env minted s ->
  consistent env minted (trim_at (number (header block)) s).
Proof.
  intros Hb0 Hlt HL Hc.
  pose proof (consistent_cut h block s Hb0 Hlt Hc) as [H1 H2 H3 H4 H5 H6 H7 H8].
  pose proof (consistent_local _ _ _ Hc h block Hb0 Hlt) as Hloc0.
  destruct (consistent_byNumber _ _ _ Hc _ _ Hloc0) as (_ & _ & Hn0 & _).
  destruct (cut_at_removed (number (header block)) s) as (HL' & _).
  rewrite trim_at_cut. split.
  - exact (consistent_latest _ _ _ Hc).
  - exact H2.
  - intros n b Hb. destruct (H3 n b Hb) as (E1 & E2 & E3 & E4).
    repeat split; try assumption.
    change (_latestBlockNumber (set_latestBlockNumber _ _)) with (_latestBlockNumber s).
    rewrite HL' in E3. lia.
  - exact H4.
  - exact H5.
  - exact H6.
  - exact H7.
  - intros _ Hlow.
    change (_latestBlockNumber (set_latestBlockNumber _ _)) with (_latestBlockNumber s) in Hlow.
    lia.
Qed.

Lemma consistent_change s s' :
  change env minted s s' -> consistent env minted s -> consistent env minted s'.
Proof.
  intros Hch Hc. destruct Hch as [c s|key r n h s Hs|block td s Hm Hn Htd|h block s Hb Hlt
                                 |h block s Hb Hlt HL|r s].
  - now apply consistent_log.
  - eapply consistent_load; eassumption.
  - apply consistent_put; [exact Hm | exact Hn | | exact Hc].
    intros HFL. destruct Htd as [[H0 _]|(_ & p & tp & Hp & _)]; [|eauto].
    apply (consistent_tip _ _ _ Hc HFL). change (2 ^ 26 - 1) with 67108863. lia.
  - eapply consistent_cut; eassumption.
  - eapply consistent_trim; eassumption.
  - now apply consistent_tx.
Qed.

Lemma consistent_changes s s' :
  changes env minted s s' -> consistent env minted s -> consistent env minted s'.
Proof.
  induction 1 as [|s s' s'' _ IH Hch]; intros Hc; [exact Hc|].
  eapply consistent_change; [exact Hch | now apply IH].
Qed.

Lemma consistent_initial : consistent env minted (initial env).
Proof.
  split; cbn.
  - lia.
  - intros h b Hb. now rewrite lookup_empty in Hb.
  - intros n b Hb. now rewrite lookup_empty in Hb.
  - intros n b Hb. now rewrite lookup_empty in Hb.
  - intros h [t Ht]. now rewrite lookup_empty in Ht.
  - intros h b Hb. now rewrite lookup_empty in Hb.
  - intros i j _ [b Hb]. now rewrite lookup_empty in Hb.
  - intros HFL. lia.
Qed.

(** *** Every call is a sequence of elementary changes *)

Lemma changes_one s s' : change env minted s s' -> changes env minted s s'.
Proof. intros H. eapply changes_step; [apply changes_refl | exact H]. Qed.

Lemma changes_trans s s' s'' :
  changes env minted s s' -> changes env minted s' s'' -> changes env minted s s''.
Proof.
  intros H1 H2. induction H2 as [|s' t t' _ IH Hch]; [exact H1|].
  eapply changes_step; [now apply IH | exact Hch].
Qed.

(** A successful [getBlock] either found the block in the store or loaded
    it from upstream. *)
Lemma getBlock_outcome key s b s1 :
  getBlock env key s = (Ok b, s1) ->
  beyond_latest key s = false /\
  (cached key s = Some b /\ s1 = s \/
   cached key s = None /\
   exists r n h,
     served env key r n h /\ b = newBlock env r /\
     s1 = install_block n h (rpc_totalDifficulty r) (newBlock env r)
            (log_call (request key) s)).
Proof.
  rewrite getBlock_run. intros H.
  destruct (beyond_latest key s); [discriminate|]. split; [reflexivity|].
  destruct (cached key s) as [c|]; [left; split; congruence|].
  destruct (answer env key) as [o|] eqn:Ea; [|discriminate].
  destruct (accepted env o) as [[[n h] r]|] eqn:Ead; [|discriminate].
  injection H as <- <-. right. split; [reflexivity|]. exists r, n, h.
  destruct (accepted_inv _ _ _ _ _ Ead) as (-> & _).
  repeat split; assumption.
Qed.

Lemma getBlock_changes key s :
  changes env minted s (snd (getBlock env key s)).
Proof.
  rewrite getBlock_run.
  destruct (beyond_latest key s); [apply changes_refl|].
  destruct (cached key s); [apply changes_refl|].
  destruct (answer env key) as [o|] eqn:Ea; [|apply changes_one, change_log].
  destruct (accepted env o) as [[[n h] r]|] eqn:Ead; [|apply changes_one, change_log].
  destruct (accepted_inv _ _ _ _ _ Ead) as (-> & _).
  eapply changes_step; [apply changes_one, change_log|].
  cbn [snd]. eapply change_load. split; eassumption.
Qed.

(** Once [getLatestBlock] has answered in a consistent store, the latest
    block is stored under its number with its total difficulty. *)
Lemma getLatestBlock_stored s parent s1 :
  consistent env minted s ->
  getLatestBlock env s = (Ok parent, s1) ->
  consistent env minted s1 /\
  changes env minted s s1 /\
  _latestBlockNumber s1 = _latestBlockNumber s /\
  _blocksByNumber s1 !! _latestBlockNumber s = Some parent /\
  is_Some (_totalDifficultyByBlockHash s1 !! hash parent).
Proof.
  intros Hc Hl. rewrite getLatestBlock_run in Hl.
  assert (Hch : changes env minted s s1).
  { pose proof (getBlock_changes (OfNumber (_latestBlockNumber s)) s) as H.
    now rewrite Hl in H. }
  assert (Hc1 : consistent env minted s1) by (eapply consistent_changes; eauto).
  assert (HL : _latestBlockNumber s1 = _latestBlockNumber s).
  { pose proof (getBlock_latest env (OfNumber (_latestBlockNumber s)) s) as H.
    now rewrite Hl in H. }
  assert (Hst : _blocksByNumber s1 !! _latestBlockNumber s = Some parent).
  { destruct (getBlock_outcome _ _ _ _ Hl) as [_ [[Hca ->]|(_ & r & n & h & Hs & -> & ->)]].
    - exact Hca.
    - pose proof (sound_key _ _ Hsound _ _ _ _ Hs) as E. cbn in E. subst n.
      cbn. apply lookup_insert_eq. }
  split; [exact Hc1|]. split; [exact Hch|]. split; [exact HL|]. split; [exact Hst|].
  now destruct (consistent_byNumber _ _ _ Hc1 _ _ Hst) as (_ & _ & _ & Htd).
Qed.

Lemma putBlock_changes block s :
  minted block ->
  consistent env minted s ->
  changes env minted s (snd (putBlock env block s)).
Proof.
  intros Hm Hc.
  destruct (Z.eq_dec (number (header block)) (_latestBlockNumber s + 1)) as [Hn|Hn].
  2:{ rewrite putBlock_run. apply Z.eqb_neq in Hn. rewrite Hn. apply changes_refl. }
  destruct (getLatestBlock env s) as [[parent|e] s1] eqn:Hl.
  2:{ rewrite putBlock_run, (proj2 (Z.eqb_eq _ _) Hn), Hl. cbn [negb snd].
      pose proof (getBlock_changes (OfNumber (_latestBlockNumber s)) s) as H.
      rewrite getLatestBlock_run in Hl. now rewrite Hl in H. }
  destruct (getLatestBlock_stored s parent s1 Hc Hl) as (Hc1 & Hch & HL & Hst & [tp Htp]).
  destruct (N.eq_dec (parentHash (header block)) (hash parent)) as [Hp|Hp].
  2:{ rewrite putBlock_run, (proj2 (Z.eqb_eq _ _) Hn), Hl. cbn [negb].
      apply N.eqb_neq in Hp. rewrite Hp. exact Hch. }
  rewrite (putBlock_ok env block s parent s1 tp Hn Hl Hp Hst Htp). cbn [snd].
  eapply changes_step; [exact Hch|]. rewrite <- HL.
  apply change_put; [exact Hm | now rewrite HL |].
  destruct (number (header block) =? 0) eqn:E0.
  - left. apply Z.eqb_eq in E0. auto.
  - right. apply Z.eqb_neq in E0. split; [exact E0|].
    exists parent, tp. rewrite HL. auto.
Qed.

(** [_delBlock] of a block above the fork block number in a consistent
    store: below [2^26 - 1] it returns and the chain is cut; from there on it
    throws, from its loop, once the blocks are removed. *)
Lemma delBlock_outcome h s b :
  consistent env minted s ->
  _blocksByHash s !! h = Some b ->
  _forkBlockNumber env < number (header b) ->
  _latestBlockNumber s < 2 ^ 26 - 1 /\
  _delBlock env h s = (Ok tt, cut_at (number (header b)) s) \/
  2 ^ 26 - 1 <= _latestBlockNumber s /\
  exists e, (e = NumberIsTooBig \/ e = ThisShouldNeverHappen) /\
            _delBlock env h s = (Err e, trim_at (number (header b)) s).
Proof.
  intros Hc Hb Hlt.
  pose proof (consistent_local _ _ _ Hc h b Hb Hlt) as Hloc.
  destruct (consistent_byNumber _ _ _ Hc _ _ Hloc) as (_ & _ & Hle & _).
  pose proof (number_nonneg (header b)) as H0.
  set (n := number (header b)) in *.
  destruct (Z_lt_ge_dec (_latestBlockNumber s) (2 ^ 26 - 1)) as [Hlow|Hhigh].
  { left. split; [exact Hlow|].
    apply delBlock_ok; [exact Hb | exact Hlt | fold n; lia | lia |].
    intros i Hi. apply (consistent_suffix s Hc Hlow). fold n in Hi. lia. }
  right. split; [lia|].
  change (2 ^ 26 - 1) with 67108863 in Hhigh.
  destruct (stored_run s n (Z.to_nat (_latestBlockNumber s - n + 1)))
    as (m & Hm & Hrun & Hgap).
  rewrite Z2Nat.id in Hm, Hgap by lia.
  assert (Hnone : _blocksByNumber s !! m = None).
  { destruct (Z_lt_ge_dec m (n + (_latestBlockNumber s - n + 1))) as [H|H];
      [now apply Hgap|].
    destruct (_blocksByNumber s !! m) as [c|] eqn:Hcm; [|reflexivity].
    destruct (consistent_byNumber _ _ _ Hc _ _ Hcm) as (_ & _ & Hle' & _). lia. }
  assert (Hnm : n < m).
  { destruct (Z.eq_dec m n) as [E|E]; [|lia]. rewrite E in Hnone. congruence. }
  assert (Htests : forall j, n <= j < m ->
            gten (_latestBlockNumber s) j = Ok true /\ is_Some (_blocksByNumber s !! j)).
  { intros j Hj. split; [|now apply Hrun].
    destruct (Z_lt_ge_dec (_latestBlockNumber s) (2 ^ 26)) as [Hone|Hmany].
    - change (2 ^ 26) with 67108864 in Hone.
      rewrite gten_exact by (change (2 ^ 26) with 67108864; lia).
      f_equal. apply Z.leb_le. lia.
    - apply gten_words; lia. }
  assert (Hat : exists e, (e = NumberIsTooBig \/ e = ThisShouldNeverHappen) /\
            (gten (_latestBlockNumber s) m = Err e \/
             gten (_latestBlockNumber s) m = Ok true /\ _blocksByNumber s !! m = None /\
             e = ThisShouldNeverHappen)).
  { destruct (Z_lt_ge_dec (_latestBlockNumber s) (2 ^ 26)) as [Hone|Hmany].
    - change (2 ^ 26) with 67108864 in Hone.
      destruct (Z_le_gt_dec m (_latestBlockNumber s)) as [Hin|Hout].
      + exists ThisShouldNeverHappen. split; [now right|]. right.
        split; [|split; [exact Hnone | reflexivity]].
        rewrite gten_exact by (change (2 ^ 26) with 67108864; lia).
        f_equal. apply Z.leb_le. lia.
      + exists NumberIsTooBig. split; [now left|]. left.
        apply gten_assert; [change (2 ^ 26) with 67108864; lia | lia].
    - exists ThisShouldNeverHappen. split; [now right|]. right.
      split; [|split; [exact Hnone | reflexivity]].
      apply gten_words; lia. }
  destruct Hat as (e & He & Hat). exists e. split; [exact He|].
  rewrite (delBlock_run env h s b Hb Hlt). fold n.
  rewrite (delBlock_loop_throws n m s e); [| lia | exact Htests | exact Hat].
  f_equal. apply drop_blocks_gap; [lia|].
  intros i Hi. apply (consistent_gap s m i Hc); [lia | exact Hnone].
Qed.

Lemma delBlock_changes h s :
  consistent env minted s ->
  changes env minted s (snd (_delBlock env h s)).
Proof.
  intros Hc. destruct (_blocksByHash s !! h) as [b|] eqn:Hb.
  2:{ rewrite delBlock_unknown by assumption. apply changes_refl. }
  destruct (Z_le_gt_dec (number (header b)) (_forkBlockNumber env)) as [Hle|Hgt].
  { rewrite (delBlock_remote env h s b) by assumption. apply changes_refl. }
  destruct (delBlock_outcome h s b Hc Hb) as [[_ E]|(HL & e & _ & E)]; [lia| |]; rewrite E.
  - apply changes_one. eapply change_cut; [eassumption | lia].
  - apply changes_one. eapply change_trim; [eassumption | lia | exact HL].
Qed.

Lemma deleteAllFollowingBlocks_changes block s :
  consistent env minted s ->
  changes env minted s (snd (deleteAllFollowingBlocks env block s)).
Proof.
  intros Hc. unfold deleteAllFollowingBlocks, bind at 1, gets at 1.
  destruct (_blocksByNumber s !! number (header block)) as [saved|]; [|apply changes_refl].
  destruct (negb (hash saved =? hash block)%N); [apply changes_refl|].
  unfold bind at 1, lift at 1.
  destruct (gten (_forkBlockNumber env) (number (header block) + 1)) as [[|]|e];
    [apply changes_refl| |apply changes_refl].
  unfold bind at 1, gets at 1.
  destruct (_blocksByNumber s !! (number (header block) + 1)) as [next|];
    [|apply changes_refl].
  now apply delBlock_changes.
Qed.

Lemma getBlockTotalDifficulty_run h s :
  getBlockTotalDifficulty env h s =
  match _totalDifficultyByBlockHash s !! h with
  | Some t => (Ok t, s)
  | None =>
    match getBlock env (OfHash h) s with
    | (Ok _, s1) =>
      match _totalDifficultyByBlockHash s1 !! h with
      | Some t => (Ok t, s1)
      | None => (Err ThisShouldNeverHappen, s1)
      end
    | (Err e, s1) => (Err e, s1)
    end
  end.
Proof.
  unfold getBlockTotalDifficulty, bind at 1, gets at 1.
  destruct (_totalDifficultyByBlockHash s !! h); [reflexivity|].
  unfold bind at 1. destruct (getBlock env (OfHash h) s) as [[b|e] s1]; [|reflexivity].
  unfold bind, gets. destruct (_totalDifficultyByBlockHash s1 !! h); reflexivity.
Qed.

(** [getBlockTotalDifficulty] leaves the store as it is or as [getBlock] does. *)
Lemma getBlockTotalDifficulty_store h s :
  snd (getBlockTotalDifficulty env h s) = s \/
  snd (getBlockTotalDifficulty env h s) = snd (getBlock env (OfHash h) s).
Proof.
  rewrite getBlockTotalDifficulty_run.
  destruct (_totalDifficultyByBlockHash s !! h); [now left|]. right.
  destruct (getBlock env (OfHash h) s) as [[b|e] s1]; [|reflexivity].
  destruct (_totalDifficultyByBlockHash s1 !! h); reflexivity.
Qed.

Lemma getBlockTotalDifficulty_changes h s :
  changes env minted s (snd (getBlockTotalDifficulty env h s)).
Proof.
  destruct (getBlockTotalDifficulty_store h s) as [-> | ->];
    [apply changes_refl | apply getBlock_changes].
Qed.

Lemma processRemoteTransaction_changes o s :
  changes env minted s (snd (_processRemoteTransaction env o s)).
Proof.
  unfold _processRemoteTransaction.
  destruct o as [r|]; [|apply changes_refl].
  destruct (rtx_blockNumber r) as [n|]; [|apply changes_refl].
  destruct (n >? _forkBlockNumber env); [apply changes_refl|].
  apply changes_one. apply change_tx.
Qed.

Lemma getTransaction_changes h s :
  changes env minted s (snd (getTransaction env h s)).
Proof.
  unfold getTransaction, bind at 1, gets at 1.
  destruct (_transactions s !! h); [apply changes_refl|].
  unfold bind at 1, await, bind at 1, modify at 1.
  destruct (getTransactionByHash (_jsonRpcClient env) h) as [o|];
    [|apply changes_one, change_log].
  cbn [ret]. eapply changes_trans; [apply changes_one, change_log|].
  apply processRemoteTransaction_changes.
Qed.

Lemma bind_store {A B} (m : M A) (k : A -> M B) s :
  (forall a s', snd (k a s') = s') -> snd (bind m k s) = snd (m s).
Proof. intros Hk. unfold bind. destruct (m s) as [[a|e] s']; [apply Hk | reflexivity]. Qed.

Lemma getBlockByTransactionHash_changes h s :
  changes env minted s (snd (getBlockByTransactionHash env h s)).
Proof.
  unfold getBlockByTransactionHash, bind at 1, gets at 1.
  destruct (_transactionToBlock s !! h); [apply changes_refl|].
  unfold bind at 1, await, bind at 1, modify at 1.
  destruct (getTransactionByHash (_jsonRpcClient env) h) as [o|];
    [|apply changes_one, change_log].
  cbn [ret]. eapply changes_trans; [apply changes_one, change_log|].
  unfold bind at 1.
  pose proof (processRemoteTransaction_changes o (log_call (CallGetTransactionByHash h) s)) as H1.
  destruct (_processRemoteTransaction env o _) as [[t|e] s1]; [|exact H1].
  cbn [snd] in H1. eapply changes_trans; [exact H1|].
  rewrite bind_store by (intros [b|] s'; reflexivity).
  destruct o as [r|]; [|apply changes_refl].
  destruct (rtx_blockHash r) as [bh|]; [|apply changes_refl].
  rewrite bind_store by reflexivity.
  apply getBlock_changes.
Qed.

Lemma perform_changes op s :
  allowed minted op ->
  consistent env minted s ->
  changes env minted s (perform env op s).
Proof.
  intros Ha Hc. destruct op; cbn [perform allowed] in *.
  - apply getBlock_changes.
  - rewrite getLatestBlock_run. apply getBlock_changes.
  - now apply putBlock_changes.
  - now apply delBlock_changes.
  - now apply deleteAllFollowingBlocks_changes.
  - apply getBlockTotalDifficulty_changes.
  - apply getTransaction_changes.
  - apply getBlockByTransactionHash_changes.
Qed.

(** Every store of a run is consistent, and is reached from the initial one
    by elementary changes. *)
Lemma reachable_consistent s :
  reachable env minted s ->
  consistent env minted s /\ changes env minted (initial env) s.
Proof.
  induction 1 as [|op s _ [IHc IHch] Ha].
  - split; [apply consistent_initial | apply changes_refl].
  - pose proof (perform_changes op s Ha IHc) as Hch. split.
    + eapply consistent_changes; eassumption.
    + eapply changes_trans; eassumption.
Qed.

End Consistency.

Lemma reachable_getBlock env minted key s :
  reachable env minted s -> reachable env minted (snd (getBlock env key s)).
Proof. intros H. now apply (reachable_perform env minted (DoGetBlock key)). Qed.

(** After a successful [getBlock] by hash the block is in [_blocksByHash]
    under that hash. *)
Lemma getBlock_by_hash_stored env minted h s b s1 :
  sound env minted ->
  getBlock env (OfHash h) s = (Ok b, s1) ->
  _blocksByHash s1 !! h = Some b.
Proof.
  intros Hsound Hg.
  destruct (getBlock_outcome env _ _ _ _ Hg) as [_ [[Hca ->]|(_ & r & n & h' & Hs & -> & ->)]].
  - exact Hca.
  - pose proof (sound_key _ _ Hsound _ _ _ _ Hs) as E. cbn in E. subst h'.
    cbn. apply lookup_insert_eq.
Qed.

(** *** The small chain meets the assumptions *)

Lemma demo_served key r n h :
  served demoEnv key r n h ->
  r = rpc10 /\ n = 10 /\ h = 1010%N /\ (key = OfHash 1010%N \/ key = OfNumber 10) \/
  r = rpc9 /\ n = 9 /\ h = 1009%N /\ (key = OfHash 1009%N \/ key = OfNumber 9).
Proof.
  intros [Ha Had]. destruct key as [h0|n0]; cbn in Ha.
  - destruct (N.eqb_spec h0 1010) as [->|_].
    { injection Ha as <-. vm_compute in Had. injection Had as <- <-. left. auto. }
    destruct (N.eqb_spec h0 1009) as [->|_].
    { injection Ha as <-. vm_compute in Had. injection Had as <- <-. right. auto. }
    discriminate.
  - destruct (Z.eqb_spec n0 10) as [->|_].
    { injection Ha as <-. vm_compute in Had. injection Had as <- <-. left. auto. }
    destruct (Z.eqb_spec n0 9) as [->|_].
    { injection Ha as <-. vm_compute in Had. injection Had as <- <-. right. auto. }
    discriminate.
Qed.

Lemma demo_known b :
  known demoEnv demoMinted b ->
  b = block11 \/ b = demoBlock rpc10 \/ b = demoBlock rpc9.
Proof.
  intros [Hm|(key & r & n & h & Hs & ->)]; [now left|].
  apply demo_served in Hs as [(-> & _)|(-> & _)]; auto.
Qed.

Lemma demo_sound : sound demoEnv demoMinted.
Proof.
  split.
  - intros key r n h Hs.
    apply demo_served in Hs as [(-> & -> & -> & _)|(-> & -> & -> & _)]; split; reflexivity.
  - intros key r n h Hs.
    apply demo_served in Hs as [(-> & -> & -> & [->| ->])|(-> & -> & -> & [->| ->])];
      reflexivity.
  - intros b b' Hb Hb' Hh.
    apply demo_known in Hb as [->|[->| ->]];
      apply demo_known in Hb' as [->|[->| ->]];
      first [reflexivity | vm_compute in Hh; discriminate].
Qed.

Lemma demo_canonical : canonical demoEnv demoMinted.
Proof.
  split.
  - exact demo_sound.
  - intros key r n h Hs.
    apply demo_served in Hs as [(-> & -> & _)|(-> & -> & _)]; reflexivity.
  - intros key r n h Hs.
    apply demo_served in Hs as [(-> & _)|(-> & _)]; reflexivity.
  - intros r r' n h h' Hn Hs Hs'.
    apply demo_served in Hs as [(-> & -> & _)|(-> & -> & _)];
      apply demo_served in Hs' as [(-> & E & _)|(-> & E & _)];
      first [reflexivity | lia].
  - intros r h Hs.
    apply demo_served in Hs as [(_ & E & _)|(_ & E & _)]; discriminate.
Qed.

Lemma demo_reachable : reachable demoEnv demoMinted demoAppended.
Proof.
  apply (reachable_perform demoEnv demoMinted (DoPutBlock block11));
    [apply reachable_initial | reflexivity].
Qed.

(** ** Total difficulties add up *)

Section Accumulation.

Variable env : Env.
Variable minted : Block -> Prop.
Hypothesis Hcanon : canonical env minted.

Lemma canonical_is_sound : sound env minted.
Proof. exact (canonical_sound _ _ Hcanon). Qed.

(** A record served for any key is the one served for its number. *)
Lemma served_by_number key r n h :
  served env key r n h -> served env (OfNumber n) r n h.
Proof.
  intros Hs. split; [|exact (proj2 Hs)].
  cbn. exact (canonical_number _ _ Hcanon _ _ _ _ Hs).
Qed.

Lemma served_unique n r r' h h' :
  served env (OfNumber n) r n h -> served env (OfNumber n) r' n h' -> r = r'.
Proof. intros [Ha _] [Ha' _]. congruence. Qed.

(** What survives a cut: the blocks below it, with their total difficulty. *)
Lemma cut_at_stored h block s :
  consistent env minted s ->
  _blocksByHash s !! h = Some block ->
  _forkBlockNumber env < number (header block) ->
  (forall n b,
     _blocksByNumber (cut_at (number (header block)) s) !! n = Some b ->
     _blocksByNumber s !! n = Some b /\ n < number (header block) /\
     _totalDifficultyByBlockHash (cut_at (number (header block)) s) !! hash b
       = _totalDifficultyByBlockHash s !! hash b) /\
  (forall n, n < number (header block) ->
     _blocksByNumber (cut_at (number (header block)) s) !! n = _blocksByNumber s !! n).
Proof.
  intros Hc Hb0 Hlt.
  destruct (cut_at_removed (number (header block)) s)
    as (_ & _ & Hrem & Hfn & Hfh & _).
  split.
  - intros n b Hb.
    destruct (decide (number (header block) <= n <= _latestBlockNumber s)) as [Hin|Hout].
    + rewrite (cut_at_range _ s n Hin) in Hb. discriminate.
    + rewrite (Hfn n Hout) in Hb.
      destruct (consistent_byNumber _ _ _ Hc n b Hb) as (_ & _ & Hle & _).
      split; [exact Hb|]. split; [lia|].
      apply Hfh. intros i c Hi Hci.
      apply (stored_hash_apart env minted canonical_is_sound s i c n b Hc Hci Hb). lia.
  - intros n Hn. apply Hfn. lia.
Qed.

Lemma accumulated_initial : accumulated env (initial env).
Proof.
  split; cbn; intros n b _ Hb; now rewrite lookup_empty in Hb.
Qed.

Lemma accumulated_load key r n h s :
  served env key r n h ->
  consistent env minted s ->
  accumulated env s ->
  accumulated env (install_block n h (rpc_totalDifficulty r) (newBlock env r) s).
Proof.
  intros Hs Hc Hacc.
  pose proof (served_below _ _ _ _ _ Hs) as Hle.
  destruct (sound_block _ _ canonical_is_sound _ _ _ _ Hs) as [Hh Hn].
  pose proof (served_known env minted _ _ _ _ Hs) as Hk.
  pose proof (served_by_number _ _ _ _ Hs) as Hsn.
  (* a block stored under another number keeps its total difficulty *)
  assert (Hapart : forall n' b, _blocksByNumber s !! n' = Some b -> n' <> n ->
            <[h := rpc_totalDifficulty r]> (_totalDifficultyByBlockHash s) !! hash b
            = _totalDifficultyByBlockHash s !! hash b).
  { intros n' b Hb Hne. apply lookup_insert_ne. intros E.
    destruct (consistent_byNumber _ _ _ Hc n' b Hb) as (Hnb & Hkb & _).
    assert (newBlock env r = b) by (apply (sound_hash _ _ canonical_is_sound); congruence).
    subst b. congruence. }
  split; cbn.
  - intros n' b Hn' Hb. destruct (decide (n = n')) as [<-|Hne].
    + rewrite lookup_insert_eq in Hb. injection Hb as <-.
      exists r. rewrite Hh. split; [exact Hsn|]. split; [reflexivity|].
      apply lookup_insert_eq.
    + rewrite lookup_insert_ne in Hb by assumption.
      destruct (accumulated_remote _ _ Hacc n' b Hn' Hb) as (r' & H1 & H2 & H3).
      exists r'. split; [exact H1|]. split; [exact H2|].
      rewrite (Hapart n' b Hb) by lia. exact H3.
  - intros n' b Hn' Hb. rewrite lookup_insert_ne in Hb by lia.
    rewrite (Hapart n' b Hb) by lia.
    destruct (accumulated_local _ _ Hacc n' b Hn' Hb) as [Hg|(Hn0 & p & tp & Hp & Htp & Ht)];
      [left; exact Hg|].
    right. split; [exact Hn0|].
    destruct (decide (n = n' - 1)) as [E|Hne].
    + (* the parent is reloaded from upstream: it is the same block *)
      rewrite <- E in Hp.
      destruct (accumulated_remote _ _ Hacc n p Hle Hp) as (r' & H1 & H2 & H3).
      assert (r' = r) by (eapply served_unique; eassumption). subst r'.
      exists p, tp. split; [rewrite <- E, lookup_insert_eq; congruence|].
      split; [|exact Ht].
      assert (Ehp : hash p = h) by (rewrite <- H2; exact Hh).
      rewrite Ehp, lookup_insert_eq. congruence.
    + exists p, tp. rewrite lookup_insert_ne by assumption.
      split; [exact Hp|]. split; [|exact Ht].
      rewrite (Hapart (n' - 1) p Hp) by lia. exact Htp.
Qed.

Lemma accumulated_put block td s :
  minted block ->
  number (header block) = _latestBlockNumber s + 1 ->
  (number (header block) = 0 /\ td = difficulty (header block) \/
   number (header block) <> 0 /\
   exists p tp, _blocksByNumber s !! _latestBlockNumber s = Some p /\
                _totalDifficultyByBlockHash s !! hash p = Some tp /\
                td = tp + difficulty (header block)) ->
  consistent env minted s ->
  accumulated env s ->
  accumulated env
    (install_block (_latestBlockNumber s + 1) (hash block) td block
       (set_latestBlockNumber (_latestBlockNumber s + 1) s)).
Proof.
  intros Hm Hn Htd Hc Hacc.
  pose proof (consistent_latest _ _ _ Hc) as HL.
  (* a stored block is below the new one and keeps its total difficulty *)
  assert (Hold : forall n' b, _blocksByNumber s !! n' = Some b ->
            n' <= _latestBlockNumber s /\
            <[hash block := td]> (_totalDifficultyByBlockHash s) !! hash b
            = _totalDifficultyByBlockHash s !! hash b).
  { intros n' b Hb.
    destruct (consistent_byNumber _ _ _ Hc n' b Hb) as (Hnb & Hkb & Hle & _).
    split; [exact Hle|]. apply lookup_insert_ne. intros E.
    assert (block = b) by (apply (sound_hash _ _ canonical_is_sound); [now left | exact Hkb | exact E]).
    subst b. lia. }
  split; cbn.
  - intros n' b Hn' Hb. rewrite lookup_insert_ne in Hb by lia.
    destruct (accumulated_remote _ _ Hacc n' b Hn' Hb) as (r' & H1 & H2 & H3).
    exists r'. split; [exact H1|]. split; [exact H2|].
    rewrite (proj2 (Hold n' b Hb)). exact H3.
  - intros n' b Hn' Hb.
    destruct (decide (_latestBlockNumber s + 1 = n')) as [<-|Hne].
    + rewrite lookup_insert_eq in Hb. injection Hb as <-.
      rewrite lookup_insert_eq.
      destruct Htd as [[H0 ->]|(H0 & p & tp & Hp & Htp & ->)].
      * left. split; [lia | reflexivity].
      * right. split; [lia|]. exists p, tp.
        replace (_latestBlockNumber s + 1 - 1) with (_latestBlockNumber s) by lia.
        rewrite lookup_insert_ne by lia. split; [exact Hp|]. split; [|reflexivity].
        rewrite (proj2 (Hold _ p Hp)). exact Htp.
    + rewrite lookup_insert_ne in Hb by assumption.
      destruct (Hold n' b Hb) as [Hle Ekeep]. rewrite Ekeep.
      destruct (accumulated_local _ _ Hacc n' b Hn' Hb)
        as [Hg|(Hn0 & p & tp & Hp & Htp & Ht)]; [left; exact Hg|].
      right. split; [exact Hn0|]. exists p, tp.
      rewrite lookup_insert_ne by lia. split; [exact Hp|]. split; [|exact Ht].
      rewrite (proj2 (Hold _ p Hp)). exact Htp.
Qed.

Lemma accumulated_cut h block s :
  _blocksByHash s !! h = Some block ->
  _forkBlockNumber env < number (header block) ->
  consistent env minted s ->
  accumulated env s ->
  accumulated env (cut_at (number (header block)) s).
Proof.
  intros Hb0 Hlt Hc Hacc.
  destruct (cut_at_stored h block s Hc Hb0 Hlt) as [Hkeep Hbelow].
  split.
  - intros n b Hn Hb. destruct (Hkeep n b Hb) as (Hold & _ & Etd).
    destruct (accumulated_remote _ _ Hacc n b Hn Hold) as (r' & H1 & H2 & H3).
    exists r'. split; [exact H1|]. split; [exact H2|]. rewrite Etd. exact H3.
  - intros n b Hn Hb. destruct (Hkeep n b Hb) as (Hold & Hnlt & Etd). rewrite Etd.
    destruct (accumulated_local _ _ Hacc n b Hn Hold)
      as [Hg|(Hn0 & p & tp & Hp & Htp & Ht)]; [left; exact Hg|].
    right. split; [exact Hn0|]. exists p, tp.
    assert (Hp' : _blocksByNumber (cut_at (number (header block)) s) !! (n - 1) = Some p)
      by (rewrite Hbelow by lia; exact Hp).
    split; [exact Hp'|]. split; [|exact Ht].
    destruct (Hkeep (n - 1) p Hp') as (_ & _ & Etp). rewrite Etp. exact Htp.
Qed.

Lemma accumulated_trim h block s :
  _blocksByHash s !! h = Some block ->
  _forkBlockNumber env < number (header block) ->
  consistent env minted s ->
  accumulated env s ->
  accumulated env (trim_at (number (header block)) s).
Proof.
  intros Hb0 Hlt Hc Hacc.
  destruct (accumulated_cut h block s Hb0 Hlt Hc Hacc) as [H1 H2].
  rewrite trim_at_cut. split; assumption.
Qed.

Lemma accumulated_change s s' :
  change env minted s s' ->
  consistent env minted s -> accumulated env s -> accumulated env s'.
Proof.
  intros Hch Hc Hacc. destruct Hch.
  - destruct Hacc as [H1 H2]. split; assumption.
  - eapply accumulated_load; eassumption.
  - now apply accumulated_put.
  - eapply accumulated_cut; eassumption.
  - eapply accumulated_trim; eassumption.
  - destruct Hacc as [H1 H2]. split; assumption.
Qed.

Lemma accumulated_changes s s' :
  changes env minted s s' ->
  consistent env minted s -> accumulated env s -> accumulated env s'.
Proof.
  induction 1 as [|s s' s'' Hchs IH Hch]; intros Hc Hacc; [exact Hacc|].
  eapply accumulated_change; [exact Hch | | now apply IH].
  eapply consistent_changes; [exact canonical_is_sound | eassumption | eassumption].
Qed.

Lemma reachable_accumulated s :
  reachable env minted s -> consistent env minted s /\ accumulated env s.
Proof.
  intros Hr. destruct (reachable_consistent env minted canonical_is_sound s Hr) as [Hc Hch].
  split; [exact Hc|].
  eapply accumulated_changes;
    [exact Hch | apply consistent_initial | apply accumulated_initial].
Qed.

End Accumulation.

(** ** The calls in the stores of a run *)

Lemma install_block_appended block td s s1 :
  appended block td s
    (install_block (_latestBlockNumber s + 1) (hash block) td block
       (set_latestBlockNumber (_latestBlockNumber s + 1) s1)).
Proof.
  split; [reflexivity|].
  split; [cbn; apply lookup_insert_eq|].
  split; [cbn; apply lookup_insert_eq|].
  split; [cbn; apply lookup_insert_eq|].
  intros t Ht. now apply lookup_install_transactions.
Qed.

(** In a consistent store [putBlock] succeeds as soon as both checks pass. *)
Lemma putBlock_consistent env minted block s parent s1 :
  sound env minted ->
  consistent env minted s ->
  number (header block) = _latestBlockNumber s + 1 ->
  getLatestBlock env s = (Ok parent, s1) ->
  parentHash (header block) = hash parent ->
  exists parentTD,
    _totalDifficultyByBlockHash s1 !! hash parent = Some parentTD /\
    putBlock env block s =
    (Ok block,
     install_block (_latestBlockNumber s + 1) (hash block)
       (if number (header block) =? 0 then difficulty (header block)
        else parentTD + difficulty (header block))
       block (set_latestBlockNumber (_latestBlockNumber s + 1) s1)).
Proof.
  intros Hsound Hc Hn Hl Hp.
  destruct (getLatestBlock_stored env minted Hsound s parent s1 Hc Hl)
    as (_ & _ & _ & Hst & [tp Htp]).
  exists tp. split; [exact Htp|]. now apply (putBlock_ok env block s parent s1 tp).
Qed.

(** In a consistent store whose latest number is below [2^26 - 1],
    [_delBlock] of a block above the fork block number runs to its end. *)
Lemma delBlock_consistent env minted h s b :
  consistent env minted s ->
  _blocksByHash s !! h = Some b ->
  _forkBlockNumber env < number (header b) ->
  _latestBlockNumber s < 2 ^ 26 - 1 ->
  _delBlock env h s = (Ok tt, cut_at (number (header b)) s).
Proof.
  intros Hc Hb Hlt HL.
  pose proof (consistent_local _ _ _ Hc h b Hb Hlt) as Hloc.
  destruct (consistent_byNumber _ _ _ Hc _ _ Hloc) as (_ & _ & Hle & _).
  apply delBlock_ok; [exact Hb | exact Hlt | lia | lia |].
  intros i Hi. apply (consistent_suffix env minted s Hc HL). lia.
Qed.

(** A block stored above the fork block number was handed to [putBlock]:
    no block from upstream is stored there. *)
Lemma stored_above_fork_minted env minted s h b :
  sound env minted ->
  reachable env minted s ->
  _blocksByHash s !! h = Some b ->
  _forkBlockNumber env < number (header b) ->
  minted b.
Proof.
  intros Hsound Hr Hb Hlt.
  destruct (reachable_consistent env minted Hsound s Hr) as [Hc _].
  destruct (consistent_byHash _ _ _ Hc h b Hb) as (_ & [Hm|(key & r & n & h' & Hs & ->)] & _);
    [exact Hm|].
  destruct (sound_block _ _ Hsound _ _ _ _ Hs) as [_ Hn].
  pose proof (served_below _ _ _ _ _ Hs). lia.
Qed.

(** In a run [putBlock] of a minted block never throws "This should never
    happen". *)
Lemma putBlock_never_impossible env minted block s :
  sound env minted ->
  reachable env minted s ->
  ~ raises (fst (putBlock env block s)) ThisShouldNeverHappen.
Proof.
  intros Hsound Hr. unfold raises.
  destruct (reachable_consistent env minted Hsound s Hr) as [Hc _].
  destruct (Z.eq_dec (number (header block)) (_latestBlockNumber s + 1)) as [Hn|Hn].
  2:{ rewrite putBlock_run. apply Z.eqb_neq in Hn. rewrite Hn. discriminate. }
  destruct (getLatestBlock env s) as [[parent|e] s1] eqn:Hl.
  2:{ rewrite putBlock_run, (proj2 (Z.eqb_eq _ _) Hn), Hl. cbn.
      rewrite getLatestBlock_run in Hl. apply getBlock_errors in Hl.
      intros [= ->]. destruct Hl; discriminate. }
  destruct (N.eq_dec (parentHash (header block)) (hash parent)) as [Hp|Hp].
  2:{ rewrite putBlock_run, (proj2 (Z.eqb_eq _ _) Hn), Hl. cbn [negb].
      apply N.eqb_neq in Hp. rewrite Hp. discriminate. }
  destruct (putBlock_consistent env minted block s parent s1 Hsound Hc Hn Hl Hp)
    as (tp & _ & ->). discriminate.
Qed.

(** * The operations of the store, one by one *)

(** C1, as amended.  Let [s1] be the store [getLatestBlock()] leaves: [s]
    itself when the latest block is stored under its number, and otherwise
    [s] with the latest block loaded from upstream.  When the number of
    [block] is at most [2^26 - 2] and the hashes of its transactions are
    absent from [_transactions] and [_transactionToBlock] of [s1], a
    successful [putBlock(block)] followed by [delBlock(block.hash())] succeeds
    and leaves exactly [s1], with the latest number of [s]: in every store of
    a run, and in any store where the number and hash of [block] are absent
    from the indexes of [s1] and the latest block is stored under its number
    in [s1]. *)
Theorem append_then_delete env (block : Block) (s s2 : ForkBlockchain) :
  putBlock env block s = (Ok block, s2) ->
  number (header block) <= 2 ^ 26 - 2 ->
  (forall t, t ∈ transactions block ->
     _transactions (snd (getLatestBlock env s)) !! tx_hash t = None /\
     _transactionToBlock (snd (getLatestBlock env s)) !! tx_hash t = None) ->
  (forall minted,
     sound env minted -> reachable env minted s -> minted block ->
     delBlock env (hash block) s2 = (Ok tt, snd (getLatestBlock env s))) /\
  (forall parent,
     _forkBlockNumber env <= _latestBlockNumber s ->
     fst (getLatestBlock env s) = Ok parent ->
     _blocksByNumber (snd (getLatestBlock env s)) !! _latestBlockNumber s = Some parent ->
     _blocksByNumber (snd (getLatestBlock env s)) !! number (header block) = None ->
     _blocksByHash (snd (getLatestBlock env s)) !! hash block = None ->
     _totalDifficultyByBlockHash (snd (getLatestBlock env s)) !! hash block = None ->
     delBlock env (hash block) s2 = (Ok tt, snd (getLatestBlock env s))) /\
  _latestBlockNumber (snd (getLatestBlock env s)) = _latestBlockNumber s /\
  (is_Some (_blocksByNumber s !! _latestBlockNumber s) ->
   snd (getLatestBlock env s) = s).
Proof.
  intros Hput Hbound Htx.
  destruct (getLatestBlock env s) as [res s1] eqn:Hl. cbn [fst snd] in *.
  assert (HL : _latestBlockNumber s1 = _latestBlockNumber s).
  { rewrite getLatestBlock_run in Hl.
    pose proof (getBlock_latest env (OfNumber (_latestBlockNumber s)) s) as H.
    now rewrite Hl in H. }
  assert (Hres : exists parent, res = Ok parent /\
                   number (header block) = _latestBlockNumber s + 1).
  { rewrite putBlock_run, Hl in Hput.
    destruct (number (header block) =? _latestBlockNumber s + 1) eqn:E; [|discriminate].
    apply Z.eqb_eq in E. destruct res as [parent|e]; [eauto | discriminate]. }
  destruct Hres as (parent & -> & Hnum).
  split; [|split; [|split]].
  - intros minted Hsound Hr Hm.
    destruct (reachable_consistent env minted Hsound s Hr) as [Hc _].
    destruct (getLatestBlock_stored env minted Hsound s parent s1 Hc Hl)
      as (Hc1 & _ & _ & Hst & _).
    pose proof (consistent_latest _ _ _ Hc) as HF.
    assert (Hn : _blocksByNumber s1 !! number (header block) = None).
    { destruct (_blocksByNumber s1 !! number (header block)) as [c|] eqn:E; [|reflexivity].
      destruct (consistent_byNumber _ _ _ Hc1 _ _ E) as (_ & _ & Hle & _). lia. }
    assert (Hh : _blocksByHash s1 !! hash block = None).
    { destruct (_blocksByHash s1 !! hash block) as [c|] eqn:E; [|reflexivity].
      destruct (consistent_byHash _ _ _ Hc1 _ _ E) as (Hhc & Hkc & _).
      assert (c = block)
        by (apply (sound_hash _ _ Hsound); [exact Hkc | now left | exact Hhc]).
      subst c. rewrite (consistent_local _ _ _ Hc1 _ _ E) in Hn by lia. discriminate. }
    assert (Htd : _totalDifficultyByBlockHash s1 !! hash block = None).
    { destruct (_totalDifficultyByBlockHash s1 !! hash block) as [t|] eqn:E; [|reflexivity].
      destruct (consistent_total _ _ _ Hc1 (hash block)) as [c Hcb]; [eauto|]. congruence. }
    apply (append_then_delete_fresh env block parent s s1 s2); try assumption. lia.
  - intros parent' HF [= <-] Hst Hn Hh Htd.
    apply (append_then_delete_fresh env block parent s s1 s2); try assumption. lia.
  - exact HL.
  - intros [p Hp]. rewrite getLatestBlock_run in Hl.
    rewrite (getBlock_cached env _ s p) in Hl; [congruence| |exact Hp].
    cbn. rewrite Z.gtb_ltb. apply Z.ltb_irrefl.
Qed.

Lemma append_then_delete_witness :
  delBlock demoEnv (hash block11) demoAppended = (Ok tt, demoLoaded) /\
  _latestBlockNumber demoLoaded = _latestBlockNumber (initial demoEnv).
Proof.
  destruct (append_then_delete demoEnv block11 (initial demoEnv) demoAppended)
    as (Hrun & _ & HL & _).
  - vm_compute. reflexivity.
  - vm_compute. discriminate.
  - intros t Ht. apply list_elem_of_singleton in Ht as ->. split; vm_compute; reflexivity.
  - split; [|exact HL].
    apply (Hrun demoMinted demo_sound (reachable_initial demoEnv demoMinted)).
    reflexivity.
Defined.

(** C1, as stated, fails on a fresh fork: [putBlock] loads the latest block
    (the fork block) from upstream, and [delBlock] does not remove it, so
    [_blocksByNumber] is not the empty map it was. *)
Lemma append_then_delete_keeps_fork_block :
  _blocksByNumber (initial demoEnv) !! 10 = None /\
  _blocksByNumber (snd (delBlock demoEnv (hash block11)
                          (snd (putBlock demoEnv block11 (initial demoEnv))))) !! 10
    = Some (demoBlock rpc10) /\
  ~ append_delete_restores demoEnv block11 (initial demoEnv).
Proof.
  split; [vm_compute; reflexivity|]. split; [vm_compute; reflexivity|].
  intros H. destruct (H demoAppended) as (s3 & Hd & _ & Hb & _).
  - vm_compute. reflexivity.
  - assert (E : s3 = snd (delBlock demoEnv (hash block11) demoAppended)) by now rewrite Hd.
    rewrite E in Hb. apply (f_equal (fun m => m !! 10)) in Hb.
    vm_compute in Hb. discriminate.
Qed.

(** The same with a transaction fetched by [getTransaction] beforehand: when
    the appended block carries it, [delBlock] takes it out of [_transactions]. *)
Lemma append_then_delete_drops_fetched_transaction :
  _transactions demoFetched !! 7%N = Some (demoTransaction rtx7) /\
  fst (putBlock demoEnv replay11 demoFetched) = Ok replay11 /\
  fst (delBlock demoEnv (hash replay11) (snd (putBlock demoEnv replay11 demoFetched)))
    = Ok tt /\
  _transactions (snd (delBlock demoEnv (hash replay11)
                        (snd (putBlock demoEnv replay11 demoFetched)))) !! 7%N = None.
Proof. repeat split; vm_compute; reflexivity. Qed.

(** [deleteBlock(h)] ([delBlock], [_delBlock]) where the loop test of
    [_delBlock] is the comparison it is written for.  It throws "Block not
    found" when [h] is not in [_blocksByHash], leaving the store and its log
    of requests as they are: upstream is not asked.  It throws "Cannot delete
    remote block" when the block's number is at most the fork block number.
    Otherwise, [n] being the block's number and the latest number being at
    most [2^26 - 2], it removes the block at each of the numbers [n] to the
    latest one from [_blocksByNumber], [_blocksByHash] and
    [_totalDifficultyByBlockHash] and each of their transactions from
    [_transactions] and [_transactionToBlock], removes nothing else, and sets
    the latest number to [n - 1]: in any store where these numbers are all in
    [_blocksByNumber], and so in every store of a run. *)
Lemma delBlock_spec env (h : N) (s : ForkBlockchain) :
  (_blocksByHash s !! h = None ->
     delBlock env h s = (Err BlockNotFound, s)) /\
  (forall b,
     _blocksByHash s !! h = Some b ->
     number (header b) <= _forkBlockNumber env ->
     delBlock env h s = (Err CannotDeleteRemote, s)) /\
  (forall b,
     _blocksByHash s !! h = Some b ->
     _forkBlockNumber env < number (header b) ->
     number (header b) <= _latestBlockNumber s + 1 ->
     _latestBlockNumber s <= 2 ^ 26 - 2 ->
     (forall i, number (header b) <= i <= _latestBlockNumber s ->
                is_Some (_blocksByNumber s !! i)) ->
     exists s',
       delBlock env h s = (Ok tt, s') /\
       removed_from (number (header b)) s s') /\
  (forall minted b,
     sound env minted ->
     reachable env minted s ->
     _blocksByHash s !! h = Some b ->
     _forkBlockNumber env < number (header b) ->
     _latestBlockNumber s <= 2 ^ 26 - 2 ->
     exists s',
       delBlock env h s = (Ok tt, s') /\
       removed_from (number (header b)) s s').
Proof.
  unfold delBlock. split; [|split; [|split]].
  - apply delBlock_unknown.
  - intros b. apply delBlock_remote.
  - intros b Hb Hlt Hle HL Hall. exists (cut_at (number (header b)) s).
    split; [now apply delBlock_ok | apply cut_at_removed].
  - intros minted b Hsound Hr Hb Hlt HL.
    destruct (reachable_consistent env minted Hsound s Hr) as [Hc _].
    exists (cut_at (number (header b)) s).
    split; [|apply cut_at_removed].
    apply (delBlock_consistent env minted); [exact Hc | exact Hb | exact Hlt |].
    change (2 ^ 26 - 2) with 67108862 in HL. change (2 ^ 26 - 1) with 67108863. lia.
Qed.

Lemma delBlock_spec_witness :
  delBlock demoEnv 4242%N demoAppended = (Err BlockNotFound, demoAppended) /\
  delBlock demoEnv 1010%N demoAppended = (Err CannotDeleteRemote, demoAppended) /\
  exists s', delBlock demoEnv 1011%N demoAppended = (Ok tt, s') /\
             removed_from 11 demoAppended s'.
Proof.
  destruct (delBlock_spec demoEnv 4242%N demoAppended) as (H1 & _).
  destruct (delBlock_spec demoEnv 1010%N demoAppended) as (_ & H2 & _).
  destruct (delBlock_spec demoEnv 1011%N demoAppended) as (_ & _ & _ & H4).
  split; [|split].
  - apply H1. vm_compute. reflexivity.
  - apply (H2 (demoBlock rpc10)); vm_compute; [reflexivity | discriminate].
  - apply (H4 demoMinted block11);
      [exact demo_sound | exact demo_reachable | vm_compute; reflexivity
      | vm_compute; reflexivity | vm_compute; discriminate].
Defined.

(** From the latest number [2^26 - 1] on, in every store of a run,
    [delBlock(h)] of a block above the fork block number throws from its loop
    ("Number is too big" from the test, or "this should never happen" from
    the turn for a number where nothing is stored) once the blocks are
    removed, and the latest number stays where it was. *)
Lemma delBlock_beyond_26_bits env minted (h : N) (b : Block) (s : ForkBlockchain) :
  sound env minted ->
  reachable env minted s ->
  _blocksByHash s !! h = Some b ->
  _forkBlockNumber env < number (header b) ->
  2 ^ 26 - 1 <= _latestBlockNumber s ->
  exists e s',
    delBlock env h s = (Err e, s') /\
    (e = NumberIsTooBig \/ e = ThisShouldNeverHappen) /\
    _latestBlockNumber s' = _latestBlockNumber s /\
    _blocksByHash s' !! h = None /\
    _blocksByNumber s' !! _latestBlockNumber s' = None.
Proof.
  intros Hsound Hr Hb Hlt HL.
  destruct (reachable_consistent env minted Hsound s Hr) as [Hc _].
  pose proof (consistent_local _ _ _ Hc h b Hb Hlt) as Hloc.
  destruct (consistent_byNumber _ _ _ Hc _ _ Hloc) as (_ & _ & Hle & _).
  destruct (consistent_byHash _ _ _ Hc h b Hb) as (Hh & _).
  destruct (delBlock_outcome env minted h s b Hc Hb Hlt)
    as [[Hlow _]|(_ & e & He & E)]; [lia|].
  exists e, (trim_at (number (header b)) s). unfold delBlock.
  split; [exact E|]. split; [exact He|]. split; [reflexivity|].
  destruct (cut_at_removed (number (header b)) s) as (_ & _ & Hrem & _).
  split.
  - destruct (Hrem _ b (conj (Z.le_refl _) Hle) Hloc) as (_ & Hgone & _).
    rewrite Hh in Hgone. exact Hgone.
  - change (_latestBlockNumber (trim_at (number (header b)) s))
      with (_latestBlockNumber s).
    apply (cut_at_range (number (header b)) s). lia.
Qed.

(** C2, where the code departs from it.  In a store forked at block
    [2^26 - 2] that holds one block on top, [delBlock] of that block removes
    it, then throws "Number is too big" from the loop test and leaves
    [2^26 - 1] as the latest number, where C2 has it return with the latest
    number [2^26 - 2].  Forked at block [2^26] it throws "this should never
    happen" in the same way.  [getLatestBlock] then finds no block. *)
Theorem delBlock_beyond_26_bits_raises :
  _blocksByHash (appendedAt (2 ^ 26 - 2)) !! 5001%N = Some (blockOn (2 ^ 26 - 2)) /\
  _latestBlockNumber (appendedAt (2 ^ 26 - 2)) = 2 ^ 26 - 1 /\
  fst (delBlock (forkAt (2 ^ 26 - 2)) 5001%N (appendedAt (2 ^ 26 - 2)))
    = Err NumberIsTooBig /\
  _blocksByHash (snd (delBlock (forkAt (2 ^ 26 - 2)) 5001%N (appendedAt (2 ^ 26 - 2))))
    !! 5001%N = None /\
  _latestBlockNumber
    (snd (delBlock (forkAt (2 ^ 26 - 2)) 5001%N (appendedAt (2 ^ 26 - 2))))
    = 2 ^ 26 - 1 /\
  fst (getLatestBlock (forkAt (2 ^ 26 - 2))
         (snd (delBlock (forkAt (2 ^ 26 - 2)) 5001%N (appendedAt (2 ^ 26 - 2)))))
    = Err BlockNotFound /\
  _blocksByHash (appendedAt (2 ^ 26)) !! 5001%N = Some (blockOn (2 ^ 26)) /\
  fst (delBlock (forkAt (2 ^ 26)) 5001%N (appendedAt (2 ^ 26)))
    = Err ThisShouldNeverHappen /\
  _blocksByHash (snd (delBlock (forkAt (2 ^ 26)) 5001%N (appendedAt (2 ^ 26))))
    !! 5001%N = None /\
  _latestBlockNumber (snd (delBlock (forkAt (2 ^ 26)) 5001%N (appendedAt (2 ^ 26))))
    = 2 ^ 26 + 1 /\
  ~ (exists s', delBlock (forkAt (2 ^ 26)) 5001%N (appendedAt (2 ^ 26)) = (Ok tt, s') /\
                removed_from (2 ^ 26 + 1) (appendedAt (2 ^ 26)) s').
Proof.
  repeat (split; [vm_compute; reflexivity|]).
  intros (s' & H & _).
  apply (f_equal fst) in H. vm_compute in H. discriminate.
Qed.

(** C3. [putBlock(block)] throws "Invalid block number" when the block's
    number is not the latest number plus one, and this check comes first: the
    store is untouched.  With the right number it throws "Invalid parent hash"
    when the parent hash differs from the hash of the latest block.  Otherwise
    it returns the block, moves the latest number up by one, puts the block
    under its number and hash with its total difficulty, and indexes each of
    its transactions in [_transactions] and [_transactionToBlock]: in any
    store where the latest block is stored with its total difficulty once
    [getLatestBlock] has answered, and so in every store of a run. *)
Theorem putBlock_spec env (block : Block) (s : ForkBlockchain) :
  (number (header block) <> _latestBlockNumber s + 1 ->
     putBlock env block s = (Err InvalidBlockNumber, s)) /\
  (forall parent s1,
     number (header block) = _latestBlockNumber s + 1 ->
     getLatestBlock env s = (Ok parent, s1) ->
     parentHash (header block) <> hash parent ->
     putBlock env block s = (Err InvalidParentHash, s1)) /\
  (forall parent s1 parentTD,
     number (header block) = _latestBlockNumber s + 1 ->
     getLatestBlock env s = (Ok parent, s1) ->
     parentHash (header block) = hash parent ->
     _blocksByNumber s1 !! _latestBlockNumber s = Some parent ->
     _totalDifficultyByBlockHash s1 !! hash parent = Some parentTD ->
     exists s',
       putBlock env block s = (Ok block, s') /\
       appended block
         (if number (header block) =? 0 then difficulty (header block)
          else parentTD + difficulty (header block)) s s') /\
  (forall minted parent s1,
     sound env minted ->
     reachable env minted s ->
     number (header block) = _latestBlockNumber s + 1 ->
     getLatestBlock env s = (Ok parent, s1) ->
     parentHash (header block) = hash parent ->
     exists s' td,
       putBlock env block s = (Ok block, s') /\
       appended block td s s').
Proof.
  split; [|split; [|split]].
  - intros Hn. rewrite putBlock_run.
    apply Z.eqb_neq in Hn. now rewrite Hn.
  - intros parent s1 Hn Hl Hp. rewrite putBlock_run.
    rewrite (proj2 (Z.eqb_eq _ _) Hn), Hl. cbn [negb].
    apply N.eqb_neq in Hp. now rewrite Hp.
  - intros parent s1 parentTD Hn Hl Hp Hc Htd.
    eexists. split; [eapply putBlock_ok; eassumption|].
    apply install_block_appended.
  - intros minted parent s1 Hsound Hr Hn Hl Hp.
    destruct (reachable_consistent env minted Hsound s Hr) as [Hc _].
    destruct (putBlock_consistent env minted block s parent s1 Hsound Hc Hn Hl Hp)
      as (tp & _ & E).
    eexists. eexists. split; [exact E|]. apply install_block_appended.
Qed.

Lemma putBlock_spec_witness :
  (exists s',
     putBlock demoEnv block11 (initial demoEnv) = (Ok block11, s') /\
     appended block11 6000 (initial demoEnv) s') /\
  (exists s' td,
     putBlock demoEnv block11 demoLoaded = (Ok block11, s') /\
     appended block11 td demoLoaded s').
Proof.
  destruct (putBlock_spec demoEnv block11 (initial demoEnv)) as (_ & _ & H & _).
  destruct (putBlock_spec demoEnv block11 demoLoaded) as (_ & _ & _ & H').
  split.
  - apply (H (demoBlock rpc10) demoLoaded 5000); vm_compute; reflexivity.
  - apply (H' demoMinted (demoBlock rpc10) demoLoaded).
    + exact demo_sound.
    + apply reachable_getBlock, reachable_initial.
    + reflexivity.
    + vm_compute. reflexivity.
    + reflexivity.
Defined.

(** Beyond the latest number [getBlock] throws "Block not found"; the store
    is left as it is, its log of requests included: nothing is asked
    upstream. *)
Lemma getBlock_beyond_latest env (n : Z) (s : ForkBlockchain) :
  n > _latestBlockNumber s ->
  getBlock env (OfNumber n) s = (Err BlockNotFound, s) /\
  rpcLog (snd (getBlock env (OfNumber n) s)) = rpcLog s.
Proof.
  intros Hn.
  assert (E : getBlock env (OfNumber n) s = (Err BlockNotFound, s)).
  { rewrite getBlock_run. cbn [beyond_latest].
    now rewrite (proj2 (Z.gtb_gt _ _) Hn). }
  now rewrite E.
Qed.

(** C4. For a number beyond the latest one [getBlock] asks nothing upstream
    and leaves the store alone, as claimed, but it does not return an absent
    block: on a store forked at block 10, [getBlock(11)] throws "Block not
    found". *)
Theorem getBlock_beyond_latest_raises :
  11 > _latestBlockNumber (initial demoEnv) /\
  getBlock demoEnv (OfNumber 11) (initial demoEnv)
    = (Err BlockNotFound, initial demoEnv) /\
  raises (fst (getBlock demoEnv (OfNumber 11) (initial demoEnv))) BlockNotFound /\
  ~ returns (fst (getBlock demoEnv (OfNumber 11) (initial demoEnv))).
Proof.
  assert (H : raises (fst (getBlock demoEnv (OfNumber 11) (initial demoEnv))) BlockNotFound)
    by (vm_compute; reflexivity).
  split; [vm_compute; reflexivity|].
  split; [apply getBlock_beyond_latest; vm_compute; reflexivity|].
  split; [exact H|]. exact (raises_not_returns _ _ H).
Qed.

(** In every state of the store, when [getBlock] asks upstream and the
    block that comes back has a number above the fork block number, the call
    throws "Block not found" and installs nothing: the five indexes and the
    latest number are as before, only the request is logged. *)
Lemma remote_block_beyond_fork env (key : BlockHashOrNumber) (s : ForkBlockchain) r n :
  beyond_latest key s = false ->
  cached key s = None ->
  answer env key = Resolved (Some r) ->
  rpc_number r = Some n ->
  n > _forkBlockNumber env ->
  getBlock env key s = (Err BlockNotFound, log_call (request key) s) /\
  same_indexes s (snd (getBlock env key s)) /\
  _latestBlockNumber (snd (getBlock env key s)) = _latestBlockNumber s.
Proof.
  intros Hb Hc Ha Hn Hgt.
  assert (E : getBlock env key s = (Err BlockNotFound, log_call (request key) s)).
  { rewrite getBlock_run, Hb, Hc, Ha. unfold accepted. rewrite Hn.
    destruct (rpc_hash r); [|reflexivity].
    now rewrite (proj2 (Z.gtb_gt _ _) Hgt). }
  rewrite E. repeat split.
Qed.

(** C5. A remote block above the fork block number is not installed, as
    claimed, but [getBlock] does not return an absent block for it: on a
    store forked at block 9, asked for the hash of upstream block 10, it
    throws "Block not found". *)
Theorem remote_block_beyond_fork_raises :
  answer demoEnv9 (OfHash 1010%N) = Resolved (Some rpc10) /\
  rpc_number rpc10 = Some 10 /\ 10 > _forkBlockNumber demoEnv9 /\
  same_indexes (initial demoEnv9)
    (snd (getBlock demoEnv9 (OfHash 1010%N) (initial demoEnv9))) /\
  raises (fst (getBlock demoEnv9 (OfHash 1010%N) (initial demoEnv9))) BlockNotFound /\
  ~ returns (fst (getBlock demoEnv9 (OfHash 1010%N) (initial demoEnv9))).
Proof.
  assert (H : raises (fst (getBlock demoEnv9 (OfHash 1010%N) (initial demoEnv9))) BlockNotFound)
    by (vm_compute; reflexivity).
  split; [reflexivity|]. split; [reflexivity|]. split; [vm_compute; reflexivity|].
  split.
  - apply (remote_block_beyond_fork demoEnv9 (OfHash 1010%N) (initial demoEnv9) rpc10 10);
      vm_compute; reflexivity.
  - split; [exact H|]. exact (raises_not_returns _ _ H).
Qed.

(** C6. With an upstream that answers with the block it was asked for and
    hashes that do not collide, in every store of a run each block of
    [_blocksByHash] has an entry of [_totalDifficultyByBlockHash] under the
    same hash.  Hence after a successful [getBlock(h)],
    [getBlockTotalDifficulty(h)] returns the stored total difficulty, and in
    no store of a run does [getBlockTotalDifficulty] throw "This should never
    happen". *)
Theorem byHash_has_totalDifficulty env minted (s : ForkBlockchain) :
  sound env minted ->
  reachable env minted s ->
  (forall h b, _blocksByHash s !! h = Some b ->
     is_Some (_totalDifficultyByBlockHash s !! h)) /\
  (forall h b s1,
     getBlock env (OfHash h) s = (Ok b, s1) ->
     exists t, _totalDifficultyByBlockHash s1 !! h = Some t /\
               getBlockTotalDifficulty env h s1 = (Ok t, s1)) /\
  (forall h, ~ raises (fst (getBlockTotalDifficulty env h s)) ThisShouldNeverHappen).
Proof.
  intros Hsound Hr.
  assert (Hafter : forall h b s1,
            getBlock env (OfHash h) s = (Ok b, s1) ->
            is_Some (_totalDifficultyByBlockHash s1 !! h)).
  { intros h b s1 Hg.
    assert (Hr1 : reachable env minted s1).
    { pose proof (reachable_getBlock env minted (OfHash h) s Hr) as H.
      now rewrite Hg in H. }
    destruct (reachable_consistent env minted Hsound s1 Hr1) as [Hc1 _].
    pose proof (getBlock_by_hash_stored env minted h s b s1 Hsound Hg) as Hb.
    now destruct (consistent_byHash _ _ _ Hc1 h b Hb) as (_ & _ & Htd). }
  split; [|split].
  - intros h b Hb.
    destruct (reachable_consistent env minted Hsound s Hr) as [Hc _].
    now destruct (consistent_byHash _ _ _ Hc h b Hb) as (_ & _ & Htd).
  - intros h b s1 Hg. destruct (Hafter h b s1 Hg) as [t Ht].
    exists t. split; [exact Ht|].
    rewrite getBlockTotalDifficulty_run. now rewrite Ht.
  - intros h. unfold raises. rewrite getBlockTotalDifficulty_run.
    destruct (_totalDifficultyByBlockHash s !! h); [discriminate|].
    destruct (getBlock env (OfHash h) s) as [[b|e] s1] eqn:Hg.
    + destruct (Hafter h b s1 Hg) as [t Ht]. rewrite Ht. discriminate.
    + apply getBlock_errors in Hg. cbn. intros [= ->]. destruct Hg; discriminate.
Qed.
Lemma byHash_has_totalDifficulty_witness :
  (forall h b, _blocksByHash demoAppended !! h = Some b ->
     is_Some (_totalDifficultyByBlockHash demoAppended !! h)) /\
  (forall h b s1,
     getBlock demoEnv (OfHash h) demoAppended = (Ok b, s1) ->
     exists t, _totalDifficultyByBlockHash s1 !! h = Some t /\
               getBlockTotalDifficulty demoEnv h s1 = (Ok t, s1)) /\
  (forall h, ~ raises (fst (getBlockTotalDifficulty demoEnv h demoAppended))
                      ThisShouldNeverHappen).
Proof.
  exact (byHash_has_totalDifficulty demoEnv demoMinted demoAppended
           demo_sound demo_reachable).
Defined.


Lemma demo_reachable_full : reachable demoEnv demoMinted demoFull.
Proof. apply reachable_getBlock, demo_reachable. Qed.


(** For a hash that is not in [_transactions], [getTransaction] asks
    upstream.  When the record that comes back has no block number (a pending
    transaction) or a block number above the fork block number, the call
    throws "Transaction not found" and the indexes are as before.  When the
    block number is at most the fork block number, the transaction is put
    into [_transactions] under the hash of the record and returned;
    [_transactionToBlock] and the other indexes are as before. *)
Lemma getTransaction_spec env (h : N) (s : ForkBlockchain) :
  _transactions s !! h = None ->
  (forall r,
     getTransactionByHash (_jsonRpcClient env) h = Resolved (Some r) ->
     rtx_blockNumber r = None \/
       (exists n, rtx_blockNumber r = Some n /\ n > _forkBlockNumber env) ->
     getTransaction env h s
       = (Err TransactionNotFound, log_call (CallGetTransactionByHash h) s)) /\
  (forall r n,
     getTransactionByHash (_jsonRpcClient env) h = Resolved (Some r) ->
     rtx_blockNumber r = Some n ->
     n <= _forkBlockNumber env ->
     exists s',
       getTransaction env h s = (Ok (newTransaction env r), s') /\
       _transactions s' = <[rtx_hash r := newTransaction env r]> (_transactions s) /\
       _transactionToBlock s' = _transactionToBlock s /\
       _blocksByNumber s' = _blocksByNumber s /\
       _blocksByHash s' = _blocksByHash s /\
       _totalDifficultyByBlockHash s' = _totalDifficultyByBlockHash s /\
       _latestBlockNumber s' = _latestBlockNumber s).
Proof.
  intros Hnone. split.
  - intros r Ha Hr. unfold getTransaction.
    unfold bind at 1, gets at 1. rewrite Hnone.
    unfold bind at 1, await, bind at 1, modify at 1. rewrite Ha. cbn [ret].
    unfold _processRemoteTransaction.
    destruct Hr as [->|(n & -> & Hgt)]; [reflexivity|].
    now rewrite (proj2 (Z.gtb_gt _ _) Hgt).
  - intros r n Ha Hn Hle. unfold getTransaction.
    unfold bind at 1, gets at 1. rewrite Hnone.
    unfold bind at 1, await, bind at 1, modify at 1. rewrite Ha. cbn [ret].
    unfold _processRemoteTransaction. rewrite Hn.
    replace (n >? _forkBlockNumber env) with false
      by (symmetry; rewrite Z.gtb_ltb; apply Z.ltb_ge; lia).
    eexists. split; [reflexivity|]. repeat split.
Qed.

(** C8. A transaction of a block at or below the fork block number is put
    into [_transactions] only and returned, as claimed; but for a pending
    transaction, and for one of a block above the fork block number,
    [getTransaction] does not return an absent transaction: it throws
    "Transaction not found". *)
Theorem getTransaction_pending_raises :
  (_transactions (initial demoEnv) !! 70%N = None /\
   getTransactionByHash demoClient 70%N = Resolved (Some rtxPending) /\
   rtx_blockNumber rtxPending = None /\
   raises (fst (getTransaction demoEnv 70%N (initial demoEnv))) TransactionNotFound /\
   ~ returns (fst (getTransaction demoEnv 70%N (initial demoEnv)))) /\
  (_transactions (initial demoEnv9) !! 7%N = None /\
   getTransactionByHash demoClient 7%N = Resolved (Some rtx7) /\
   rtx_blockNumber rtx7 = Some 10 /\ 10 > _forkBlockNumber demoEnv9 /\
   raises (fst (getTransaction demoEnv9 7%N (initial demoEnv9))) TransactionNotFound /\
   ~ returns (fst (getTransaction demoEnv9 7%N (initial demoEnv9)))) /\
  (exists s',
     getTransaction demoEnv 7%N (initial demoEnv) = (Ok (demoTransaction rtx7), s') /\
     _transactions s' !! 7%N = Some (demoTransaction rtx7) /\
     _transactionToBlock s' !! 7%N = None).
Proof.
  assert (H : raises (fst (getTransaction demoEnv 70%N (initial demoEnv))) TransactionNotFound)
    by (vm_compute; reflexivity).
  assert (H9 : raises (fst (getTransaction demoEnv9 7%N (initial demoEnv9))) TransactionNotFound)
    by (vm_compute; reflexivity).
  split; [|split].
  - repeat split; try (vm_compute; reflexivity); try exact H.
    exact (raises_not_returns _ _ H).
  - repeat split; try (vm_compute; reflexivity); try exact H9.
    exact (raises_not_returns _ _ H9).
  - destruct (getTransaction_spec demoEnv 7%N (initial demoEnv)) as [_ Hin];
      [vm_compute; reflexivity|].
    destruct (Hin rtx7 10) as (s' & E & Ht & Hb & _);
      [vm_compute; reflexivity | reflexivity | vm_compute; discriminate |].
    exists s'. split; [exact E|]. rewrite Ht, Hb. split; vm_compute; reflexivity.
Qed.

(** [deleteLaterBlocks(block)] ([deleteAllFollowingBlocks]) where its guard
    is the comparison it is written for.  It throws "Invalid block" when no
    block is stored under the block's number or the one stored has another
    hash; then throws "Cannot delete remote block" when the next number is at
    most the fork block number; then, the next number being at most
    [2^26 - 1], does nothing when no block is stored under it; and otherwise
    runs [_delBlock] on the hash of the block stored there, which in every
    store of a run with a latest number of at most [2^26 - 2] removes that
    block and every block after it, and leaves the block's number as the
    latest one. *)
Lemma deleteAllFollowingBlocks_spec env (block : Block) (s : ForkBlockchain) :
  (_blocksByNumber s !! number (header block) = None ->
     deleteAllFollowingBlocks env block s = (Err InvalidBlock, s)) /\
  (forall saved,
     _blocksByNumber s !! number (header block) = Some saved ->
     hash saved <> hash block ->
     deleteAllFollowingBlocks env block s = (Err InvalidBlock, s)) /\
  (forall saved,
     _blocksByNumber s !! number (header block) = Some saved ->
     hash saved = hash block ->
     number (header block) + 1 <= _forkBlockNumber env ->
     deleteAllFollowingBlocks env block s = (Err CannotDeleteRemote, s)) /\
  (forall saved,
     _blocksByNumber s !! number (header block) = Some saved ->
     hash saved = hash block ->
     _forkBlockNumber env < number (header block) + 1 ->
     number (header block) + 1 <= 2 ^ 26 - 1 ->
     _blocksByNumber s !! (number (header block) + 1) = None ->
     deleteAllFollowingBlocks env block s = (Ok tt, s)) /\
  (forall saved next,
     _blocksByNumber s !! number (header block) = Some saved ->
     hash saved = hash block ->
     _forkBlockNumber env < number (header block) + 1 ->
     number (header block) + 1 <= 2 ^ 26 - 1 ->
     _blocksByNumber s !! (number (header block) + 1) = Some next ->
     deleteAllFollowingBlocks env block s = _delBlock env (hash next) s /\
     forall minted,
       sound env minted ->
       reachable env minted s ->
       _latestBlockNumber s <= 2 ^ 26 - 2 ->
       exists s',
         deleteAllFollowingBlocks env block s = (Ok tt, s') /\
         removed_from (number (header block) + 1) s s').
Proof.
  pose proof (number_nonneg (header block)) as H0.
  assert (Hpass : forall saved,
    _blocksByNumber s !! number (header block) = Some saved ->
    hash saved = hash block ->
    _forkBlockNumber env < number (header block) + 1 ->
    number (header block) + 1 <= 2 ^ 26 - 1 ->
    deleteAllFollowingBlocks env block s =
    match _blocksByNumber s !! (number (header block) + 1) with
    | Some next => _delBlock env (hash next) s
    | None => (Ok tt, s)
    end).
  { intros saved Hs Hh Hlt Hfit. unfold deleteAllFollowingBlocks.
    unfold bind at 1, gets at 1. rewrite Hs.
    rewrite (proj2 (N.eqb_eq _ _) Hh). cbn [negb].
    rewrite gten_before by (change (2 ^ 26 - 1) with 67108863 in Hfit; lia).
    unfold bind at 1, lift at 1.
    unfold bind at 1, gets at 1.
    destruct (_blocksByNumber s !! (number (header block) + 1)); reflexivity. }
  split; [|split; [|split; [|split]]].
  - intros Hs. unfold deleteAllFollowingBlocks, bind at 1, gets at 1. now rewrite Hs.
  - intros saved Hs Hne. unfold deleteAllFollowingBlocks, bind at 1, gets at 1.
    rewrite Hs. apply N.eqb_neq in Hne. now rewrite Hne.
  - intros saved Hs Hh Hle. unfold deleteAllFollowingBlocks, bind at 1, gets at 1.
    rewrite Hs, (proj2 (N.eqb_eq _ _) Hh). cbn [negb].
    rewrite gten_from by lia. reflexivity.
  - intros saved Hs Hh Hlt Hfit Hnone.
    rewrite (Hpass saved Hs Hh Hlt Hfit). now rewrite Hnone.
  - intros saved next Hs Hh Hlt Hfit Hnext.
    rewrite (Hpass saved Hs Hh Hlt Hfit), Hnext. split; [reflexivity|].
    intros minted Hsound Hr HL.
    destruct (reachable_consistent env minted Hsound s Hr) as [Hc _].
    destruct (consistent_byNumber _ _ _ Hc _ _ Hnext) as (Hnum & _).
    pose proof (consistent_indexed _ _ _ Hc _ _ Hnext) as Hix.
    exists (cut_at (number (header next)) s). split.
    + apply (delBlock_consistent env minted); [exact Hc | exact Hix | lia |].
      change (2 ^ 26 - 2) with 67108862 in HL. change (2 ^ 26 - 1) with 67108863. lia.
    + rewrite Hnum. apply cut_at_removed.
Qed.

Lemma deleteAllFollowingBlocks_spec_witness :
  exists s',
    deleteAllFollowingBlocks demoEnv (demoBlock rpc10) demoAppended = (Ok tt, s') /\
    removed_from 11 demoAppended s'.
Proof.
  destruct (deleteAllFollowingBlocks_spec demoEnv (demoBlock rpc10) demoAppended)
    as (_ & _ & _ & _ & H).
  destruct (H (demoBlock rpc10) block11) as [_ H'];
    [vm_compute; reflexivity | reflexivity | vm_compute; reflexivity
    | vm_compute; discriminate | vm_compute; reflexivity |].
  apply (H' demoMinted demo_sound demo_reachable). vm_compute. discriminate.
Defined.

(** C9, where the code departs from it.  In a store forked at block [2^26]
    that holds two blocks on top, [deleteAllFollowingBlocks] of the first of
    them throws "Cannot delete remote block" although the next number is two
    above the fork block number, where C9 has it delete the second block; the
    store is left as it is.  In a store forked at block [2^26 - 2] that holds
    one block on top, [deleteAllFollowingBlocks] of that block throws "Number
    is too big", where C9 has it succeed as a no-op. *)
Theorem deleteAllFollowingBlocks_beyond_26_bits_raises :
  _blocksByNumber (appendedTwiceAt (2 ^ 26)) !! (2 ^ 26 + 1) = Some (blockOn (2 ^ 26)) /\
  _blocksByNumber (appendedTwiceAt (2 ^ 26)) !! (2 ^ 26 + 2) = Some (blockOver (2 ^ 26)) /\
  number (header (blockOn (2 ^ 26))) + 1 > _forkBlockNumber (forkAt (2 ^ 26)) /\
  deleteAllFollowingBlocks (forkAt (2 ^ 26)) (blockOn (2 ^ 26)) (appendedTwiceAt (2 ^ 26))
    = (Err CannotDeleteRemote, appendedTwiceAt (2 ^ 26)) /\
  _blocksByNumber (appendedAt (2 ^ 26 - 2)) !! (2 ^ 26 - 1) = Some (blockOn (2 ^ 26 - 2)) /\
  _blocksByNumber (appendedAt (2 ^ 26 - 2)) !! (2 ^ 26) = None /\
  deleteAllFollowingBlocks (forkAt (2 ^ 26 - 2)) (blockOn (2 ^ 26 - 2))
    (appendedAt (2 ^ 26 - 2))
    = (Err NumberIsTooBig, appendedAt (2 ^ 26 - 2)).
Proof.
  repeat (split; [vm_compute; reflexivity|]). vm_compute. reflexivity.
Qed.

(** C10, as amended.  When [putBlock(block)] throws "Invalid block number"
    the store is untouched.  When it throws "Invalid parent hash" the latest
    number is unchanged and the store is the one [getLatestBlock()] leaves:
    untouched when the latest block was stored under its number, and
    otherwise with the latest block loaded from upstream, which happens
    before the parent hash is compared. *)
Theorem putBlock_rejected env (block : Block) (s : ForkBlockchain) e s' :
  putBlock env block s = (Err e, s') ->
  e = InvalidBlockNumber \/ e = InvalidParentHash ->
  _latestBlockNumber s' = _latestBlockNumber s /\
  (e = InvalidBlockNumber -> s' = s) /\
  (e = InvalidParentHash -> s' = snd (getLatestBlock env s)) /\
  (is_Some (_blocksByNumber s !! _latestBlockNumber s) -> s' = s).
Proof.
  rewrite putBlock_run. intros H He.
  destruct (negb (number (header block) =? _latestBlockNumber s + 1)).
  { injection H as <- <-. repeat split; auto. discriminate. }
  destruct (getLatestBlock env s) as [[parent|e1] s1] eqn:Hl.
  2:{ injection H as <- <-. rewrite getLatestBlock_run in Hl.
      apply getBlock_errors in Hl. destruct He, Hl; congruence. }
  destruct (negb (parentHash (header block) =? hash parent)%N).
  - injection H as <- <-.
    split; [|split; [discriminate|split; [reflexivity|]]].
    + rewrite getLatestBlock_run in Hl.
      pose proof (getBlock_latest env (OfNumber (_latestBlockNumber s)) s) as HL.
      now rewrite Hl in HL.
    + intros [p Hp]. rewrite getLatestBlock_run in Hl.
      rewrite (getBlock_cached env _ s p) in Hl; [congruence| |exact Hp].
      cbn. rewrite Z.gtb_ltb. apply Z.ltb_irrefl.
  - destruct (_computeTotalDifficulty _ _ _) as [[td|e2] s3] eqn:Ec; [discriminate|].
    injection H as <- <-. apply computeTotalDifficulty_errors in Ec.
    destruct He, Ec as [|[|]]; congruence.
Qed.

Lemma putBlock_rejected_witness :
  _latestBlockNumber (snd (putBlock demoEnv orphan11 demoLoaded)) = 10 /\
  snd (putBlock demoEnv orphan11 demoLoaded) = demoLoaded.
Proof.
  destruct (putBlock_rejected demoEnv orphan11 demoLoaded InvalidParentHash
              (snd (putBlock demoEnv orphan11 demoLoaded)))
    as (HL & _ & _ & Hs).
  - vm_compute. reflexivity.
  - now right.
  - split; [exact HL|]. apply Hs. vm_compute. eauto.
Defined.

(** C10, as stated, fails on a fresh fork: the latest block is loaded from
    upstream before the parent hash is compared, and its transaction, which
    [orphan11] carries too, enters [_transactions] although the call throws
    "Invalid parent hash". *)
Lemma putBlock_rejected_loads_parent :
  raises (fst (putBlock demoEnv orphan11 (initial demoEnv))) InvalidParentHash /\
  _transactions (initial demoEnv) !! 7%N = None /\
  _transactions (snd (putBlock demoEnv orphan11 (initial demoEnv))) !! 7%N
    = Some (demoTransaction rtx7) /\
  ~ rejected_installs_nothing demoEnv orphan11 (initial demoEnv).
Proof.
  split; [vm_compute; reflexivity|].
  split; [vm_compute; reflexivity|].
  split; [vm_compute; reflexivity|].
  intros H.
  destruct (H InvalidParentHash (snd (putBlock demoEnv orphan11 (initial demoEnv))))
    as (_ & _ & _ & _ & Htx).
  - vm_compute. reflexivity.
  - now right.
  - destruct (Htx (demoTransaction rtx7)) as [Ht _]; [left|].
    vm_compute in Ht. discriminate.
Qed.

(** * Further properties of the store *)

(** ** Lookups and the cache *)

(** X1. A block that [getBlock] has returned is answered from the store from
    then on: when upstream answers a key with the record of that hash or
    number, a second [getBlock] with the same key returns the same block and
    leaves the store as it is, its log of requests included. *)
Theorem getBlock_twice env (key : BlockHashOrNumber) (s s1 : ForkBlockchain) (b : Block) :
  (forall r n h, served env key r n h ->
     match key with OfHash h0 => h = h0 | OfNumber n0 => n = n0 end) ->
  getBlock env key s = (Ok b, s1) ->
  getBlock env key s1 = (Ok b, s1).
Proof.
  intros Hkey Hg.
  destruct (getBlock_outcome env key s b s1 Hg) as [Hb [[Hc ->]|(_ & r & n & h & Hs & -> & ->)]].
  - now apply getBlock_cached.
  - pose proof (Hkey r n h Hs) as E.
    apply getBlock_cached.
    + destruct key; [reflexivity | exact Hb].
    + destruct key as [h0|n0]; subst; cbn; apply lookup_insert_eq.
Qed.

Lemma getBlock_twice_witness :
  getBlock demoEnv (OfHash 1010%N) demoLoaded = (Ok (demoBlock rpc10), demoLoaded) /\
  getBlock demoEnv (OfNumber 9) demoFull = (Ok (demoBlock rpc9), demoFull).
Proof.
  split.
  - apply (getBlock_twice demoEnv (OfHash 1010%N)
             (snd (getBlock demoEnv (OfHash 1010%N) demoLoaded))).
    + intros r n h Hs. exact (sound_key _ _ demo_sound _ _ _ _ Hs).
    + vm_compute. reflexivity.
  - apply (getBlock_twice demoEnv (OfNumber 9) demoAppended).
    + intros r n h Hs. exact (sound_key _ _ demo_sound _ _ _ _ Hs).
    + vm_compute. reflexivity.
Defined.

(** X2. In every store of a run, a block returned by [getBlock] for a
    number is afterwards returned for its hash as well, from the store and
    without a request. *)
Theorem getBlock_number_then_hash env minted (s s1 : ForkBlockchain) (n : Z) (b : Block) :
  sound env minted ->
  reachable env minted s ->
  getBlock env (OfNumber n) s = (Ok b, s1) ->
  number (header b) = n /\
  getBlock env (OfHash (hash b)) s1 = (Ok b, s1).
Proof.
  intros Hsound Hr Hg.
  assert (Hr1 : reachable env minted s1).
  { pose proof (reachable_getBlock env minted (OfNumber n) s Hr) as H.
    now rewrite Hg in H. }
  destruct (reachable_consistent env minted Hsound s1 Hr1) as [Hc1 _].
  assert (Hst : _blocksByNumber s1 !! n = Some b).
  { destruct (getBlock_outcome env _ _ _ _ Hg) as [_ [[Hca ->]|(_ & r & n' & h & Hs & -> & ->)]].
    - exact Hca.
    - pose proof (sound_key _ _ Hsound _ _ _ _ Hs) as E. cbn in E. subst n'.
      cbn. apply lookup_insert_eq. }
  destruct (consistent_byNumber _ _ _ Hc1 n b Hst) as (Hn & _).
  split; [exact Hn|].
  apply getBlock_cached; [reflexivity|].
  exact (consistent_indexed _ _ _ Hc1 n b Hst).
Qed.

Lemma getBlock_number_then_hash_witness :
  number (header (demoBlock rpc10)) = 10 /\
  getBlock demoEnv (OfHash 1010%N) demoLoaded = (Ok (demoBlock rpc10), demoLoaded).
Proof.
  apply (getBlock_number_then_hash demoEnv demoMinted (initial demoEnv) demoLoaded 10
           (demoBlock rpc10) demo_sound (reachable_initial demoEnv demoMinted)).
  vm_compute. reflexivity.
Defined.

(** ** [putBlock] *)

(** A successful [putBlock] passed both checks. *)
Lemma putBlock_success env block s b' s' :
  putBlock env block s = (Ok b', s') ->
  b' = block /\
  number (header block) = _latestBlockNumber s + 1 /\
  exists parent s1,
    getLatestBlock env s = (Ok parent, s1) /\
    parentHash (header block) = hash parent.
Proof.
  rewrite putBlock_run. intros H.
  destruct (number (header block) =? _latestBlockNumber s + 1) eqn:En; [|discriminate].
  apply Z.eqb_eq in En. cbn [negb] in H.
  destruct (getLatestBlock env s) as [[parent|e] s1]; [|discriminate].
  destruct (parentHash (header block) =? hash parent)%N eqn:Ep; [|discriminate].
  apply N.eqb_eq in Ep. cbn [negb] in H.
  destruct (_computeTotalDifficulty _ _ _) as [[td|e] s3]; [|discriminate].
  injection H as <- _. eauto 6.
Qed.

(** X3. In every store of a run, a block that [putBlock] has accepted is
    the latest block, and is returned from the store for its hash and for its
    number, without a request. *)
Theorem putBlock_then_getBlock env minted (block : Block) (s s' : ForkBlockchain) :
  sound env minted ->
  reachable env minted s ->
  putBlock env block s = (Ok block, s') ->
  getBlock env (OfHash (hash block)) s' = (Ok block, s') /\
  getBlock env (OfNumber (number (header block))) s' = (Ok block, s') /\
  getLatestBlock env s' = (Ok block, s').
Proof.
  intros Hsound Hr Hput.
  destruct (reachable_consistent env minted Hsound s Hr) as [Hc _].
  destruct (putBlock_success env block s block s' Hput) as (_ & Hn & parent & s1 & Hl & Hp).
  destruct (putBlock_consistent env minted block s parent s1 Hsound Hc Hn Hl Hp)
    as (tp & _ & E).
  rewrite E in Hput. injection Hput as <-.
  pose proof (install_block_appended block
                (if number (header block) =? 0 then difficulty (header block)
                 else tp + difficulty (header block)) s s1) as Happ.
  set (s2 := install_block _ _ _ _ _) in *.
  destruct Happ as (HL & Hbn & Hbh & _).
  assert (Hnum : getBlock env (OfNumber (_latestBlockNumber s + 1)) s2 = (Ok block, s2)).
  { apply getBlock_cached; [|exact Hbn].
    cbn [beyond_latest]. rewrite HL, Z.gtb_ltb. apply Z.ltb_irrefl. }
  split; [apply getBlock_cached; [reflexivity | exact Hbh]|].
  split; [rewrite Hn; exact Hnum|].
  rewrite getLatestBlock_run, HL. exact Hnum.
Qed.

Lemma putBlock_then_getBlock_witness :
  getBlock demoEnv (OfHash 1011%N) demoAppended = (Ok block11, demoAppended) /\
  getBlock demoEnv (OfNumber 11) demoAppended = (Ok block11, demoAppended) /\
  getLatestBlock demoEnv demoAppended = (Ok block11, demoAppended).
Proof.
  apply (putBlock_then_getBlock demoEnv demoMinted block11 (initial demoEnv) demoAppended
           demo_sound (reachable_initial demoEnv demoMinted)).
  vm_compute. reflexivity.
Defined.

(** X4. In every store of a run [putBlock] is all or nothing: when it throws,
    whatever the error, the latest number is unchanged and the store is the
    one [getLatestBlock()] leaves, which is the store itself whenever the
    latest block was stored under its number. *)
Theorem putBlock_all_or_nothing env minted (block : Block) (s s' : ForkBlockchain) e :
  sound env minted ->
  reachable env minted s ->
  putBlock env block s = (Err e, s') ->
  _latestBlockNumber s' = _latestBlockNumber s /\
  (s' = s \/ s' = snd (getLatestBlock env s)) /\
  (is_Some (_blocksByNumber s !! _latestBlockNumber s) -> s' = s).
Proof.
  intros Hsound Hr Hput.
  destruct (reachable_consistent env minted Hsound s Hr) as [Hc _].
  assert (HL : _latestBlockNumber (snd (getLatestBlock env s)) = _latestBlockNumber s).
  { rewrite getLatestBlock_run. apply getBlock_latest. }
  assert (Hcached : is_Some (_blocksByNumber s !! _latestBlockNumber s) ->
                    snd (getLatestBlock env s) = s).
  { intros [p Hp]. rewrite getLatestBlock_run.
    rewrite (getBlock_cached env _ s p); [reflexivity| |exact Hp].
    cbn. rewrite Z.gtb_ltb. apply Z.ltb_irrefl. }
  destruct (Z.eq_dec (number (header block)) (_latestBlockNumber s + 1)) as [Hn|Hn].
  2:{ rewrite putBlock_run in Hput. apply Z.eqb_neq in Hn. rewrite Hn in Hput.
      injection Hput as _ <-. auto. }
  destruct (getLatestBlock env s) as [[parent|e1] s1] eqn:Hl.
  2:{ rewrite putBlock_run, (proj2 (Z.eqb_eq _ _) Hn), Hl in Hput.
      injection Hput as _ <-. cbn [snd] in *. auto. }
  destruct (N.eq_dec (parentHash (header block)) (hash parent)) as [Hp|Hp].
  2:{ rewrite putBlock_run, (proj2 (Z.eqb_eq _ _) Hn), Hl in Hput. cbn [negb] in Hput.
      apply N.eqb_neq in Hp. rewrite Hp in Hput.
      injection Hput as _ <-. cbn [snd] in *. auto. }
  destruct (putBlock_consistent env minted block s parent s1 Hsound Hc Hn Hl Hp)
    as (tp & _ & E).
  rewrite E in Hput. discriminate.
Qed.

Lemma putBlock_all_or_nothing_witness :
  _latestBlockNumber (snd (putBlock demoEnv orphan11 demoAppended)) = 11 /\
  snd (putBlock demoEnv orphan11 demoAppended) = demoAppended.
Proof.
  destruct (putBlock_all_or_nothing demoEnv demoMinted orphan11 demoAppended
              (snd (putBlock demoEnv orphan11 demoAppended)) InvalidBlockNumber
              demo_sound demo_reachable)
    as (HL & _ & Hs).
  - vm_compute. reflexivity.
  - split; [exact HL|]. apply Hs. vm_compute. eauto.
Defined.

(** ** The indexes of a run *)

(** X5. In every store of a run: the latest number is at least the fork
    block number; a block stored under a number has that number, which is at
    most the latest one, and is stored under its hash too; a block stored
    under a hash has that hash; below a number that is stored, every number
    above the fork block number is stored; as long as the latest number is
    below [2^26 - 1], every number above the fork block number up to the
    latest one is stored; and a block stored above the fork block number is
    one that was handed to [putBlock], stored under its number. *)
Theorem store_invariants env minted (s : ForkBlockchain) :
  sound env minted ->
  reachable env minted s ->
  _forkBlockNumber env <= _latestBlockNumber s /\
  (forall n b, _blocksByNumber s !! n = Some b ->
     n <= _latestBlockNumber s /\ number (header b) = n /\
     _blocksByHash s !! hash b = Some b) /\
  (forall h b, _blocksByHash s !! h = Some b -> hash b = h) /\
  (forall i j, _forkBlockNumber env < j <= i ->
     is_Some (_blocksByNumber s !! i) -> is_Some (_blocksByNumber s !! j)) /\
  (_latestBlockNumber s < 2 ^ 26 - 1 ->
   forall i, _forkBlockNumber env < i <= _latestBlockNumber s ->
     is_Some (_blocksByNumber s !! i)) /\
  (forall h b, _blocksByHash s !! h = Some b ->
     _forkBlockNumber env < number (header b) ->
     minted b /\ _blocksByNumber s !! number (header b) = Some b).
Proof.
  intros Hsound Hr.
  destruct (reachable_consistent env minted Hsound s Hr) as [Hc _].
  split; [exact (consistent_latest _ _ _ Hc)|].
  split.
  { intros n b Hb. destruct (consistent_byNumber _ _ _ Hc n b Hb) as (Hn & _ & Hle & _).
    split; [exact Hle|]. split; [exact Hn|]. exact (consistent_indexed _ _ _ Hc n b Hb). }
  split.
  { intros h b Hb. now destruct (consistent_byHash _ _ _ Hc h b Hb). }
  split; [exact (consistent_closed _ _ _ Hc)|].
  split; [exact (consistent_suffix env minted s Hc)|].
  intros h b Hb Hlt. split.
  - exact (stored_above_fork_minted env minted s h b Hsound Hr Hb Hlt).
  - exact (consistent_local _ _ _ Hc h b Hb Hlt).
Qed.

Lemma store_invariants_witness :
  _forkBlockNumber demoEnv <= _latestBlockNumber demoFull /\
  (forall n b, _blocksByNumber demoFull !! n = Some b ->
     n <= _latestBlockNumber demoFull /\ number (header b) = n /\
     _blocksByHash demoFull !! hash b = Some b) /\
  (forall h b, _blocksByHash demoFull !! h = Some b -> hash b = h) /\
  (forall i j, _forkBlockNumber demoEnv < j <= i ->
     is_Some (_blocksByNumber demoFull !! i) -> is_Some (_blocksByNumber demoFull !! j)) /\
  (_latestBlockNumber demoFull < 2 ^ 26 - 1 ->
   forall i, _forkBlockNumber demoEnv < i <= _latestBlockNumber demoFull ->
     is_Some (_blocksByNumber demoFull !! i)) /\
  (forall h b, _blocksByHash demoFull !! h = Some b ->
     _forkBlockNumber demoEnv < number (header b) ->
     demoMinted b /\ _blocksByNumber demoFull !! number (header b) = Some b).
Proof.
  exact (store_invariants demoEnv demoMinted demoFull demo_sound demo_reachable_full).
Defined.

(** X6. In every store of a run that holds a local block (the latest number
    is above the fork block number) and whose latest number is below
    [2^26 - 1], [getLatestBlock] returns a block that was handed to
    [putBlock], whose number is the latest one, and it does so from the
    store: nothing changes and nothing is asked upstream. *)
Theorem getLatestBlock_local env minted (s : ForkBlockchain) :
  sound env minted ->
  reachable env minted s ->
  _forkBlockNumber env < _latestBlockNumber s ->
  _latestBlockNumber s < 2 ^ 26 - 1 ->
  exists b,
    getLatestBlock env s = (Ok b, s) /\
    number (header b) = _latestBlockNumber s /\
    minted b.
Proof.
  intros Hsound Hr Hlt Hbound.
  destruct (reachable_consistent env minted Hsound s Hr) as [Hc _].
  destruct (consistent_tip _ _ _ Hc Hlt Hbound) as [b Hb].
  destruct (consistent_byNumber _ _ _ Hc _ b Hb) as (Hn & _).
  exists b. split; [|split; [exact Hn|]].
  - rewrite getLatestBlock_run. apply getBlock_cached; [|exact Hb].
    cbn. rewrite Z.gtb_ltb. apply Z.ltb_irrefl.
  - apply (stored_above_fork_minted env minted s (hash b) b Hsound Hr).
    + exact (consistent_indexed _ _ _ Hc _ b Hb).
    + lia.
Qed.

Lemma getLatestBlock_local_witness :
  exists b,
    getLatestBlock demoEnv demoAppended = (Ok b, demoAppended) /\
    number (header b) = _latestBlockNumber demoAppended /\
    demoMinted b.
Proof.
  apply (getLatestBlock_local demoEnv demoMinted demoAppended demo_sound demo_reachable);
    vm_compute; reflexivity.
Defined.

(** ** [getBlockTotalDifficulty] *)

(** X7. [getBlockTotalDifficulty(h)] answers from the store when the total
    difficulty is there.  For a hash unknown to the store it asks upstream by
    hash: it throws "Block not found" when no block comes back or the block
    is refused (no hash, no number, or a number above the fork block number),
    rethrows a rejected request, and otherwise installs the block and returns
    the total difficulty upstream reports for it. *)
Theorem getBlockTotalDifficulty_spec env (h : N) (s : ForkBlockchain) :
  (forall t, _totalDifficultyByBlockHash s !! h = Some t ->
     getBlockTotalDifficulty env h s = (Ok t, s)) /\
  (_totalDifficultyByBlockHash s !! h = None ->
   _blocksByHash s !! h = None ->
   (forall o, getBlockByHash (_jsonRpcClient env) h = Resolved o ->
      accepted env o = None ->
      getBlockTotalDifficulty env h s
        = (Err BlockNotFound, log_call (CallGetBlockByHash h) s)) /\
   (getBlockByHash (_jsonRpcClient env) h = Rejected ->
      getBlockTotalDifficulty env h s
        = (Err UpstreamError, log_call (CallGetBlockByHash h) s)) /\
   (forall r n,
      served env (OfHash h) r n h ->
      getBlockTotalDifficulty env h s
        = (Ok (rpc_totalDifficulty r),
           install_block n h (rpc_totalDifficulty r) (newBlock env r)
             (log_call (CallGetBlockByHash h) s)))).
Proof.
  split.
  - intros t Ht. rewrite getBlockTotalDifficulty_run. now rewrite Ht.
  - intros Htd Hb. split; [|split].
    + intros o Ha Hacc. rewrite getBlockTotalDifficulty_run, Htd, getBlock_run.
      cbn [beyond_latest cached answer request]. now rewrite Hb, Ha, Hacc.
    + intros Ha. rewrite getBlockTotalDifficulty_run, Htd, getBlock_run.
      cbn [beyond_latest cached answer request]. now rewrite Hb, Ha.
    + intros r n [Ha Hacc]. rewrite getBlockTotalDifficulty_run, Htd, getBlock_run.
      cbn [beyond_latest cached answer request] in *. rewrite Hb, Ha, Hacc.
      cbn. now rewrite lookup_insert_eq.
Qed.

Lemma getBlockTotalDifficulty_spec_witness :
  getBlockTotalDifficulty demoEnv 1010%N (initial demoEnv)
    = (Ok 5000, snd (getBlock demoEnv (OfHash 1010%N) (initial demoEnv))) /\
  getBlockTotalDifficulty demoEnv 5%N (initial demoEnv)
    = (Err BlockNotFound, log_call (CallGetBlockByHash 5%N) (initial demoEnv)) /\
  getBlockTotalDifficulty demoEnv 1011%N demoAppended = (Ok 6000, demoAppended).
Proof.
  destruct (getBlockTotalDifficulty_spec demoEnv 1010%N (initial demoEnv)) as [_ H1].
  destruct (getBlockTotalDifficulty_spec demoEnv 5%N (initial demoEnv)) as [_ H2].
  destruct (getBlockTotalDifficulty_spec demoEnv 1011%N demoAppended) as [H3 _].
  split; [|split].
  - destruct H1 as (_ & _ & H); [reflexivity | reflexivity |].
    apply (H rpc10 10). split; vm_compute; reflexivity.
  - destruct H2 as (H & _); [reflexivity | reflexivity |].
    apply (H None); reflexivity.
  - apply H3. vm_compute. reflexivity.
Defined.

(** X8. In every store of a run, the total difficulty [getBlockTotalDifficulty]
    returns for a block that [putBlock] has just accepted is the one it
    returns for the parent (the latest block before the call) plus the
    difficulty of the block; both are answered from the store. *)
Theorem putBlock_totalDifficulty env minted (block parent : Block) (s s1 s' : ForkBlockchain) :
  sound env minted ->
  reachable env minted s ->
  number (header block) <> 0 ->
  getLatestBlock env s = (Ok parent, s1) ->
  putBlock env block s = (Ok block, s') ->
  exists tp,
    getBlockTotalDifficulty env (hash parent) s1 = (Ok tp, s1) /\
    getBlockTotalDifficulty env (hash block) s'
      = (Ok (tp + difficulty (header block)), s').
Proof.
  intros Hsound Hr H0 Hl Hput.
  destruct (reachable_consistent env minted Hsound s Hr) as [Hc _].
  destruct (putBlock_success env block s block s' Hput)
    as (_ & Hn & parent' & s1' & Hl' & Hp).
  rewrite Hl in Hl'. injection Hl' as <- <-.
  destruct (putBlock_consistent env minted block s parent s1 Hsound Hc Hn Hl Hp)
    as (tp & Htp & E).
  rewrite E in Hput. injection Hput as <-.
  exists tp. split.
  - rewrite getBlockTotalDifficulty_run. now rewrite Htp.
  - rewrite getBlockTotalDifficulty_run. cbn.
    rewrite lookup_insert_eq. now rewrite (proj2 (Z.eqb_neq _ _) H0).
Qed.

Lemma putBlock_totalDifficulty_witness :
  exists tp,
    getBlockTotalDifficulty demoEnv (hash (demoBlock rpc10)) demoLoaded = (Ok tp, demoLoaded) /\
    getBlockTotalDifficulty demoEnv (hash block11) demoAppended
      = (Ok (tp + difficulty (header block11)), demoAppended).
Proof.
  apply (putBlock_totalDifficulty demoEnv demoMinted block11 (demoBlock rpc10)
           (initial demoEnv) demoLoaded demoAppended demo_sound
           (reachable_initial demoEnv demoMinted));
    [vm_compute; discriminate | vm_compute; reflexivity | vm_compute; reflexivity].
Defined.

(** ** Transactions *)

Lemma getTransaction_known env h s t :
  _transactions s !! h = Some t -> getTransaction env h s = (Ok t, s).
Proof. intros H. unfold getTransaction, bind at 1, gets at 1. now rewrite H. Qed.

Lemma getBlockByTransactionHash_known env h s b :
  _transactionToBlock s !! h = Some b ->
  getBlockByTransactionHash env h s = (Ok b, s).
Proof. intros H. unfold getBlockByTransactionHash, bind at 1, gets at 1. now rewrite H. Qed.

Lemma processRemoteTransaction_run env o s :
  _processRemoteTransaction env o s =
  match o with
  | Some r =>
    match rtx_blockNumber r with
    | Some n =>
      if n >? _forkBlockNumber env then (Err TransactionNotFound, s)
      else (Ok (newTransaction env r),
            set_transactions <[rtx_hash r := newTransaction env r]> s)
    | None => (Err TransactionNotFound, s)
    end
  | None => (Err TransactionNotFound, s)
  end.
Proof.
  unfold _processRemoteTransaction. destruct o as [r|]; [|reflexivity].
  destruct (rtx_blockNumber r) as [n|]; [|reflexivity].
  destruct (n >? _forkBlockNumber env); reflexivity.
Qed.

(** [getBlockByTransactionHash] for a hash that [_transactionToBlock] does
    not hold, case by case. *)
Lemma getBlockByTransactionHash_run env h s :
  _transactionToBlock s !! h = None ->
  getBlockByTransactionHash env h s =
  match getTransactionByHash (_jsonRpcClient env) h with
  | Rejected => (Err UpstreamError, log_call (CallGetTransactionByHash h) s)
  | Resolved o =>
    match _processRemoteTransaction env o (log_call (CallGetTransactionByHash h) s) with
    | (Err e, s1) => (Err e, s1)
    | (Ok _, s1) =>
      match o with
      | Some r =>
        match rtx_blockHash r with
        | Some bh =>
          match getBlock env (OfHash bh) s1 with
          | (Err e, s2) => (Err e, s2)
          | (Ok _, s2) =>
            match _transactionToBlock s2 !! h with
            | Some b => (Ok b, s2)
            | None => (Err TransactionNotFound, s2)
            end
          end
        | None => (Err TransactionNotFound, s1)
        end
      | None => (Err TransactionNotFound, s1)
      end
    end
  end.
Proof.
  intros Hnone. unfold getBlockByTransactionHash, bind at 1, gets at 1. rewrite Hnone.
  unfold bind at 1, await, bind at 1, modify at 1.
  destruct (getTransactionByHash (_jsonRpcClient env) h) as [o|]; [|reflexivity].
  cbn [ret]. unfold bind at 1.
  destruct (_processRemoteTransaction env o _) as [[t|e] s1]; [|reflexivity].
  destruct o as [r|]; [|reflexivity].
  destruct (rtx_blockHash r) as [bh|]; [|reflexivity].
  unfold bind at 1. unfold bind at 1.
  destruct (getBlock env (OfHash bh) s1) as [[b|e] s2]; [|reflexivity].
  unfold gets. destruct (_transactionToBlock s2 !! h); reflexivity.
Qed.

Lemma putBlock_indexed env block s s' t :
  putBlock env block s = (Ok block, s') ->
  t ∈ transactions block ->
  _transactionToBlock s' !! tx_hash t = Some block /\
  exists t', t' ∈ transactions block /\ tx_hash t' = tx_hash t /\
             _transactions s' !! tx_hash t = Some t'.
Proof.
  rewrite putBlock_run. intros H Ht.
  destruct (negb (number (header block) =? _latestBlockNumber s + 1)); [discriminate|].
  destruct (getLatestBlock env s) as [[parent|e] s1]; [|discriminate].
  destruct (negb (parentHash (header block) =? hash parent)%N); [discriminate|].
  destruct (_computeTotalDifficulty _ _ _) as [[td|e] s3]; [|discriminate].
  injection H as <-.
  assert (Hin : tx_hash t ∈ map tx_hash (transactions block)).
  { apply list_elem_of_fmap. eauto. }
  split.
  - cbn. rewrite lookup_bind_txs. now rewrite decide_True.
  - cbn. apply lookup_insert_txs_in. exact Hin.
Qed.

(** X9. In any store, once [putBlock] has accepted a block, each of its
    transactions is answered from the store: [getBlockByTransactionHash]
    returns the block and [getTransaction] returns a transaction of the block
    with that hash, and neither changes the store or asks upstream. *)
Theorem putBlock_then_getTransaction env (block : Block) (s s' : ForkBlockchain) t :
  putBlock env block s = (Ok block, s') ->
  t ∈ transactions block ->
  getBlockByTransactionHash env (tx_hash t) s' = (Ok block, s') /\
  exists t', t' ∈ transactions block /\ tx_hash t' = tx_hash t /\
             getTransaction env (tx_hash t) s' = (Ok t', s').
Proof.
  intros Hput Ht.
  destruct (putBlock_indexed env block s s' t Hput Ht) as (Hb & t' & Ht' & Hh & Htx).
  split; [now apply getBlockByTransactionHash_known|].
  exists t'. split; [exact Ht'|]. split; [exact Hh|].
  now apply getTransaction_known.
Qed.

Lemma putBlock_then_getTransaction_witness :
  getBlockByTransactionHash demoEnv 8%N demoAppended = (Ok block11, demoAppended) /\
  exists t', t' ∈ transactions block11 /\ tx_hash t' = 8%N /\
             getTransaction demoEnv 8%N demoAppended = (Ok t', demoAppended).
Proof.
  apply (putBlock_then_getTransaction demoEnv block11 (initial demoEnv) demoAppended tx8).
  - vm_compute. reflexivity.
  - left.
Defined.

(** X10. [getBlockByTransactionHash(h)] for a hash that [_transactionToBlock]
    does not hold asks upstream for the transaction.  Without a record, with
    a pending one or one of a block above the fork block number it throws
    "Transaction not found" and no index changes.  With a record of a block
    at or below the fork block number it first puts the transaction into
    [_transactions] and then loads the block by the record's block hash: when
    that block is refused or unknown upstream the call throws "Block not
    found" and the transaction stays in [_transactions]; when the block comes
    back under that hash and holds a transaction of hash [h], the block is
    returned and [h] is bound to it in [_transactionToBlock]. *)
Theorem getBlockByTransactionHash_spec env (h : N) (s : ForkBlockchain) :
  _transactionToBlock s !! h = None ->
  (forall o,
     getTransactionByHash (_jsonRpcClient env) h = Resolved o ->
     (o = None \/
      exists r, o = Some r /\
        (rtx_blockNumber r = None \/
         exists n, rtx_blockNumber r = Some n /\ n > _forkBlockNumber env)) ->
     getBlockByTransactionHash env h s
       = (Err TransactionNotFound, log_call (CallGetTransactionByHash h) s)) /\
  (forall r n bh,
     getTransactionByHash (_jsonRpcClient env) h = Resolved (Some r) ->
     rtx_blockNumber r = Some n -> n <= _forkBlockNumber env ->
     rtx_blockHash r = Some bh ->
     _blocksByHash s !! bh = None ->
     (forall o,
        getBlockByHash (_jsonRpcClient env) bh = Resolved o ->
        accepted env o = None ->
        exists s',
          getBlockByTransactionHash env h s = (Err BlockNotFound, s') /\
          _transactions s' !! rtx_hash r = Some (newTransaction env r) /\
          _transactionToBlock s' = _transactionToBlock s /\
          _blocksByHash s' = _blocksByHash s) /\
     (forall rb nb,
        served env (OfHash bh) rb nb bh ->
        h ∈ tx_hashes (newBlock env rb) ->
        exists s',
          getBlockByTransactionHash env h s = (Ok (newBlock env rb), s') /\
          _transactionToBlock s' !! h = Some (newBlock env rb) /\
          _blocksByHash s' !! bh = Some (newBlock env rb))).
Proof.
  intros Hnone. split.
  - intros o Ha Ho. rewrite getBlockByTransactionHash_run by exact Hnone.
    rewrite Ha, processRemoteTransaction_run.
    destruct Ho as [->|(r & -> & [->|(n & -> & Hgt)])]; try reflexivity.
    now rewrite (proj2 (Z.gtb_gt _ _) Hgt).
  - intros r n bh Ha Hn Hle Hbh Hb.
    assert (Hrun : getBlockByTransactionHash env h s =
              match getBlock env (OfHash bh)
                      (set_transactions <[rtx_hash r := newTransaction env r]>
                         (log_call (CallGetTransactionByHash h) s)) with
              | (Err e, s2) => (Err e, s2)
              | (Ok _, s2) =>
                match _transactionToBlock s2 !! h with
                | Some b => (Ok b, s2)
                | None => (Err TransactionNotFound, s2)
                end
              end).
    { rewrite getBlockByTransactionHash_run by exact Hnone.
      rewrite Ha, processRemoteTransaction_run, Hn.
      replace (n >? _forkBlockNumber env) with false
        by (symmetry; rewrite Z.gtb_ltb; apply Z.ltb_ge; lia).
      now rewrite Hbh. }
    split.
    + intros o Hab Hacc. rewrite Hrun, getBlock_run.
      cbn [beyond_latest cached answer request]. cbn [_blocksByHash set_transactions log_call].
      rewrite Hb, Hab, Hacc. eexists. split; [reflexivity|].
      cbn. rewrite lookup_insert_eq. auto.
    + intros rb nb [Hab Hacc] Hin. rewrite Hrun, getBlock_run.
      cbn [beyond_latest cached answer request] in *.
      cbn [_blocksByHash set_transactions log_call].
      rewrite Hb, Hab, Hacc.
      assert (Hbound : _transactionToBlock
                (install_block nb bh (rpc_totalDifficulty rb) (newBlock env rb)
                   (log_call (CallGetBlockByHash bh)
                      (set_transactions <[rtx_hash r := newTransaction env r]>
                         (log_call (CallGetTransactionByHash h) s)))) !! h
              = Some (newBlock env rb)).
      { cbn. rewrite lookup_bind_txs. now rewrite decide_True. }
      rewrite Hbound. eexists. split; [reflexivity|]. split; [exact Hbound|].
      cbn. apply lookup_insert_eq.
Qed.

Lemma getBlockByTransactionHash_spec_witness :
  getBlockByTransactionHash demoEnv 70%N (initial demoEnv)
    = (Err TransactionNotFound, log_call (CallGetTransactionByHash 70%N) (initial demoEnv)) /\
  exists s',
    getBlockByTransactionHash demoEnv 7%N (initial demoEnv) = (Ok (demoBlock rpc10), s') /\
    _transactionToBlock s' !! 7%N = Some (demoBlock rpc10) /\
    _blocksByHash s' !! 1010%N = Some (demoBlock rpc10).
Proof.
  destruct (getBlockByTransactionHash_spec demoEnv 70%N (initial demoEnv)) as [H1 _];
    [reflexivity|].
  destruct (getBlockByTransactionHash_spec demoEnv 7%N (initial demoEnv)) as [_ H2];
    [reflexivity|].
  split.
  - apply (H1 (Some rtxPending)); [reflexivity|].
    right. exists rtxPending. split; [reflexivity | now left].
  - destruct (H2 rtx7 10 1010%N) as [_ H];
      [reflexivity | reflexivity | vm_compute; discriminate | reflexivity | reflexivity |].
    apply (H rpc10 10).
    + split; vm_compute; reflexivity.
    + vm_compute. left.
Defined.

(** *** Transactions are bound to stored blocks *)

Lemma bound_install env minted n h td blk s :
  sound env minted ->
  known env minted blk -> hash blk = h ->
  consistent env minted s -> bound s ->
  bound (install_block n h td blk s).
Proof.
  intros Hsound Hk Hh Hc Hb x b Hx. cbn in Hx |- *.
  rewrite lookup_bind_txs in Hx.
  destruct (decide (x ∈ map tx_hash (transactions blk))) as [Hin|Hnin].
  - injection Hx as <-. split; [exact Hin|]. rewrite Hh. apply lookup_insert_eq.
  - destruct (Hb x b Hx) as [Hxb Hbh]. split; [exact Hxb|].
    destruct (decide (h = hash b)) as [E|Hne].
    + rewrite <- E, lookup_insert_eq. f_equal.
      destruct (consistent_byHash _ _ _ Hc _ _ Hbh) as (_ & Hkb & _).
      apply (sound_hash _ _ Hsound); [exact Hk | exact Hkb | congruence].
    + now rewrite lookup_insert_ne.
Qed.

Lemma bound_cut env minted n s :
  sound env minted ->
  consistent env minted s -> bound s ->
  bound (cut_at n s).
Proof.
  intros Hsound Hc Hb x b Hx.
  destruct (cut_at_removed n s) as (_ & _ & Hrem & _ & Hfh & Hft).
  assert (Hkeep : forall i c t, n <= i <= _latestBlockNumber s ->
            _blocksByNumber s !! i = Some c -> t ∈ transactions c -> tx_hash t <> x).
  { intros i c t Hi Hci Ht E.
    destruct (Hrem i c Hi Hci) as (_ & _ & _ & Htx).
    destruct (Htx t Ht) as [_ Hgone]. rewrite E in Hgone. congruence. }
  destruct (Hft x Hkeep) as [_ Eb]. rewrite Eb in Hx.
  destruct (Hb x b Hx) as [Hxb Hbh]. split; [exact Hxb|].
  destruct (Hfh (hash b)) as [E _]; [|now rewrite E].
  intros i c Hi Hci Ehash.
  destruct (consistent_byNumber _ _ _ Hc i c Hci) as (_ & Hkc & _).
  destruct (consistent_byHash _ _ _ Hc _ _ Hbh) as (_ & Hkb & _).
  assert (c = b) by (apply (sound_hash _ _ Hsound); assumption). subst c.
  apply list_elem_of_fmap in Hxb as (t & -> & Ht).
  exact (Hkeep i b t Hi Hci Ht eq_refl).
Qed.

Lemma bound_change env minted s s' :
  sound env minted ->
  change env minted s s' ->
  consistent env minted s -> bound s -> bound s'.
Proof.
  intros Hsound Hch Hc Hb.
  destruct Hch as [c s|key r n h s Hs|block td s Hm Hn Htd|h block s Hbh Hlt
                  |h block s Hbh Hlt HL|r s].
  - exact Hb.
  - apply (bound_install env minted); try assumption.
    + eapply served_known; eassumption.
    + exact (proj1 (sound_block _ _ Hsound _ _ _ _ Hs)).
  - exact (bound_install env minted (_latestBlockNumber s + 1) (hash block) td block s
             Hsound (or_introl Hm) eq_refl Hc Hb).
  - now apply (bound_cut env minted).
  - exact (bound_cut env minted (number (header block)) s Hsound Hc Hb).
  - exact Hb.
Qed.

Lemma bound_changes env minted s s' :
  sound env minted ->
  changes env minted s s' ->
  consistent env minted s -> bound s -> bound s'.
Proof.
  intros Hsound Hch. induction Hch as [|s s' s'' Hchs IH Hch]; intros Hc Hb; [exact Hb|].
  eapply bound_change; [exact Hsound | exact Hch | | now apply IH].
  eapply consistent_changes; eassumption.
Qed.

Lemma reachable_bound env minted s :
  sound env minted -> reachable env minted s -> bound s.
Proof.
  intros Hsound Hr.
  destruct (reachable_consistent env minted Hsound s Hr) as [_ Hch].
  eapply bound_changes; [exact Hsound | exact Hch | apply consistent_initial |].
  intros h b Hb. cbn in Hb. now rewrite lookup_empty in Hb.
Qed.

(** X11. In every store of a run, a hash bound in [_transactionToBlock] is
    the hash of a transaction of the block it is bound to, and that block is
    stored under its hash: [getBlockByTransactionHash] then returns a block
    that holds the transaction and that [getBlock] returns for its hash, both
    from the store. *)
Theorem transaction_block_agreement env minted (s : ForkBlockchain) (h : N) (b : Block) :
  sound env minted ->
  reachable env minted s ->
  _transactionToBlock s !! h = Some b ->
  (exists t, t ∈ transactions b /\ tx_hash t = h) /\
  getBlockByTransactionHash env h s = (Ok b, s) /\
  getBlock env (OfHash (hash b)) s = (Ok b, s).
Proof.
  intros Hsound Hr Hb.
  destruct (reachable_bound env minted s Hsound Hr h b Hb) as [Hin Hbh].
  split; [|split].
  - apply list_elem_of_fmap in Hin as (t & -> & Ht). eauto.
  - now apply getBlockByTransactionHash_known.
  - apply getBlock_cached; [reflexivity | exact Hbh].
Qed.

Lemma transaction_block_agreement_witness :
  (exists t, t ∈ transactions block11 /\ tx_hash t = 8%N) /\
  getBlockByTransactionHash demoEnv 8%N demoAppended = (Ok block11, demoAppended) /\
  getBlock demoEnv (OfHash (hash block11)) demoAppended = (Ok block11, demoAppended).
Proof.
  apply (transaction_block_agreement demoEnv demoMinted demoAppended 8%N block11
           demo_sound demo_reachable).
  vm_compute. reflexivity.
Defined.

(** ** After a deletion *)

Lemma reachable_delBlock env minted h s :
  reachable env minted s -> reachable env minted (snd (delBlock env h s)).
Proof. intros H. now apply (reachable_perform env minted (DoDelBlock h)). Qed.

(** X12. In every store of a run whose latest number is below [2^26 - 1],
    [delBlock(h)] of a block above the fork block number returns, and the
    store has then forgotten the block: a second [delBlock(h)] throws "Block
    not found", [getBlock] for its number or any later one throws "Block not
    found" without a request, the hash has no block and no total difficulty
    left, and none of the block's transactions is left in [_transactions] or
    [_transactionToBlock]. *)
Theorem delBlock_forgets env minted (h : N) (b : Block) (s : ForkBlockchain) :
  sound env minted ->
  reachable env minted s ->
  _blocksByHash s !! h = Some b ->
  _forkBlockNumber env < number (header b) ->
  _latestBlockNumber s < 2 ^ 26 - 1 ->
  exists s',
    delBlock env h s = (Ok tt, s') /\
    _latestBlockNumber s' = number (header b) - 1 /\
    delBlock env h s' = (Err BlockNotFound, s') /\
    (forall i, number (header b) <= i ->
       getBlock env (OfNumber i) s' = (Err BlockNotFound, s')) /\
    _blocksByHash s' !! h = None /\
    _totalDifficultyByBlockHash s' !! h = None /\
    (forall t, t ∈ transactions b ->
       _transactions s' !! tx_hash t = None /\
       _transactionToBlock s' !! tx_hash t = None).
Proof.
  intros Hsound Hr Hb Hlt Hbound.
  destruct (reachable_consistent env minted Hsound s Hr) as [Hc _].
  destruct (consistent_byHash _ _ _ Hc h b Hb) as (Hh & _).
  pose proof (consistent_local _ _ _ Hc h b Hb Hlt) as Hloc.
  destruct (consistent_byNumber _ _ _ Hc _ b Hloc) as (_ & _ & Hle & _).
  destruct (cut_at_removed (number (header b)) s) as (HL & _ & Hrem & _).
  destruct (Hrem (number (header b)) b ltac:(lia) Hloc) as (_ & Hgh & Hgt & Hgtx).
  rewrite Hh in Hgh, Hgt.
  exists (cut_at (number (header b)) s).
  split; [unfold delBlock; now apply (delBlock_consistent env minted)|].
  split; [exact HL|].
  split; [unfold delBlock; now apply delBlock_unknown|].
  split.
  { intros i Hi. rewrite getBlock_run. cbn [beyond_latest]. rewrite HL.
    now rewrite (proj2 (Z.gtb_gt i (number (header b) - 1)) ltac:(lia)). }
  split; [exact Hgh|]. split; [exact Hgt|]. exact Hgtx.
Qed.

Lemma delBlock_forgets_witness :
  exists s',
    delBlock demoEnv 1011%N demoAppended = (Ok tt, s') /\
    _latestBlockNumber s' = 10 /\
    delBlock demoEnv 1011%N s' = (Err BlockNotFound, s') /\
    (forall i, 11 <= i -> getBlock demoEnv (OfNumber i) s' = (Err BlockNotFound, s')) /\
    _blocksByHash s' !! 1011%N = None /\
    _totalDifficultyByBlockHash s' !! 1011%N = None /\
    (forall t, t ∈ transactions block11 ->
       _transactions s' !! tx_hash t = None /\
       _transactionToBlock s' !! tx_hash t = None).
Proof.
  apply (delBlock_forgets demoEnv demoMinted 1011%N block11 demoAppended
           demo_sound demo_reachable);
    vm_compute; reflexivity.
Defined.

(** X13. In every store of a run over an upstream that serves one chain,
    with a latest number below [2^26 - 1], [delBlock] of a block above the
    fork block number returns, the block stored one number below is then the
    latest block, answered from the store, and [putBlock] accepts any block
    of the removed block's number whose parent hash is the hash of that
    latest block. *)
Theorem delBlock_then_putBlock env minted (h : N) (b : Block) (s : ForkBlockchain) :
  canonical env minted ->
  reachable env minted s ->
  _blocksByHash s !! h = Some b ->
  _forkBlockNumber env < number (header b) ->
  number (header b) <> 0 ->
  _latestBlockNumber s < 2 ^ 26 - 1 ->
  exists s' p,
    delBlock env h s = (Ok tt, s') /\
    getLatestBlock env s' = (Ok p, s') /\
    number (header p) = number (header b) - 1 /\
    forall b',
      number (header b') = number (header b) ->
      parentHash (header b') = hash p ->
      exists s'' td,
        putBlock env b' s' = (Ok b', s'') /\ appended b' td s' s''.
Proof.
  intros Hcanon Hr Hb Hlt H0 Hbound.
  pose proof (canonical_sound _ _ Hcanon) as Hsound.
  destruct (reachable_accumulated env minted Hcanon s Hr) as [Hc Hacc].
  pose proof (consistent_local _ _ _ Hc h b Hb Hlt) as Hloc.
  destruct (accumulated_local _ _ Hacc _ b Hlt Hloc) as [[E _]|(_ & p & tp & Hp & _)];
    [contradiction|].
  destruct (cut_at_removed (number (header b)) s) as (HL & _ & _ & Hfn & _).
  assert (Hdel : delBlock env h s = (Ok tt, cut_at (number (header b)) s))
    by (unfold delBlock; now apply (delBlock_consistent env minted)).
  assert (Hr' : reachable env minted (cut_at (number (header b)) s)).
  { pose proof (reachable_delBlock env minted h s Hr) as H. now rewrite Hdel in H. }
  destruct (reachable_consistent env minted Hsound _ Hr') as [Hc' _].
  set (s' := cut_at (number (header b)) s) in *.
  assert (Hp' : _blocksByNumber s' !! (number (header b) - 1) = Some p)
    by (rewrite Hfn by lia; exact Hp).
  assert (Hlatest : getLatestBlock env s' = (Ok p, s')).
  { rewrite getLatestBlock_run, HL. apply getBlock_cached; [|exact Hp'].
    cbn [beyond_latest]. rewrite HL, Z.gtb_ltb. apply Z.ltb_irrefl. }
  exists s', p. split; [exact Hdel|]. split; [exact Hlatest|].
  split; [now destruct (consistent_byNumber _ _ _ Hc' _ p Hp')|].
  intros b' Hn' Hph.
  destruct (putBlock_consistent env minted b' s' p s' Hsound Hc') as (tp' & _ & E);
    [rewrite HL; lia | exact Hlatest | exact Hph |].
  eexists. eexists. split; [exact E|]. apply install_block_appended.
Qed.

Lemma delBlock_then_putBlock_witness :
  exists s' p,
    delBlock demoEnv 1011%N demoAppended = (Ok tt, s') /\
    getLatestBlock demoEnv s' = (Ok p, s') /\
    number (header p) = 10 /\
    forall b',
      number (header b') = 11 ->
      parentHash (header b') = hash p ->
      exists s'' td,
        putBlock demoEnv b' s' = (Ok b', s'') /\ appended b' td s' s''.
Proof.
  apply (delBlock_then_putBlock demoEnv demoMinted 1011%N block11 demoAppended
           demo_canonical demo_reachable);
    vm_compute; first [reflexivity | discriminate].
Defined.

(** ** [deleteAllFollowingBlocks] *)

(** X14. In every store of a run whose latest number is below [2^26 - 1],
    [deleteAllFollowingBlocks(block)] on a block stored at or above the fork
    block number succeeds and makes the block stored at that number the
    latest block: the latest number is the block's number, [getLatestBlock]
    returns the stored block from the store, and nothing at or below that
    number has left [_blocksByNumber]. *)
Theorem deleteAllFollowingBlocks_keeps env minted (block saved : Block) (s : ForkBlockchain) :
  sound env minted ->
  reachable env minted s ->
  _blocksByNumber s !! number (header block) = Some saved ->
  hash saved = hash block ->
  _forkBlockNumber env <= number (header block) ->
  _latestBlockNumber s < 2 ^ 26 - 1 ->
  exists s',
    deleteAllFollowingBlocks env block s = (Ok tt, s') /\
    _latestBlockNumber s' = number (header block) /\
    getLatestBlock env s' = (Ok saved, s') /\
    forall i, i <= number (header block) ->
      _blocksByNumber s' !! i = _blocksByNumber s !! i.
Proof.
  intros Hsound Hr Hs Hh HF Hbound.
  destruct (reachable_consistent env minted Hsound s Hr) as [Hc _].
  destruct (consistent_byNumber _ _ _ Hc _ saved Hs) as (_ & _ & Hle & _).
  pose proof (number_nonneg (header block)) as H0.
  assert (Hfit : _latestBlockNumber s < 67108863) by exact Hbound.
  assert (Hrun : deleteAllFollowingBlocks env block s =
            match _blocksByNumber s !! (number (header block) + 1) with
            | Some next => _delBlock env (hash next) s
            | None => (Ok tt, s)
            end).
  { unfold deleteAllFollowingBlocks. unfold bind at 1, gets at 1. rewrite Hs.
    rewrite (proj2 (N.eqb_eq _ _) Hh). cbn [negb].
    rewrite gten_before by lia. unfold bind at 1, lift at 1.
    unfold bind at 1, gets at 1.
    destruct (_blocksByNumber s !! (number (header block) + 1)); reflexivity. }
  assert (Hlatest : forall s', _latestBlockNumber s' = number (header block) ->
            _blocksByNumber s' !! number (header block) = Some saved ->
            getLatestBlock env s' = (Ok saved, s')).
  { intros s' HL Hst. rewrite getLatestBlock_run, HL. apply getBlock_cached; [|exact Hst].
    cbn [beyond_latest]. rewrite HL, Z.gtb_ltb. apply Z.ltb_irrefl. }
  destruct (_blocksByNumber s !! (number (header block) + 1)) as [next|] eqn:Hnext.
  - destruct (consistent_byNumber _ _ _ Hc _ next Hnext) as (Hnum & _).
    pose proof (consistent_indexed _ _ _ Hc _ next Hnext) as Hix.
    destruct (cut_at_removed (number (header next)) s) as (HL & _ & _ & Hfn & _).
    exists (cut_at (number (header next)) s).
    split; [rewrite Hrun; apply (delBlock_consistent env minted);
              [exact Hc | exact Hix | lia | exact Hbound]|].
    assert (HL' : _latestBlockNumber (cut_at (number (header next)) s)
                  = number (header block)) by lia.
    split; [exact HL'|].
    split; [apply Hlatest; [exact HL'|]; rewrite Hfn by lia; exact Hs|].
    intros i Hi. apply Hfn. lia.
  - assert (HL : _latestBlockNumber s = number (header block)).
    { destruct (Z_le_gt_dec (_latestBlockNumber s) (number (header block))); [lia|].
      destruct (consistent_suffix env minted s Hc Hbound (number (header block) + 1))
        as [c Hcn]; [lia|].
      congruence. }
    exists s. split; [exact Hrun|]. split; [exact HL|].
    split; [now apply Hlatest | reflexivity].
Qed.

Lemma deleteAllFollowingBlocks_keeps_witness :
  exists s',
    deleteAllFollowingBlocks demoEnv (demoBlock rpc10) demoAppended = (Ok tt, s') /\
    _latestBlockNumber s' = 10 /\
    getLatestBlock demoEnv s' = (Ok (demoBlock rpc10), s') /\
    forall i, i <= 10 -> _blocksByNumber s' !! i = _blocksByNumber demoAppended !! i.
Proof.
  apply (deleteAllFollowingBlocks_keeps demoEnv demoMinted (demoBlock rpc10) (demoBlock rpc10)
           demoAppended demo_sound demo_reachable);
    vm_compute; first [reflexivity | discriminate].
Defined.

(** ** What the lookups do to the store *)

Lemma quiets_one env s s' : quiet env s s' -> quiets env s s'.
Proof. intros H. eapply quiets_step; [apply quiets_refl | exact H]. Qed.

Lemma quiets_trans env s s' s'' :
  quiets env s s' -> quiets env s' s'' -> quiets env s s''.
Proof.
  intros H1 H2. induction H2 as [|s' t t' _ IH Hq]; [exact H1|].
  eapply quiets_step; [now apply IH | exact Hq].
Qed.

Lemma quiet_change env minted s s' : quiet env s s' -> change env minted s s'.
Proof.
  intros [c s0|key r n h s0 Hs|r s0];
    [apply change_log | eapply change_load; exact Hs | apply change_tx].
Qed.

Lemma quiets_changes env minted s s' : quiets env s s' -> changes env minted s s'.
Proof.
  induction 1 as [|s s' s'' _ IH Hq]; [apply changes_refl|].
  eapply changes_step; [exact IH | now apply quiet_change].
Qed.

Lemma getBlock_quiets env key s : quiets env s (snd (getBlock env key s)).
Proof.
  rewrite getBlock_run.
  destruct (beyond_latest key s); [apply quiets_refl|].
  destruct (cached key s); [apply quiets_refl|].
  destruct (answer env key) as [o|] eqn:Ea; [|apply quiets_one, quiet_log].
  destruct (accepted env o) as [[[n h] r]|] eqn:Ead; [|apply quiets_one, quiet_log].
  destruct (accepted_inv _ _ _ _ _ Ead) as (-> & _).
  eapply quiets_step; [apply quiets_one, quiet_log|].
  cbn [snd]. eapply quiet_load. split; eassumption.
Qed.

Lemma getBlockTotalDifficulty_quiets env h s :
  quiets env s (snd (getBlockTotalDifficulty env h s)).
Proof.
  destruct (getBlockTotalDifficulty_store env h s) as [-> | ->];
    [apply quiets_refl | apply getBlock_quiets].
Qed.

Lemma processRemoteTransaction_quiets env o s :
  quiets env s (snd (_processRemoteTransaction env o s)).
Proof.
  rewrite processRemoteTransaction_run.
  destruct o as [r|]; [|apply quiets_refl].
  destruct (rtx_blockNumber r) as [n|]; [|apply quiets_refl].
  destruct (n >? _forkBlockNumber env); [apply quiets_refl|].
  apply quiets_one, quiet_tx.
Qed.

Lemma getTransaction_quiets env h s : quiets env s (snd (getTransaction env h s)).
Proof.
  unfold getTransaction, bind at 1, gets at 1.
  destruct (_transactions s !! h); [apply quiets_refl|].
  unfold bind at 1, await, bind at 1, modify at 1.
  destruct (getTransactionByHash (_jsonRpcClient env) h) as [o|];
    [|apply quiets_one, quiet_log].
  cbn [ret]. eapply quiets_trans; [apply quiets_one, quiet_log|].
  apply processRemoteTransaction_quiets.
Qed.

Lemma getBlockByTransactionHash_quiets env h s :
  quiets env s (snd (getBlockByTransactionHash env h s)).
Proof.
  destruct (_transactionToBlock s !! h) as [b|] eqn:Hb.
  { rewrite (getBlockByTransactionHash_known env h s b Hb). apply quiets_refl. }
  rewrite getBlockByTransactionHash_run by exact Hb.
  destruct (getTransactionByHash (_jsonRpcClient env) h) as [o|];
    [|apply quiets_one, quiet_log].
  eapply quiets_trans; [apply quiets_one, quiet_log|].
  pose proof (processRemoteTransaction_quiets env o (log_call (CallGetTransactionByHash h) s)) as H1.
  destruct (_processRemoteTransaction env o _) as [[t|e] s1]; [|exact H1].
  cbn [snd] in H1. eapply quiets_trans; [exact H1|].
  destruct o as [r|]; [|apply quiets_refl].
  destruct (rtx_blockHash r) as [bh|]; [|apply quiets_refl].
  pose proof (getBlock_quiets env (OfHash bh) s1) as H2.
  destruct (getBlock env (OfHash bh) s1) as [[b|e] s2]; [|exact H2].
  destruct (_transactionToBlock s2 !! h); exact H2.
Qed.

Lemma is_Some_insert_txs txs m h :
  is_Some (m !! h) -> is_Some (insert_txs txs m !! h).
Proof.
  intros Hm. destruct (decide (h ∈ map tx_hash txs)) as [Hin|Hnin].
  - destruct (lookup_insert_txs_in txs m h Hin) as (t & _ & _ & ->). eauto.
  - now rewrite lookup_insert_txs_notin.
Qed.

Lemma is_Some_insert {K V} `{Countable K} (m : gmap K V) (k k' : K) (v : V) :
  is_Some (m !! k') -> is_Some (<[k := v]> m !! k').
Proof.
  intros Hm. destruct (decide (k = k')) as [->|Hne].
  - rewrite lookup_insert_eq. eauto.
  - now rewrite lookup_insert_ne.
Qed.

Lemma grows_refl s : grows s s.
Proof. repeat split; auto. Qed.

Lemma grows_trans s s' s'' : grows s s' -> grows s' s'' -> grows s s''.
Proof.
  intros (H0 & H1 & H2 & H3 & H4 & H5) (K0 & K1 & K2 & K3 & K4 & K5).
  split; [congruence|]. repeat split; auto.
Qed.

Lemma quiet_grows env s s' : quiet env s s' -> grows s s'.
Proof.
  intros [c s0|key r n h s0 Hs|r s0].
  - split; [reflexivity|]. cbn. repeat split; auto.
  - split; [reflexivity|]. cbn.
    split; [intros k; apply is_Some_insert|].
    split; [intros k; apply is_Some_insert|].
    split; [intros k; apply is_Some_insert|].
    split; [intros k; apply is_Some_insert_txs|].
    intros k Hk. rewrite lookup_bind_txs. case_decide; eauto.
  - split; [reflexivity|]. cbn. repeat split; auto.
    intros k. apply is_Some_insert.
Qed.

Lemma quiets_grows env s s' : quiets env s s' -> grows s s'.
Proof.
  induction 1 as [|s s' s'' _ IH Hq]; [apply grows_refl|].
  eapply grows_trans; [exact IH | eapply quiet_grows; exact Hq].
Qed.

(** X15. The lookups never take anything away: in any store, [getBlock],
    [getLatestBlock], [getBlockTotalDifficulty], [getTransaction] and
    [getBlockByTransactionHash] leave the latest number as it is and every key
    of each of the five indexes in place, whether they return or throw. *)
Theorem lookups_only_add env (s : ForkBlockchain) :
  (forall key, grows s (snd (getBlock env key s))) /\
  grows s (snd (getLatestBlock env s)) /\
  (forall h, grows s (snd (getBlockTotalDifficulty env h s))) /\
  (forall h, grows s (snd (getTransaction env h s))) /\
  (forall h, grows s (snd (getBlockByTransactionHash env h s))).
Proof.
  split; [intros key; eapply quiets_grows, getBlock_quiets|].
  split; [rewrite getLatestBlock_run; eapply quiets_grows, getBlock_quiets|].
  split; [intros h; eapply quiets_grows, getBlockTotalDifficulty_quiets|].
  split; [intros h; eapply quiets_grows, getTransaction_quiets|].
  intros h; eapply quiets_grows, getBlockByTransactionHash_quiets.
Qed.

(** ** Blocks at or below the fork block number *)

Lemma change_keeps_remote env minted s s' n :
  change env minted s s' ->
  n <= _forkBlockNumber env ->
  is_Some (_blocksByNumber s !! n) -> is_Some (_blocksByNumber s' !! n).
Proof.
  intros [c s0|key r n0 h0 s0 Hs|block td s0 _ _ _|h block s0 Hb Hlt
         |h block s0 Hb Hlt _|r s0] HF Hn.
  - exact Hn.
  - cbn. now apply is_Some_insert.
  - cbn. now apply is_Some_insert.
  - destruct (cut_at_removed (number (header block)) s0) as (_ & _ & _ & Hfn & _).
    rewrite Hfn by lia. exact Hn.
  - destruct (cut_at_removed (number (header block)) s0) as (_ & _ & _ & Hfn & _).
    change (_blocksByNumber (trim_at (number (header block)) s0))
      with (_blocksByNumber (cut_at (number (header block)) s0)).
    rewrite Hfn by lia. exact Hn.
  - exact Hn.
Qed.

Lemma changes_keep_remote env minted s s' n :
  changes env minted s s' ->
  n <= _forkBlockNumber env ->
  is_Some (_blocksByNumber s !! n) -> is_Some (_blocksByNumber s' !! n).
Proof.
  induction 1 as [|s s' s'' _ IH Hch]; intros HF Hn; [exact Hn|].
  eapply change_keeps_remote; [exact Hch | exact HF | now apply IH].
Qed.

(** X16. What has been fetched stays: when upstream serves one chain, a block
    stored at or below the fork block number is, after any further call with
    any outcome, still stored under its number and under its hash, the very
    same block, with the same total difficulty. *)
Theorem remote_block_stays env minted (op : Operation) (s : ForkBlockchain) (n : Z) (b : Block) :
  canonical env minted ->
  reachable env minted s ->
  allowed minted op ->
  n <= _forkBlockNumber env ->
  _blocksByNumber s !! n = Some b ->
  _blocksByNumber (perform env op s) !! n = Some b /\
  _blocksByHash (perform env op s) !! hash b = Some b /\
  _totalDifficultyByBlockHash (perform env op s) !! hash b
    = _totalDifficultyByBlockHash s !! hash b.
Proof.
  intros Hcanon Hr Ha HF Hb.
  pose proof (canonical_sound _ _ Hcanon) as Hsound.
  destruct (reachable_accumulated env minted Hcanon s Hr) as [Hc Hacc].
  pose proof (perform_changes env minted Hsound op s Ha Hc) as Hch.
  assert (Hr' : reachable env minted (perform env op s)) by now apply reachable_perform.
  destruct (reachable_accumulated env minted Hcanon _ Hr') as [Hc' Hacc'].
  destruct (changes_keep_remote env minted s _ n Hch HF) as [b' Hb']; [eauto|].
  destruct (accumulated_remote _ _ Hacc n b HF Hb) as (r & Hs & Hnb & Htd).
  destruct (accumulated_remote _ _ Hacc' n b' HF Hb') as (r' & Hs' & Hnb' & Htd').
  assert (E : r = r') by (eapply served_unique; eassumption).
  subst r'. assert (Eb : b' = b) by congruence.
  rewrite Eb in Hb', Htd'.
  split; [exact Hb'|].
  split; [exact (consistent_indexed _ _ _ Hc' n b Hb')|].
  now rewrite Htd, Htd'.
Qed.

Lemma remote_block_stays_witness :
  _blocksByNumber (perform demoEnv (DoDelBlock (hash block11)) demoAppended) !! 10
    = Some (newBlock demoEnv rpc10).
Proof.
  apply (remote_block_stays demoEnv demoMinted (DoDelBlock (hash block11)) demoAppended 10
           (newBlock demoEnv rpc10) demo_canonical demo_reachable).
  - exact I.
  - vm_compute. discriminate.
  - vm_compute. reflexivity.
Defined.

(** ** The chain above the fork block number *)

Lemma linked_quiet env minted s s' :
  canonical env minted ->
  accumulated env s ->
  linked env s -> quiet env s s' -> linked env s'.
Proof.
  intros Hcanon Hacc Hl Hq.
  destruct Hq as [c s|key r n0 h0 s Hs|r s]; [exact Hl| |exact Hl].
  intros n b HF Hb. cbn in Hb.
  pose proof (served_below _ _ _ _ _ Hs) as Hle.
  rewrite lookup_insert_ne in Hb by lia.
  destruct (Hl n b HF Hb) as [H0|(p & Hp & Hph)]; [now left|right].
  cbn. destruct (decide (n0 = n - 1)) as [E|E].
  - subst n0. rewrite lookup_insert_eq. exists (newBlock env r). split; [reflexivity|].
    destruct (accumulated_remote _ _ Hacc (n - 1) p Hle Hp) as (r' & Hs' & Hnb & _).
    assert (Er : r = r').
    { eapply served_unique; [|exact Hs'].
      eapply served_by_number; eassumption. }
    subst r'. now rewrite Hnb.
  - rewrite lookup_insert_ne by exact E. eauto.
Qed.

Lemma linked_quiets env minted s s' :
  canonical env minted ->
  consistent env minted s ->
  accumulated env s ->
  linked env s -> quiets env s s' -> linked env s'.
Proof.
  intros Hcanon Hc Hacc Hl Hq.
  induction Hq as [|s s' s'' Hq IH Hstep]; [exact Hl|].
  eapply linked_quiet; [exact Hcanon | | now apply IH | exact Hstep].
  eapply accumulated_changes; [exact Hcanon | | exact Hc | exact Hacc].
  eapply quiets_changes; exact Hq.
Qed.

Lemma linked_install env minted block parent td s :
  consistent env minted s ->
  linked env s ->
  _blocksByNumber s !! _latestBlockNumber s = Some parent ->
  parentHash (header block) = hash parent ->
  linked env
    (install_block (_latestBlockNumber s + 1) (hash block) td block
       (set_latestBlockNumber (_latestBlockNumber s + 1) s)).
Proof.
  intros Hc Hl Hp Hph n b HF Hb. cbn in Hb |- *.
  destruct (decide (_latestBlockNumber s + 1 = n)) as [E|E].
  - subst n. rewrite lookup_insert_eq in Hb. injection Hb as <-.
    right. exists parent. rewrite lookup_insert_ne by lia.
    replace (_latestBlockNumber s + 1 - 1) with (_latestBlockNumber s) by lia. auto.
  - rewrite lookup_insert_ne in Hb by exact E.
    destruct (consistent_byNumber _ _ _ Hc n b Hb) as (_ & _ & Hle & _).
    destruct (Hl n b HF Hb) as [H0|(p & Hq & Hqh)]; [now left|right].
    exists p. rewrite lookup_insert_ne by lia. auto.
Qed.

Lemma linked_cut env minted h block s :
  consistent env minted s ->
  linked env s ->
  _blocksByHash s !! h = Some block ->
  _forkBlockNumber env < number (header block) ->
  linked env (cut_at (number (header block)) s).
Proof.
  intros Hc Hl Hb Hlt n b HF Hn.
  destruct (cut_at_removed (number (header block)) s) as (_ & _ & Hrm & Hfn & _).
  assert (Hlow : n < number (header block)).
  { destruct (Z_lt_ge_dec n (number (header block))) as [H|H]; [exact H|].
    destruct (Z_le_gt_dec n (_latestBlockNumber s)) as [H'|H'].
    - rewrite (cut_at_range (number (header block)) s n) in Hn by lia. discriminate.
    - rewrite Hfn in Hn by lia.
      destruct (consistent_byNumber _ _ _ Hc n b Hn) as (_ & _ & Hle & _). lia. }
  rewrite Hfn in Hn by lia.
  destruct (Hl n b HF Hn) as [H0|(p & Hp & Hph)]; [now left|right].
  exists p. rewrite Hfn by lia. auto.
Qed.

Lemma linked_putBlock env minted block s :
  canonical env minted ->
  consistent env minted s ->
  accumulated env s ->
  linked env s -> linked env (snd (putBlock env block s)).
Proof.
  intros Hcanon Hc Hacc Hl.
  pose proof (canonical_sound _ _ Hcanon) as Hsound.
  assert (Hq : linked env (snd (getLatestBlock env s))).
  { eapply linked_quiets; try eassumption.
    rewrite getLatestBlock_run. apply getBlock_quiets. }
  destruct (Z.eq_dec (number (header block)) (_latestBlockNumber s + 1)) as [Hn|Hn].
  2:{ rewrite putBlock_run. apply Z.eqb_neq in Hn. rewrite Hn. exact Hl. }
  destruct (getLatestBlock env s) as [[parent|e1] s1] eqn:Hlb.
  2:{ rewrite putBlock_run, (proj2 (Z.eqb_eq _ _) Hn), Hlb. exact Hq. }
  destruct (N.eq_dec (parentHash (header block)) (hash parent)) as [Hp|Hp].
  2:{ rewrite putBlock_run, (proj2 (Z.eqb_eq _ _) Hn), Hlb. cbn [negb].
      apply N.eqb_neq in Hp. rewrite Hp. exact Hq. }
  destruct (getLatestBlock_stored env minted Hsound s parent s1 Hc Hlb)
    as (Hc1 & _ & HL & Hst & _).
  destruct (putBlock_consistent env minted block s parent s1 Hsound Hc Hn Hlb Hp)
    as (tp & _ & E).
  rewrite E. cbn [snd] in Hq |- *. rewrite <- HL.
  eapply linked_install; [exact Hc1 | exact Hq | rewrite HL; exact Hst | exact Hp].
Qed.

Lemma linked_delBlock env minted h s :
  consistent env minted s ->
  linked env s -> linked env (snd (_delBlock env h s)).
Proof.
  intros Hc Hl. destruct (_blocksByHash s !! h) as [b|] eqn:Hb.
  2:{ now rewrite delBlock_unknown by assumption. }
  destruct (Z_le_gt_dec (number (header b)) (_forkBlockNumber env)) as [Hle|Hgt].
  { now rewrite (delBlock_remote env h s b) by assumption. }
  assert (Hcut : linked env (cut_at (number (header b)) s))
    by (eapply linked_cut; [exact Hc | exact Hl | exact Hb | lia]).
  destruct (delBlock_outcome env minted h s b Hc Hb) as [[_ E]|(_ & e & _ & E)];
    [lia| |]; rewrite E; exact Hcut.
Qed.

Lemma linked_deleteAllFollowingBlocks env minted block s :
  consistent env minted s ->
  linked env s -> linked env (snd (deleteAllFollowingBlocks env block s)).
Proof.
  intros Hc Hl. unfold deleteAllFollowingBlocks, bind at 1, gets at 1.
  destruct (_blocksByNumber s !! number (header block)) as [saved|]; [|exact Hl].
  destruct (negb (hash saved =? hash block)%N); [exact Hl|].
  unfold bind at 1, lift at 1.
  destruct (gten (_forkBlockNumber env) (number (header block) + 1)) as [[|]|e];
    [exact Hl| |exact Hl].
  unfold bind at 1, gets at 1.
  destruct (_blocksByNumber s !! (number (header block) + 1)) as [next|]; [|exact Hl].
  now apply (linked_delBlock env minted).
Qed.

Lemma reachable_linked env minted s :
  canonical env minted ->
  reachable env minted s -> linked env s.
Proof.
  intros Hcanon Hr. induction Hr as [|op s Hr IH Ha].
  - intros n b _ Hb. cbn in Hb. now rewrite lookup_empty in Hb.
  - destruct (reachable_accumulated env minted Hcanon s Hr) as [Hc Hacc].
    destruct op; cbn [perform].
    + eapply linked_quiets; try eassumption. apply getBlock_quiets.
    + eapply linked_quiets; try eassumption.
      rewrite getLatestBlock_run. apply getBlock_quiets.
    + eapply linked_putBlock; eassumption.
    + eapply linked_delBlock; eassumption.
    + eapply linked_deleteAllFollowingBlocks; eassumption.
    + eapply linked_quiets; try eassumption. apply getBlockTotalDifficulty_quiets.
    + eapply linked_quiets; try eassumption. apply getTransaction_quiets.
    + eapply linked_quiets; try eassumption. apply getBlockByTransactionHash_quiets.
Qed.

(** X17. The blocks above the fork block number form a chain: when upstream
    serves one chain, in every store of a run a block stored under a number
    above the fork block number, other than 0, names as its parent hash the
    hash of the block stored one number below, which is stored under that
    hash and has that number. *)
Theorem local_chain_linked env minted (s : ForkBlockchain) (n : Z) (b : Block) :
  canonical env minted ->
  reachable env minted s ->
  _forkBlockNumber env < n ->
  n <> 0 ->
  _blocksByNumber s !! n = Some b ->
  exists p,
    _blocksByNumber s !! (n - 1) = Some p /\
    _blocksByHash s !! parentHash (header b) = Some p /\
    number (header p) = n - 1.
Proof.
  intros Hcanon Hr HF Hn0 Hb.
  destruct (reachable_accumulated env minted Hcanon s Hr) as [Hc _].
  destruct (reachable_linked env minted s Hcanon Hr n b HF Hb) as [H0|(p & Hp & Hph)];
    [contradiction|].
  exists p. split; [exact Hp|].
  split; [rewrite Hph; exact (consistent_indexed _ _ _ Hc _ p Hp)|].
  now destruct (consistent_byNumber _ _ _ Hc _ p Hp) as (Hnum & _).
Qed.

Lemma local_chain_linked_witness :
  exists p,
    _blocksByNumber demoAppended !! (11 - 1) = Some p /\
    _blocksByHash demoAppended !! parentHash (header block11) = Some p /\
    number (header p) = 11 - 1.
Proof.
  apply (local_chain_linked demoEnv demoMinted demoAppended 11 block11
           demo_canonical demo_reachable).
  - vm_compute. reflexivity.
  - discriminate.
  - vm_compute. reflexivity.
Defined.

(** * The log buffer *)

Lemma length_append (s1 s2 : String.string) :
  String.length (String.append s1 s2) = (String.length s1 + String.length s2)%nat.
Proof. induction s1 as [|c s1 IH]; simpl; [reflexivity | f_equal; exact IH]. Qed.

Lemma length_spaces n : String.length (Logger.spaces n) = n.
Proof. induction n as [|n IH]; simpl; [reflexivity | f_equal; exact IH]. Qed.

Lemma fits_call c l : Logger.fits l -> Logger.fits (Logger.call c l).
Proof.
  intros Hf. destruct c as [e|m|f|t m|]; cbn [Logger.call].
  - exact Hf.
  - unfold Logger.log. destruct (negb (Logger.enabled l)); [exact Hf|].
    intros i t' m' Hi. cbn in Hi |- *.
    apply lookup_app_Some in Hi as [Hi|[_ Hi]]; [now apply (Hf i t' m')|].
    apply list_lookup_singleton_Some in Hi as [_ Hi]. discriminate.
  - exact Hf.
  - unfold Logger.logWithTitle. destruct (negb (Logger.enabled l)); [exact Hf|].
    set (t0 := if Logger._indentEnabled l then _ else t).
    intros i t' m' Hi.
    assert (Hlen : (Logger._titleLength l <= Logger._titleLength
              (Logger.push (Logger.Titled t0 m)
                 (if (Logger._titleLength l <? String.length t0)%nat
                  then Logger.set_titleLength (String.length t0) l else l)) /\
            String.length t0 <= Logger._titleLength
              (Logger.push (Logger.Titled t0 m)
                 (if (Logger._titleLength l <? String.length t0)%nat
                  then Logger.set_titleLength (String.length t0) l else l)))%nat).
    { destruct (Logger._titleLength l <? String.length t0)%nat eqn:E; cbn.
      - apply Nat.ltb_lt in E. lia.
      - apply Nat.ltb_ge in E. lia. }
    assert (Hlogs : Logger._logs
              (Logger.push (Logger.Titled t0 m)
                 (if (Logger._titleLength l <? String.length t0)%nat
                  then Logger.set_titleLength (String.length t0) l else l))
            = Logger._logs l ++ [Logger.Titled t0 m]).
    { destruct (Logger._titleLength l <? String.length t0)%nat; reflexivity. }
    rewrite Hlogs in Hi.
    apply lookup_app_Some in Hi as [Hi|[_ Hi]].
    + pose proof (Hf i t' m' Hi). lia.
    + apply list_lookup_singleton_Some in Hi as [_ Hi].
      injection Hi as <- <-. lia.
  - intros i t' m' Hi. cbn in Hi. now rewrite lookup_nil in Hi.
Qed.

Lemma run_app calls calls' l :
  Logger.run (calls ++ calls') l = Logger.run calls' (Logger.run calls l).
Proof. unfold Logger.run. apply foldl_app. Qed.

Lemma fits_run calls l : Logger.fits l -> Logger.fits (Logger.run calls l).
Proof.
  revert l. induction calls as [|c calls IH]; intros l Hf; [exact Hf|].
  cbn. apply IH, fits_call, Hf.
Qed.

Lemma fits_create : Logger.fits Logger.create.
Proof. intros i t m Hi. cbn in Hi. now rewrite lookup_nil in Hi. Qed.

(** X18. The titled lines of [getLogs] are aligned: after any calls on a new
    logger, the line for a pair of a title and a message is the title, a
    colon, spaces up to column [_titleLength + 1], one more space and the
    message, so that every message starts at the same column, whatever was
    logged before or after it. *)
Theorem getLogs_aligned (calls : list Logger.Call) (i : nat)
        (t m : String.string) :
  Logger._logs (Logger.run calls Logger.create) !! i = Some (Logger.Titled t m) ->
  exists pad,
    Logger.getLogs (Logger.run calls Logger.create) !! i
      = Some (String.append (String.append (String.append t Logger.colon)
                                           (Logger.spaces pad))
                            (String.append Logger.space m)) /\
    String.length (String.append (String.append t Logger.colon) (Logger.spaces pad))
      = (Logger._titleLength (Logger.run calls Logger.create) + 1)%nat.
Proof.
  intros Hi.
  pose proof (fits_run calls _ fits_create i t m Hi) as Hfit.
  set (l := Logger.run calls Logger.create) in *.
  exists (Logger._titleLength l + 1 - String.length (String.append t Logger.colon))%nat.
  split.
  - unfold Logger.getLogs. rewrite list_lookup_fmap, Hi. reflexivity.
  - rewrite length_append, length_spaces, !length_append.
    unfold Logger.colon. cbn [String.length]. lia.
Qed.

Lemma getLogs_aligned_witness :
  exists pad,
    Logger.getLogs (Logger.run Logger.demoCalls Logger.create) !! 0%nat
      = Some (String.append (String.append (String.append Logger.demoTitle Logger.colon)
                                           (Logger.spaces pad))
                            (String.append Logger.space Logger.demoMessage)) /\
    String.length (String.append (String.append Logger.demoTitle Logger.colon) (Logger.spaces pad))
      = (Logger._titleLength (Logger.run Logger.demoCalls Logger.create) + 1)%nat.
Proof.
  apply (getLogs_aligned Logger.demoCalls 0 Logger.demoTitle Logger.demoMessage).
  reflexivity.
Defined.

Lemma disabled_call c l :
  Logger.enabled l = false ->
  c <> Logger.SetEnabled true ->
  Logger.enabled (Logger.call c l) = false /\
  Logger._titleLength (Logger.call c l) = Logger._titleLength l /\
  (Logger._logs (Logger.call c l) = Logger._logs l \/
   Logger._logs (Logger.call c l) = []).
Proof.
  intros He Hc. destruct c as [[|]|m|f|t m|]; cbn [Logger.call].
  - contradiction.
  - cbn. auto.
  - unfold Logger.log. rewrite He. cbn [negb]. auto.
  - cbn. auto.
  - unfold Logger.logWithTitle. rewrite He. cbn [negb]. auto.
  - cbn. auto.
Qed.

(** X19. A logger that is not enabled records nothing: calls other than
    [setEnabled(true)] on a disabled logger leave it disabled, leave
    [_titleLength] as it is, and leave [_logs] as it was or, after a
    [clearLogs], empty. *)
Theorem disabled_records_nothing (calls : list Logger.Call) (l : Logger.ModulesLogger) :
  Logger.enabled l = false ->
  Logger.never_enabled calls ->
  Logger.enabled (Logger.run calls l) = false /\
  Logger._titleLength (Logger.run calls l) = Logger._titleLength l /\
  (Logger._logs (Logger.run calls l) = Logger._logs l \/
   Logger._logs (Logger.run calls l) = []).
Proof.
  revert l. induction calls as [|c calls IH]; intros l He Hn; [cbn; auto|].
  destruct (disabled_call c l He) as (He1 & Ht1 & Hl1).
  { apply Hn. left. }
  destruct (IH (Logger.call c l) He1) as (He2 & Ht2 & Hl2).
  { intros c' Hc'. apply Hn. now right. }
  change (Logger.run (c :: calls) l) with (Logger.run calls (Logger.call c l)).
  split; [exact He2|]. split; [congruence|].
  destruct Hl2 as [Hl2|Hl2]; [|now right].
  destruct Hl1 as [Hl1|Hl1]; [left|right]; congruence.
Qed.

Lemma disabled_records_nothing_witness :
  Logger.hasLogs (Logger.run Logger.quietCalls Logger.create) = false.
Proof.
  destruct (disabled_records_nothing Logger.quietCalls Logger.create) as (_ & _ & [H|H]).
  - reflexivity.
  - intros c Hc. unfold Logger.quietCalls in Hc.
    repeat (apply elem_of_cons in Hc as [->|Hc]; [discriminate|]).
    now apply elem_of_nil in Hc.
  - unfold Logger.hasLogs. rewrite H. reflexivity.
  - unfold Logger.hasLogs. rewrite H. reflexivity.
Defined.

Lemma titleLength_call c l :
  (Logger._titleLength l <= Logger._titleLength (Logger.call c l))%nat /\
  Logger._indent (Logger.call c l) = Logger._indent l.
Proof.
  destruct c as [e|m|f|t m|]; cbn [Logger.call].
  - cbn. auto.
  - unfold Logger.log. destruct (negb (Logger.enabled l)); cbn; auto.
  - cbn. auto.
  - unfold Logger.logWithTitle. destruct (negb (Logger.enabled l)); [auto|].
    set (t0 := if Logger._indentEnabled l then _ else t).
    destruct (Logger._titleLength l <? String.length t0)%nat eqn:E; cbn; [|auto].
    apply Nat.ltb_lt in E. split; [lia | reflexivity].
  - cbn. auto.
Qed.

(** X20. The title column never narrows: whatever the calls, [clearLogs]
    among them, [_titleLength] after them is at least what it was before, and
    the indent width stays what it was, 4 for a new logger. *)
Theorem titleLength_never_shrinks (calls : list Logger.Call) (l : Logger.ModulesLogger) :
  (Logger._titleLength l <= Logger._titleLength (Logger.run calls l))%nat /\
  Logger._indent (Logger.run calls l) = Logger._indent l.
Proof.
  revert l. induction calls as [|c calls IH]; intros l; [cbn; auto|].
  destruct (titleLength_call c l) as [H1 H2].
  destruct (IH (Logger.call c l)) as [H3 H4].
  change (Logger.run (c :: calls) l) with (Logger.run calls (Logger.call c l)).
  split; [lia | congruence].
Qed.

(** * The first revision of the store *)

(** X21. The present [getBlock] and [getLatestBlock] do on the two block
    indexes, the latest number and the requests what the first revision of the
    class did: from the same indexes they return the same block or throw the
    same error, and leave the same indexes and the same requests. *)
Theorem getBlock_as_before env (key : BlockHashOrNumber) (s : ForkBlockchain) :
  Legacy.getBlock env key (forget s)
    = (fst (getBlock env key s), forget (snd (getBlock env key s))) /\
  Legacy.getLatestBlock env (forget s)
    = (fst (getLatestBlock env s), forget (snd (getLatestBlock env s))).
Proof.
  assert (H : forall key, Legacy.getBlock env key (forget s)
            = (fst (getBlock env key s), forget (snd (getBlock env key s)))).
  { clear key. intros key. rewrite getBlock_run.
    destruct key as [h|n];
      cbn [Legacy.getBlock beyond_latest cached answer request].
    - unfold Legacy._getBlockByHash. cbn [forget Legacy._blocksByHash].
      destruct (_blocksByHash s !! h) as [b|]; [reflexivity|].
      destruct (getBlockByHash (_jsonRpcClient env) h) as [o|]; [|reflexivity].
      unfold Legacy._processRemoteBlock, accepted.
      destruct o as [r|]; [|reflexivity].
      destruct (rpc_hash r) as [rh|]; [|reflexivity].
      destruct (rpc_number r) as [rn|]; [|reflexivity].
      destruct (rn >? _forkBlockNumber env); reflexivity.
    - unfold Legacy._getBlockByNumber. cbn [forget Legacy._latestBlockNumber Legacy._blocksByNumber].
      destruct (n >? _latestBlockNumber s); [reflexivity|].
      destruct (_blocksByNumber s !! n) as [b|]; [reflexivity|].
      destruct (getBlockByNumber (_jsonRpcClient env) n) as [o|]; [|reflexivity].
      unfold Legacy._processRemoteBlock, accepted.
      destruct o as [r|]; [|reflexivity].
      destruct (rpc_hash r) as [rh|]; [|reflexivity].
      destruct (rpc_number r) as [rn|]; [|reflexivity].
      destruct (rn >? _forkBlockNumber env); reflexivity. }
  split; [apply H|].
  unfold Legacy.getLatestBlock. rewrite getLatestBlock_run. apply H.
Qed.

(** X22. In the first revision [putBlock] takes any block whose number is the
    latest one plus one, whatever its parent hash: the latest number grows by
    one, no request is made, and [getBlock] by the number, [getBlock] by the
    hash and [getLatestBlock] then return the block and leave the store as it
    is. *)
Theorem legacy_putBlock_then_getBlock env (block : Block) (s : Legacy.ForkBlockchain) :
  number (header block) = Legacy._latestBlockNumber s + 1 ->
  exists s',
    Legacy.putBlock block s = (Ok block, s') /\
    Legacy._latestBlockNumber s' = Legacy._latestBlockNumber s + 1 /\
    Legacy.rpcLog s' = Legacy.rpcLog s /\
    Legacy.getBlock env (OfNumber (number (header block))) s' = (Ok block, s') /\
    Legacy.getBlock env (OfHash (hash block)) s' = (Ok block, s') /\
    Legacy.getLatestBlock env s' = (Ok block, s').
Proof.
  intros Hn. unfold Legacy.putBlock. rewrite (proj2 (Z.eqb_eq _ _) Hn). cbn [negb].
  eexists. split; [reflexivity|]. split; [reflexivity|]. split; [reflexivity|].
  assert (Hnum : forall n, n = Legacy._latestBlockNumber s + 1 ->
    Legacy._getBlockByNumber env n
      {| Legacy._blocksByNumber := <[number (header block) := block]> (Legacy._blocksByNumber s);
         Legacy._blocksByHash := <[hash block := block]> (Legacy._blocksByHash s);
         Legacy._latestBlockNumber := Legacy._latestBlockNumber s + 1;
         Legacy.rpcLog := Legacy.rpcLog s |}
    = (Ok block,
      {| Legacy._blocksByNumber := <[number (header block) := block]> (Legacy._blocksByNumber s);
         Legacy._blocksByHash := <[hash block := block]> (Legacy._blocksByHash s);
         Legacy._latestBlockNumber := Legacy._latestBlockNumber s + 1;
         Legacy.rpcLog := Legacy.rpcLog s |})).
  { intros n ->. unfold Legacy._getBlockByNumber. cbn [Legacy._latestBlockNumber Legacy._blocksByNumber].
    rewrite Z.gtb_ltb, Z.ltb_irrefl. rewrite <- Hn at 1. now rewrite lookup_insert_eq. }
  split; [apply Hnum, Hn|].
  split; [|apply Hnum; reflexivity].
  cbn [Legacy.getBlock]. unfold Legacy._getBlockByHash. cbn [Legacy._blocksByHash].
  now rewrite lookup_insert_eq.
Qed.

Lemma legacy_putBlock_then_getBlock_witness :
  exists s',
    Legacy.putBlock orphan11 (forget demoLoaded) = (Ok orphan11, s') /\
    Legacy.getLatestBlock demoEnv s' = (Ok orphan11, s').
Proof.
  destruct (legacy_putBlock_then_getBlock demoEnv orphan11 (forget demoLoaded))
    as (s' & Hp & _ & _ & _ & _ & Hl).
  - vm_compute. reflexivity.
  - exists s'. split; [exact Hp | exact Hl].
Defined.
